(** * inference_scheduler.cpp: priority-queue batched inference scheduler

    A shallow embedding of [InferenceRequest] and [InferenceScheduler]
    (src/kubernetes_rag/chatgpt/cpp/inference_scheduler.cpp) together with
    the properties of the batching loop, the simulated cost, the statistics
    report and the worker/producer interleavings, and of [main]: its
    command line and the requests it submits.

    Conventions of the embedding.
    - [int] values are [Z]; where the source does arithmetic on them that can
      leave the 32-bit range ([total_tokens], [total_processed_]) the
      two's-complement wrap-around is written out with [wrap_int].
    - [double] values (clock readings, latencies, percentile ranks, costs)
      are exact rationals [Q]: the rounding of binary64 is outside the model.
      Module [Binary64] at the end recomputes in binary64 the two conversions
      of a [double] to an integer and compares them with the model.
    - [std::priority_queue<InferenceRequest>] is a library container; it is
      modelled by its contract (class [PriorityQueue]) and every theorem holds
      for every implementation of that contract.  Two implementations are
      given, which differ in how they break ties.
    - memory is a resource of the process, not of the program.  The one
      allocation whose size the configuration sets, that of [batch.reserve]
      (l.119), is explicit: whether it is served is given by an [Allocator],
      and every theorem holds for every allocator.  The containers that grow
      with the requests ([queue_], [latencies_]) and the creation of the
      threads in [start()] are taken as served: a run is an execution in
      which they are.
    - threads are an interleaving of atomic steps ([step]) over a [System]
      state that records, for each worker, where in [worker_loop] it is.  A
      wait on the condition variable is a step that is enabled when the
      mutex is free and the predicate holds; a sleep may end at any time. *)

From Stdlib Require Import ZArith QArith Qround Lia Sorted.
From Stdlib Require Import PrimFloat FloatOps SpecFloat Uint63.
From Stdlib Require Import Ascii String.
From stdpp Require Import base list.

Local Open Scope Z_scope.

(** ** Machine integers *)

Definition INT_MIN : Z := - 2 ^ 31.
Definition INT_MAX : Z := 2 ^ 31 - 1.

Definition in_int_range (z : Z) : Prop := INT_MIN ≤ z ≤ INT_MAX.

(** Two's-complement reduction of an integer to the range of [int]. *)
Definition wrap_int (z : Z) : Z := (z + 2 ^ 31) mod 2 ^ 32 - 2 ^ 31.

(** [static_cast<int>(double)]: truncation toward zero.  The conversion of a
    value outside the range of [int] is undefined in C++; the model gives it
    the value the x86-64 conversion instruction produces, [INT_MIN]. *)
Definition Qtrunc (x : Q) : Z := Z.quot (Qnum x) (Z.pos (Qden x)).

Definition static_cast_int (x : Q) : Z :=
  let t := Qtrunc x in
  if bool_decide (INT_MIN ≤ t ≤ INT_MAX) then t else INT_MIN.

(** [static_cast<size_t>(double)]: truncation toward zero, reduced to 64
    bits.  Only non-negative arguments arise in the source. *)
Definition static_cast_size_t (x : Q) : Z := Qtrunc x mod 2 ^ 64.

(** ** InferenceRequest *)

Record InferenceRequest : Type := mkRequest {
  id : Z;
  priority : Z;              (* higher = more urgent *)
  token_count : Z;           (* simulated input tokens *)
  enqueue_time_ms : Q        (* monotonic time at enqueue *)
}.

(** [InferenceRequest::operator<]: max-heap by priority. *)
Definition req_lt (a o : InferenceRequest) : bool :=
  bool_decide (priority a < priority o).

(** ** std::priority_queue<InferenceRequest>

    The contract of the container adaptor with the default comparator
    [std::less], which calls [operator<]: [top] is an element that compares
    less than no other element, [pop] removes that element, [push] adds one.
    [pq_elements] is the content of the underlying container; its order is
    internal to an implementation.  [top] on an empty queue is undefined and
    left unconstrained. *)
Class PriorityQueue : Type := {
  pq : Type;
  pq_new : pq;
  pq_elements : pq → list InferenceRequest;
  pq_empty : pq → bool;
  pq_push : InferenceRequest → pq → pq;
  pq_top : pq → option InferenceRequest;
  pq_pop : pq → pq;
  pq_new_elements : pq_elements pq_new = [];
  pq_empty_spec : ∀ q, pq_empty q = true ↔ pq_elements q = [];
  pq_push_spec : ∀ r q, pq_elements (pq_push r q) ≡ₚ r :: pq_elements q;
  pq_top_pop_spec : ∀ q, pq_elements q ≠ [] →
    ∃ r, pq_top q = Some r
       ∧ pq_elements q ≡ₚ r :: pq_elements (pq_pop q)
       ∧ ∀ y, y ∈ pq_elements q → req_lt r y = false
}.

(** *** Two implementations of the contract

    Both keep the pending requests in a list with the newest in front and
    select a greatest element by a linear scan.  [scan_max keep_first x l]
    returns a greatest element of [x :: l] and the others: with
    [keep_first = true] the earliest greatest element in list order is
    selected, with [false] the latest.  The instances are declared after
    the properties of the scheduler, where they serve the concrete runs. *)
Fixpoint scan_max (keep_first : bool) (x : InferenceRequest)
    (l : list InferenceRequest) : InferenceRequest * list InferenceRequest :=
  match l with
  | [] => (x, [])
  | y :: l' =>
    if (if keep_first then req_lt x y else negb (req_lt y x))
    then let '(m, rest) := scan_max keep_first y l' in (m, x :: rest)
    else let '(m, rest) := scan_max keep_first x l' in (m, y :: rest)
  end.

Definition scan_top (keep_first : bool) (q : list InferenceRequest)
    : option InferenceRequest :=
  match q with
  | [] => None
  | x :: l => Some (scan_max keep_first x l).1
  end.

Definition scan_pop (keep_first : bool) (q : list InferenceRequest)
    : list InferenceRequest :=
  match q with
  | [] => []
  | x :: l => (scan_max keep_first x l).2
  end.

Definition list_is_empty (q : list InferenceRequest) : bool :=
  match q with [] => true | _ => false end.

(** ** The allocator

    [batch.reserve(n)] on the empty vector of a worker (l.119) asks
    [operator new] for room for [n] requests, 24 bytes each, when [n > 0],
    and [std::bad_alloc] is thrown when the process cannot have them.
    Whether it can is decided outside the program: [reserve_succeeds w n]
    says whether the allocation of worker [w], which reserves once, is
    served.  Reserving 0 asks for nothing.  After it the batch vector never
    allocates again: the loop of l.129-132 stays within the reserved
    capacity. *)
Class Allocator : Type := {
  reserve_succeeds : nat → Z → bool;
  reserve_nothing : ∀ w, reserve_succeeds w 0 = true
}.

(** ** Calls

    What a call gives back to its caller: a value, or an exception.
    [InvalidConfiguration] is the one error that section 7 of the
    specification names; the constructor of the source throws nothing. *)
Inductive error : Type := InvalidConfiguration.

Inductive outcome (A : Type) : Type :=
  | Returned (a : A)
  | Thrown (e : error).
Arguments Returned {A} a.
Arguments Thrown {A} e.

(** ** InferenceScheduler *)

Section Scheduler.
Context {PQ : PriorityQueue} {Mem : Allocator}.

(** Where a worker thread is in [worker_loop]; the batch is the thread's
    local vector. *)
Inductive worker_pc : Type :=
  | Starting                                    (* l.118-119: batch.reserve(batch_size_) *)
  | Waiting                                     (* l.122-125: batch.clear(); lock mu_; cv_.wait *)
  | Draining                                    (* l.126-132: inside the scope of lk *)
  | Batched (batch : list InferenceRequest)     (* l.135: lk released *)
  | Sleeping (batch : list InferenceRequest) (us : Z)       (* l.141: sleep_for *)
  | Woken (batch : list InferenceRequest) (done_time : Q)   (* l.145-147: about to lock lat_mu_ *)
  | Recording (batch : list InferenceRequest) (done_time : Q) (* l.148-150: inside the scope of lat_mu_ *)
  | Counting (batch : list InferenceRequest)    (* l.153 *)
  | Exited.                                     (* after the break of l.126 *)

(** The data members of the class.  A mutex is the index of the worker that
    holds it, if any; the condition variable has no state of its own. *)
Record InferenceScheduler : Type := mkScheduler {
  num_workers_ : Z;
  batch_size_ : Z;
  shutdown_ : bool;
  total_processed_ : Z;
  start_time_ : Q;
  mu_ : option nat;
  queue_ : pq;
  lat_mu_ : option nat;
  latencies_ : list Q;
  workers_ : list worker_pc
}.

Definition set_shutdown_ (b : bool) (s : InferenceScheduler) :=
  mkScheduler (num_workers_ s) (batch_size_ s) b (total_processed_ s)
    (start_time_ s) (mu_ s) (queue_ s) (lat_mu_ s) (latencies_ s) (workers_ s).
Definition set_total_processed_ (n : Z) (s : InferenceScheduler) :=
  mkScheduler (num_workers_ s) (batch_size_ s) (shutdown_ s) n
    (start_time_ s) (mu_ s) (queue_ s) (lat_mu_ s) (latencies_ s) (workers_ s).
Definition set_start_time_ (t : Q) (s : InferenceScheduler) :=
  mkScheduler (num_workers_ s) (batch_size_ s) (shutdown_ s) (total_processed_ s)
    t (mu_ s) (queue_ s) (lat_mu_ s) (latencies_ s) (workers_ s).
Definition set_mu_ (o : option nat) (s : InferenceScheduler) :=
  mkScheduler (num_workers_ s) (batch_size_ s) (shutdown_ s) (total_processed_ s)
    (start_time_ s) o (queue_ s) (lat_mu_ s) (latencies_ s) (workers_ s).
Definition set_queue_ (q : pq) (s : InferenceScheduler) :=
  mkScheduler (num_workers_ s) (batch_size_ s) (shutdown_ s) (total_processed_ s)
    (start_time_ s) (mu_ s) q (lat_mu_ s) (latencies_ s) (workers_ s).
Definition set_lat_mu_ (o : option nat) (s : InferenceScheduler) :=
  mkScheduler (num_workers_ s) (batch_size_ s) (shutdown_ s) (total_processed_ s)
    (start_time_ s) (mu_ s) (queue_ s) o (latencies_ s) (workers_ s).
Definition set_latencies_ (l : list Q) (s : InferenceScheduler) :=
  mkScheduler (num_workers_ s) (batch_size_ s) (shutdown_ s) (total_processed_ s)
    (start_time_ s) (mu_ s) (queue_ s) (lat_mu_ s) l (workers_ s).
Definition set_workers_ (ws : list worker_pc) (s : InferenceScheduler) :=
  mkScheduler (num_workers_ s) (batch_size_ s) (shutdown_ s) (total_processed_ s)
    (start_time_ s) (mu_ s) (queue_ s) (lat_mu_ s) (latencies_ s) ws.

(** workers_[w] = pc *)
Definition set_worker (w : nat) (pc : worker_pc) (s : InferenceScheduler) :=
  set_workers_ (<[w:=pc]> (workers_ s)) s.

(** *** Constructor and start *)

(** [InferenceScheduler(int num_workers, int batch_size)]: the member
    initialisers, [start_time_ = 0], and default-constructed mutexes, queue,
    deque and thread vector.  It has no throw. *)
Definition InferenceScheduler_new (num_workers batch_size : Z) : InferenceScheduler :=
  {| num_workers_ := num_workers;
     batch_size_ := batch_size;
     shutdown_ := false;
     total_processed_ := 0;
     start_time_ := 0%Q;
     mu_ := None;
     queue_ := pq_new;
     lat_mu_ := None;
     latencies_ := [];
     workers_ := [] |}.

Definition construct (num_workers batch_size : Z) : outcome InferenceScheduler :=
  Returned (InferenceScheduler_new num_workers batch_size).

(** The constructor in the words of section 7 of the specification, to
    compare [construct] with: a non-positive worker count or batch size is
    rejected with [InvalidConfiguration].  The source has no such check. *)
Definition spec_construct (num_workers batch_size : Z) : outcome InferenceScheduler :=
  if bool_decide (0 < num_workers) && bool_decide (0 < batch_size)
  then Returned (InferenceScheduler_new num_workers batch_size)
  else Thrown InvalidConfiguration.

(** [start()]: stamps [start_time_] and appends one thread per
    [i = 0 .. num_workers_ - 1], each at the entry of [worker_loop]. *)
Definition start (now : Q) (s : InferenceScheduler) : InferenceScheduler :=
  set_workers_ (workers_ s ++ replicate (Z.to_nat (num_workers_ s)) Starting)
    (set_start_time_ now s).

(** *** enqueue *)

Definition stamp (now : Q) (req : InferenceRequest) : InferenceRequest :=
  {| id := id req;
     priority := priority req;
     token_count := token_count req;
     enqueue_time_ms := now |}.

(** [enqueue(req)]: [req.enqueue_time_ms = now_ms()], then [queue_.push(req)]
    under [mu_] (l.65-72).  Returns nothing. *)
Definition enqueue (now : Q) (req : InferenceRequest) (s : InferenceScheduler)
    : InferenceScheduler :=
  set_queue_ (pq_push (stamp now req) (queue_ s)) s.

(** *** The batching loop of worker_loop (l.129-132)

    [while (!queue_.empty() && (int)batch.size() < batch_size_)
       { batch.push_back(queue_.top()); queue_.pop(); }]
    Every iteration makes the batch longer, so [Z.to_nat batch_size]
    iterations are enough from the cleared batch ([drain_loop_exit]). *)
Fixpoint drain_loop (fuel : nat) (batch_size : Z) (queue : pq)
    (batch : list InferenceRequest) : pq * list InferenceRequest :=
  match fuel with
  | O => (queue, batch)
  | S fuel' =>
    if negb (pq_empty queue) && bool_decide (Z.of_nat (length batch) < batch_size)
    then match pq_top queue with
         | Some r => drain_loop fuel' batch_size (pq_pop queue) (batch ++ [r])
         | None => (queue, batch)
         end
    else (queue, batch)
  end.

Definition pull_batch (batch_size : Z) (queue : pq) : pq * list InferenceRequest :=
  drain_loop (Z.to_nat batch_size) batch_size queue [].

(** *** Simulated inference (l.137-142) *)

(** [int total_tokens = 0; for (auto& r : batch) total_tokens += r.token_count;]
    An overflow of the signed addition is undefined in C++; the model takes
    the wrap-around of the machine addition. *)
Definition total_tokens (batch : list InferenceRequest) : Z :=
  fold_left (λ acc r, wrap_int (acc + token_count r)) batch 0.

(** [double sim_ms = total_tokens * 0.02;] *)
Definition sim_ms (batch : list InferenceRequest) : Q :=
  (inject_Z (total_tokens batch) * 0.02)%Q.

(** The argument of [std::chrono::microseconds]:
    [static_cast<int>(sim_ms * 1000)]. *)
Definition sleep_us (batch : list InferenceRequest) : Z :=
  static_cast_int (sim_ms batch * 1000)%Q.

(** The sum of the sizes of a batch, as a mathematical integer. *)
Definition size_sum (batch : list InferenceRequest) : Z :=
  foldr (λ r acc, token_count r + acc) 0 batch.

(** A request with its size replaced by 0 when it is negative. *)
Definition clamp_size (r : InferenceRequest) : InferenceRequest :=
  {| id := id r;
     priority := priority r;
     token_count := Z.max 0 (token_count r);
     enqueue_time_ms := enqueue_time_ms r |}.

(** *** Recording (l.148-153) *)

(** [for (auto& r : batch) latencies_.push_back(done_time - r.enqueue_time_ms);] *)
Definition batch_latencies (done_time : Q) (batch : list InferenceRequest) : list Q :=
  map (λ r, (done_time - enqueue_time_ms r)%Q) batch.

(** *** print_stats (l.85-114) *)

Definition Qlt_bool (x y : Q) : bool := negb (Qle_bool y x).

(** [std::sort] with [operator<] on [double]: insertion into the sorted
    prefix after every element that is smaller. *)
Fixpoint sort_insert (x : Q) (l : list Q) : list Q :=
  match l with
  | [] => [x]
  | y :: l' => if Qlt_bool y x then y :: sort_insert x l' else x :: y :: l'
  end.

Definition std_sort (l : list Q) : list Q := foldr sort_insert [] l.

(** The lambda [pct] over the captured [sorted_lat] (l.94-99). *)
Definition pct (sorted_lat : list Q) (p : Q) : Q :=
  if bool_decide (sorted_lat = []) then 0%Q
  else
    let size := Z.of_nat (length sorted_lat) in
    let idx := static_cast_size_t (p * inject_Z size)%Q in
    let idx := Z.min idx (size - 1) in
    nth (Z.to_nat idx) sorted_lat 0%Q.

(** The values [print_stats] streams to [std::cout], in order. *)
Record Stats : Type := mkStats {
  st_workers : Z;
  st_batch_size : Z;
  st_processed : Z;
  st_elapsed : Q;
  st_throughput : Q;
  st_p50 : Q;
  st_p95 : Q;
  st_p99 : Q
}.

Definition print_stats (now : Q) (s : InferenceScheduler) : Stats :=
  let elapsed := (now - start_time_ s)%Q in
  let throughput :=
    if bool_decide (0 < total_processed_ s)
    then (inject_Z (total_processed_ s) / (elapsed / 1000))%Q
    else 0%Q in
  let sorted_lat := std_sort (latencies_ s) in
  {| st_workers := num_workers_ s;
     st_batch_size := batch_size_ s;
     st_processed := total_processed_ s;
     st_elapsed := elapsed;
     st_throughput := throughput;
     st_p50 := pct sorted_lat 0.50;
     st_p95 := pct sorted_lat 0.95;
     st_p99 := pct sorted_lat 0.99 |}.

(** ** Threads

    The main thread (the caller of [start], [enqueue], [shutdown]) and the
    workers run interleaved.  A step is one of the atomic actions below; a
    lock-protected region that touches only the data the lock protects is
    entered in one step and left in the next, so that the state in which a
    lock is held is visible. *)

Inductive main_state : Type :=
  | Running      (* after start(): submitting *)
  | Joining      (* in shutdown(), flag set (l.75-79), joining the workers (l.80-82) *)
  | Joined       (* shutdown() returned *)
  | Terminated.  (* std::terminate: an exception left a thread function *)

(** [submitted] and [recorded] are history variables, not data of the
    program: the requests pushed so far, as stamped, and the batches whose
    latencies were recorded so far, each with its completion time. *)
Record System : Type := mkSystem {
  sched : InferenceScheduler;
  clock : Q;                                      (* steady_clock *)
  main_pc : main_state;
  submitted : list InferenceRequest;
  recorded : list (Q * list InferenceRequest)
}.

Definition set_sched (s : InferenceScheduler) (S : System) : System :=
  mkSystem s (clock S) (main_pc S) (submitted S) (recorded S).

(** [now_ms()] *)
Definition now_ms (S : System) : Q := clock S.

Inductive label : Type :=
  | Tick (d : Q)                     (* time passes *)
  | Enqueue (req : InferenceRequest) (* main: enqueue(req) *)
  | Shutdown                         (* main: shutdown(), l.75-79 *)
  | Join                             (* main: shutdown(), l.80-82 returns *)
  | Work (w : nat).                  (* worker w: its next action *)

Definition is_free (m : option nat) : bool :=
  match m with None => true | Some _ => false end.

Definition is_exited (pc : worker_pc) : bool :=
  match pc with Exited => true | _ => false end.

(** The next action of worker [w] (l.117-155).  [None]: the worker is blocked
    (on a mutex or in [cv_.wait]) or has returned. *)
Definition worker_step (w : nat) (S : System) : option System :=
  let s := sched S in
  match workers_ s !! w with
  | None => None
  | Some Starting =>
    (* std::vector::reserve(n) throws std::length_error when n, converted to
       size_t, exceeds max_size(): that is, for a negative batch_size_; and
       std::bad_alloc when the allocation is not served.  Either exception
       leaves the thread function and the process terminates. *)
    if bool_decide (batch_size_ s < 0)
       || negb (reserve_succeeds w (batch_size_ s))
    then Some (mkSystem s (clock S) Terminated (submitted S) (recorded S))
    else Some (set_sched (set_worker w Waiting s) S)
  | Some Waiting =>
    (* unique_lock lk(mu_); cv_.wait(lk, [&]{ return !queue_.empty() || shutdown_; }) *)
    if is_free (mu_ s) && (negb (pq_empty (queue_ s)) || shutdown_ s)
    then Some (set_sched (set_worker w Draining (set_mu_ (Some w) s)) S)
    else None
  | Some Draining =>
    if shutdown_ s && pq_empty (queue_ s)
    then (* break; lk is released *)
      Some (set_sched (set_worker w Exited (set_mu_ None s)) S)
    else
      let '(queue', batch) := pull_batch (batch_size_ s) (queue_ s) in
      Some (set_sched (set_worker w (Batched batch)
                         (set_mu_ None (set_queue_ queue' s))) S)
  | Some (Batched batch) =>
    if bool_decide (batch = [])
    then (* continue *) Some (set_sched (set_worker w Waiting s) S)
    else Some (set_sched (set_worker w (Sleeping batch (sleep_us batch)) s) S)
  | Some (Sleeping batch us) =>
    (* sleep_for returned; done_time = now_ms() *)
    Some (set_sched (set_worker w (Woken batch (now_ms S)) s) S)
  | Some (Woken batch done_time) =>
    (* lock_guard lk(lat_mu_) *)
    if is_free (lat_mu_ s)
    then Some (set_sched (set_worker w (Recording batch done_time)
                            (set_lat_mu_ (Some w) s)) S)
    else None
  | Some (Recording batch done_time) =>
    Some (mkSystem
            (set_worker w (Counting batch)
               (set_lat_mu_ None
                  (set_latencies_ (latencies_ s ++ batch_latencies done_time batch) s)))
            (clock S) (main_pc S) (submitted S)
            (recorded S ++ [(done_time, batch)]))
  | Some (Counting batch) =>
    (* total_processed_ += batch.size() *)
    Some (set_sched
            (set_worker w Waiting
               (set_total_processed_
                  (wrap_int (total_processed_ s + Z.of_nat (length batch))) s)) S)
  | Some Exited => None
  end.

Definition step (l : label) (S : System) : option System :=
  let s := sched S in
  match l with
  | Tick d =>
    match main_pc S with
    | Terminated => None
    | _ =>
      if Qle_bool 0 d
      then Some (mkSystem s (clock S + d)%Q (main_pc S) (submitted S) (recorded S))
      else None
    end
  | Enqueue req =>
    match main_pc S with
    | Running =>
      if is_free (mu_ s)
      then Some (mkSystem (enqueue (now_ms S) req s) (clock S) Running
                   (submitted S ++ [stamp (now_ms S) req]) (recorded S))
      else None
    | _ => None
    end
  | Shutdown =>
    match main_pc S with
    | Running =>
      if is_free (mu_ s)
      then Some (mkSystem (set_shutdown_ true s) (clock S) Joining
                   (submitted S) (recorded S))
      else None
    | _ => None
    end
  | Join =>
    match main_pc S with
    | Joining =>
      if forallb is_exited (workers_ s)
      then Some (mkSystem s (clock S) Joined (submitted S) (recorded S))
      else None
    | _ => None
    end
  | Work w =>
    match main_pc S with
    | Terminated => None
    | _ => worker_step w S
    end
  end.

(** A run: the labels are taken in order; [None] when one is not enabled. *)
Fixpoint run (ls : list label) (S : System) : option System :=
  match ls with
  | [] => Some S
  | l :: ls' =>
    match step l S with
    | Some S' => run ls' S'
    | None => None
    end
  end.

(** The state after construction and [start()] at time [t0]. *)
Definition boot (num_workers batch_size : Z) (t0 : Q) : System :=
  mkSystem (start t0 (InferenceScheduler_new num_workers batch_size))
    t0 Running [] [].

(** The requests a worker holds in its local batch and has not recorded. *)
Definition pending (pc : worker_pc) : list InferenceRequest :=
  match pc with
  | Batched b | Sleeping b _ | Woken b _ | Recording b _ => b
  | _ => []
  end.

(** The batch in the local vector of a worker. *)
Definition held (pc : worker_pc) : list InferenceRequest :=
  match pc with
  | Batched b | Sleeping b _ | Woken b _ | Recording b _ | Counting b => b
  | _ => []
  end.

(** The worker is past the test of l.135. *)
Definition processing (pc : worker_pc) : bool :=
  match pc with
  | Sleeping _ _ | Woken _ _ | Recording _ _ | Counting _ => true
  | _ => false
  end.

(** The number of requests a worker has recorded and not yet counted. *)
Definition uncounted (pc : worker_pc) : Z :=
  match pc with
  | Counting b => Z.of_nat (length b)
  | _ => 0
  end.

Definition is_tick (l : label) : bool :=
  match l with Tick _ => true | _ => false end.

(** The progress measure of the drain after shutdown. *)
Definition rank (pc : worker_pc) : nat :=
  match pc with
  | Exited => 0
  | Draining => 1
  | Waiting => 2
  | Starting | Counting _ => 3
  | Recording _ _ => 4
  | Woken _ _ => 5
  | Sleeping _ _ => 6
  | Batched _ => 7
  end.

Definition measure (S : System) : nat :=
  (8 * length (pq_elements (queue_ (sched S)))
   + sum_list_with rank (workers_ (sched S))
   + match main_pc S with Joining => 1 | _ => 0 end)%nat.

(** ** Notions the properties are stated with *)

(** [a] is at least as urgent as [b]. *)
Definition prio_ge (a b : InferenceRequest) : Prop := priority b ≤ priority a.

(** The requests the workers have recorded and not yet counted. *)
Definition sum_uncounted (ws : list worker_pc) : Z :=
  foldr (λ pc acc, uncounted pc + acc) 0 ws.

(** The requests the main thread passes to [enqueue] along a run. *)
Definition enqueued (ls : list label) : list InferenceRequest :=
  flat_map (λ l, match l with Enqueue req => [req] | _ => [] end) ls.

(** The allocation of [batch.reserve(bs)] is served for each of the [nw]
    workers. *)
Definition reserve_ok (nw bs : Z) : Prop :=
  ∀ w, (w < Z.to_nat nw)%nat → reserve_succeeds w bs = true.

(** [r'] is [r] with a timestamp. *)
Definition stamped (r' r : InferenceRequest) : Prop :=
  ∃ now, r' = stamp now r.

(** What holds in every state of every run ([run_invariant]): the
    configuration is fixed; a mutex is held exactly by the worker inside its
    scope; the shutdown flag follows the main thread; a worker returns only
    from an empty queue after shutdown; every submitted request is in the
    queue, in the batch of one worker or in one recorded batch; the latency
    samples are those of the recorded batches; the processed count lags the
    recorded batches by the batches being counted. *)
Record invariant (nw bs : Z) (S : System) : Prop := mkInvariant {
  inv_num_workers : num_workers_ (sched S) = nw;
  inv_batch_size : batch_size_ (sched S) = bs;
  inv_threads : length (workers_ (sched S)) = Z.to_nat nw;
  inv_mu : ∀ w, mu_ (sched S) = Some w ↔ workers_ (sched S) !! w = Some Draining;
  inv_lat_mu : ∀ w, lat_mu_ (sched S) = Some w
                    ↔ ∃ b t, workers_ (sched S) !! w = Some (Recording b t);
  inv_running : main_pc S = Running → shutdown_ (sched S) = false;
  inv_stopping : main_pc S = Joining ∨ main_pc S = Joined →
                 shutdown_ (sched S) = true;
  inv_exited : ∀ w, workers_ (sched S) !! w = Some Exited →
                    shutdown_ (sched S) = true
                    ∧ pq_elements (queue_ (sched S)) = [];
  inv_joined : main_pc S = Joined → Forall (λ pc, pc = Exited) (workers_ (sched S));
  inv_conserve : submitted S
                 ≡ₚ pq_elements (queue_ (sched S))
                    ++ flat_map pending (workers_ (sched S))
                    ++ flat_map snd (recorded S);
  inv_latencies : latencies_ (sched S)
                  = flat_map (λ tb, batch_latencies tb.1 tb.2) (recorded S);
  inv_count : total_processed_ (sched S)
              = wrap_int (Z.of_nat (length (flat_map snd (recorded S)))
                          - sum_uncounted (workers_ (sched S)))
}.

(** What holds of the batches in every state of every run
    ([run_batch_invariant]): a worker that is past [reserve] holds at most
    [bs] requests, and at least one while it processes; a recorded batch
    has between 1 and [bs] requests; the process ends only at the
    [reserve] of a worker, for a negative batch size or an allocation that
    is not served. *)
Record batch_invariant (bs : Z) (S : System) : Prop := mkBatchInvariant {
  binv_batch_size : batch_size_ (sched S) = bs;
  binv_held : ∀ w pc, workers_ (sched S) !! w = Some pc → pc ≠ Starting →
                Z.of_nat (length (held pc)) ≤ bs
                ∧ (processing pc = true → held pc ≠ []);
  binv_recorded : Forall (λ tb, 1 ≤ Z.of_nat (length tb.2) ≤ bs) (recorded S);
  binv_terminated : main_pc S = Terminated →
    bs < 0
    ∨ ∃ w, (w < length (workers_ (sched S)))%nat
           ∧ reserve_succeeds w bs = false
}.

(** The completion time a worker has read ([done_time], l.145) is not after
    the present clock reading nor before the enqueue time of any request of
    its batch. *)
Definition done_after_enqueue (now : Q) (pc : worker_pc) : Prop :=
  match pc with
  | Woken b t | Recording b t =>
    (t <= now)%Q ∧ Forall (λ r, (enqueue_time_ms r <= t)%Q) b
  | _ => True
  end.

(** What holds besides in every state of every run ([run_history_invariant]),
    on the clock readings and on the order of the actions of a worker: the
    clock never runs backwards, so the start time is before every enqueue
    time and every enqueue time before the completion time of its batch; the
    requests being counted were recorded before; a worker inside the scope
    of [lk] has found the predicate of its wait true and nothing has changed
    the queue or the flag since; an empty batch leaves that scope only when
    the batch size is not positive. *)
Record history_invariant (S : System) : Prop := mkHistoryInvariant {
  hinv_start : (start_time_ (sched S) <= clock S)%Q;
  hinv_submitted :
    Forall (λ r, (start_time_ (sched S) <= enqueue_time_ms r)%Q
                 ∧ (enqueue_time_ms r <= clock S)%Q) (submitted S);
  hinv_done : ∀ w pc, workers_ (sched S) !! w = Some pc →
                done_after_enqueue (clock S) pc;
  hinv_recorded :
    Forall (λ tb, (tb.1 <= clock S)%Q
                  ∧ Forall (λ r, (enqueue_time_ms r <= tb.1)%Q) tb.2)
      (recorded S);
  hinv_uncounted : sum_uncounted (workers_ (sched S))
                   ≤ Z.of_nat (length (flat_map snd (recorded S)));
  hinv_draining : ∀ w, workers_ (sched S) !! w = Some Draining →
                    pq_empty (queue_ (sched S)) = false
                    ∨ shutdown_ (sched S) = true;
  hinv_batched : ∀ w, workers_ (sched S) !! w = Some (Batched []) →
                   batch_size_ (sched S) ≤ 0
}.

(** ** main (l.183-218) *)

(** *** The command line (l.184-193) *)

(** [std::isspace] in the C locale: space, and the controls from tab to
    carriage return. *)
Definition isspace (c : ascii) : bool :=
  let n := nat_of_ascii c in
  (n =? 32)%nat || ((9 <=? n)%nat && (n <=? 13)%nat).

Definition digit_value (c : ascii) : option Z :=
  let n := Z.of_nat (nat_of_ascii c) in
  if (48 <=? n) && (n <=? 57) then Some (n - 48) else None.

Fixpoint skip_spaces (s : string) : string :=
  match s with
  | String c s' => if isspace c then skip_spaces s' else s
  | EmptyString => s
  end.

(** The value of the longest prefix of decimal digits, after [acc]. *)
Fixpoint digits_value (acc : Z) (s : string) : Z :=
  match s with
  | String c s' =>
    match digit_value c with
    | Some d => digits_value (10 * acc + d) s'
    | None => acc
    end
  | EmptyString => acc
  end.

(** The number a string starts with: white space, an optional sign, decimal
    digits; 0 when there is no digit at that place. *)
Definition leading_number (s : string) : Z :=
  match skip_spaces s with
  | String "-" s' => - digits_value 0 s'
  | String "+" s' => digits_value 0 s'
  | s' => digits_value 0 s'
  end.

Definition LONG_MIN : Z := - 2 ^ 63.
Definition LONG_MAX : Z := 2 ^ 63 - 1.

(** [std::atoi].  Its result for a number outside the range of [int] is
    undefined; the model gives the value of glibc, where [atoi] is [strtol]
    (which saturates at the range of [long]) converted to [int]. *)
Definition atoi (s : string) : Z :=
  wrap_int (Z.max LONG_MIN (Z.min LONG_MAX (leading_number s))).

(** The three locals of [main] that the command line sets. *)
Record Options : Type := mkOptions {
  num_workers : Z;
  batch_size : Z;
  num_requests : Z
}.

Definition default_options : Options := mkOptions 4 8 200.

(** The loop of l.188-193 from index [i] on; [args] is [argv[i .. argc-1]].
    With a next argument ([i + 1 < argc]) a flag takes it as its value and
    the loop goes on after the value ([++i] twice); any other argument,
    and any argument in the last place, is passed over. *)
Fixpoint parse_args (args : list string) (o : Options) : Options :=
  match args with
  | [] => o
  | arg :: rest =>
    match rest with
    | value :: rest' =>
      if (arg =? "--workers")%string
      then parse_args rest' (mkOptions (atoi value) (batch_size o) (num_requests o))
      else if (arg =? "--batch")%string
      then parse_args rest' (mkOptions (num_workers o) (atoi value) (num_requests o))
      else if (arg =? "--requests")%string
      then parse_args rest' (mkOptions (num_workers o) (batch_size o) (atoi value))
      else parse_args rest o
    | [] => o
    end
  end.

(** The options of [main(argc, argv)]: the loop starts at [i = 1]. *)
Definition main_options (argv : list string) : Options :=
  parse_args (tail argv) default_options.

(** The flags, to state the properties of the loop with. *)
Inductive flag : Type := Workers | Batch | Requests.

#[global] Instance flag_eq_dec : EqDecision flag.
Proof. solve_decision. Defined.

Definition flag_name (f : flag) : string :=
  match f with
  | Workers => "--workers"
  | Batch => "--batch"
  | Requests => "--requests"
  end.

Definition option_of (f : flag) (o : Options) : Z :=
  match f with
  | Workers => num_workers o
  | Batch => batch_size o
  | Requests => num_requests o
  end.

Definition set_option (f : flag) (n : Z) (o : Options) : Options :=
  match f with
  | Workers => mkOptions n (batch_size o) (num_requests o)
  | Batch => mkOptions (num_workers o) n (num_requests o)
  | Requests => mkOptions (num_workers o) (batch_size o) n
  end.

(** A command line of flags, each with its value. *)
Definition command_line (pairs : list (flag * string)) : list string :=
  flat_map (λ fv, [flag_name fv.1; fv.2]) pairs.

(** *** The requests (l.202-210)

    [scheduler.enqueue({i, prio_dist(rng), tok_dist(rng), 0})] for
    [i = 0 .. num_requests - 1].  The numbers come from the library
    ([std::mt19937] through two [std::uniform_int_distribution<int>]); the
    model takes them as given: [prio_dist i] and [tok_dist i] are what the
    two distributions return in the iteration [i]. *)
Definition main_requests (prio_dist tok_dist : nat → Z) (num_requests : Z)
    : list InferenceRequest :=
  (λ i, mkRequest (Z.of_nat i) (prio_dist i) (tok_dist i) 0)
    <$> seq 0 (Z.to_nat num_requests).

(** A label that is no action of the main thread: a worker acts or time
    passes. *)
Definition is_worker_or_clock (l : label) : bool :=
  match l with Tick _ | Work _ => true | _ => false end.

(** The number of samples that satisfy [f]. *)
Fixpoint count_samples (f : Q → bool) (l : list Q) : nat :=
  match l with
  | [] => 0
  | x :: l' => ((if f x then 1 else 0) + count_samples f l')%nat
  end.

(** The index [pct] reads for the rank [p] among [n] samples (l.96-97). *)
Definition rank_index (n : nat) (p : Q) : nat :=
  Z.to_nat (Z.min (static_cast_size_t (p * inject_Z (Z.of_nat n))%Q)
                  (Z.of_nat n - 1)).


(** * Properties *)

Lemma req_lt_false (a b : InferenceRequest) :
  req_lt a b = false ↔ priority b ≤ priority a.
Proof.
  unfold req_lt. rewrite bool_decide_eq_false. lia.
Qed.

Lemma req_lt_true (a b : InferenceRequest) :
  req_lt a b = true ↔ priority a < priority b.
Proof.
  unfold req_lt. apply bool_decide_eq_true.
Qed.


(** ** The batching loop *)

Lemma pq_nonempty_elements (q : pq) :
  pq_empty q = false → pq_elements q ≠ [].
Proof.
  intros H He. apply pq_empty_spec in He. congruence.
Qed.

Lemma drain_loop_spec (bs : Z) (fuel : nat) :
  ∀ (q : pq) (batch : list InferenceRequest),
    ∃ taken,
      (drain_loop fuel bs q batch).2 = batch ++ taken
      ∧ pq_elements q ≡ₚ taken ++ pq_elements (drain_loop fuel bs q batch).1
      ∧ StronglySorted prio_ge taken
      ∧ (∀ r y, r ∈ taken → y ∈ pq_elements (drain_loop fuel bs q batch).1 →
           priority y ≤ priority r)
      ∧ (taken ≠ [] → Z.of_nat (length (batch ++ taken)) ≤ bs)
      ∧ (bs - Z.of_nat (length batch) ≤ Z.of_nat fuel →
           pq_empty (drain_loop fuel bs q batch).1 = true
           ∨ bs ≤ Z.of_nat (length (batch ++ taken))).
Proof.
  induction fuel as [|fuel IH]; intros q batch; simpl.
  - exists []. rewrite app_nil_r.
    split_and!; [done | done | constructor | by intros ?? ?%elem_of_nil | done |].
    intros. right. lia.
  - destruct (pq_empty q) eqn:He; simpl.
    { exists []. rewrite app_nil_r.
      split_and!; [done | done | constructor | by intros ?? ?%elem_of_nil | done |].
      intros. by left. }
    case_bool_decide as Hlen; simpl.
    2:{ exists []. rewrite app_nil_r.
        split_and!; [done | done | constructor | by intros ?? ?%elem_of_nil | done |].
        intros. right. lia. }
    destruct (pq_top_pop_spec q (pq_nonempty_elements q He))
      as (r & Htop & Hperm & Hmax).
    rewrite Htop.
    destruct (IH (pq_pop q) (batch ++ [r]))
      as (taken & Hb & Hp & Hs & Hrest & Hbound & Hexit).
    set (res := drain_loop fuel bs (pq_pop q) (batch ++ [r])) in *.
    assert (∀ y, y ∈ pq_elements (pq_pop q) → priority y ≤ priority r) as Hr.
    { intros y Hy. apply req_lt_false, Hmax. rewrite Hperm. by right. }
    exists (r :: taken).
    rewrite <- app_assoc in Hb. simpl in Hb.
    replace (batch ++ r :: taken) with ((batch ++ [r]) ++ taken)
      by (by rewrite <- app_assoc).
    split; [by rewrite <- app_assoc |].
    split; [by rewrite Hperm, Hp |].
    split.
    { constructor; [exact Hs |].
      apply Forall_forall. intros y Hy. apply Hr. rewrite Hp.
      apply elem_of_app. by left. }
    split.
    { intros r' y Hr' Hy. apply elem_of_cons in Hr' as [-> | Hr'].
      - apply Hr. rewrite Hp. apply elem_of_app. by right.
      - by apply Hrest. }
    split.
    { intros _. destruct taken as [|t taken'].
      - rewrite app_nil_r, length_app. simpl. lia.
      - by apply Hbound. }
    intros Hf. apply Hexit. rewrite length_app. simpl. lia.
Qed.

Lemma pull_batch_spec (bs : Z) (q : pq) :
  pq_elements q ≡ₚ (pull_batch bs q).2 ++ pq_elements (pull_batch bs q).1
  ∧ StronglySorted prio_ge (pull_batch bs q).2
  ∧ (∀ r y, r ∈ (pull_batch bs q).2 → y ∈ pq_elements (pull_batch bs q).1 →
       priority y ≤ priority r)
  ∧ ((pull_batch bs q).2 ≠ [] → Z.of_nat (length (pull_batch bs q).2) ≤ bs)
  ∧ (pq_empty (pull_batch bs q).1 = true
     ∨ bs ≤ Z.of_nat (length (pull_batch bs q).2)).
Proof.
  unfold pull_batch.
  destruct (drain_loop_spec bs (Z.to_nat bs) q [])
    as (taken & Hb & Hp & Hs & Hrest & Hbound & Hexit).
  simpl in *. rewrite Hb.
  split_and!; try done.
  apply Hexit. lia.
Qed.

(** The loop leaves for one of its two reasons: the fuel never cuts it. *)
Lemma drain_loop_exit (bs : Z) (q : pq) :
  negb (pq_empty (pull_batch bs q).1)
  && bool_decide (Z.of_nat (length (pull_batch bs q).2) < bs) = false.
Proof.
  destruct (pull_batch_spec bs q) as (_ & _ & _ & _ & [He | Hn]).
  - by rewrite He.
  - rewrite bool_decide_eq_false_2 by lia. apply andb_false_r.
Qed.

Lemma pull_batch_length (bs : Z) (q : pq) :
  length (pull_batch bs q).2 = (Z.to_nat bs `min` length (pq_elements q))%nat.
Proof.
  destruct (pull_batch_spec bs q) as (Hp & _ & _ & Hbound & Hexit).
  apply Permutation_length in Hp. rewrite length_app in Hp.
  destruct Hexit as [He | Hn].
  - apply pq_empty_spec in He. rewrite He in Hp. simpl in Hp.
    destruct (pull_batch bs q).2 as [|r b] eqn:Hb.
    + simpl in *. lia.
    + assert (Z.of_nat (length (r :: b)) ≤ bs) by (by apply Hbound). lia.
  - destruct (pull_batch bs q).2 as [|r b] eqn:Hb.
    + simpl in *. lia.
    + assert (Z.of_nat (length (r :: b)) ≤ bs) by (by apply Hbound). lia.
Qed.

(** The most urgent [k] priorities of a multiset, most urgent first, are
    determined by the multiset. *)
Lemma top_priorities_unique (l1 : list Z) :
  ∀ l2 r1 r2 : list Z,
    length l1 = length l2 →
    l1 ++ r1 ≡ₚ l2 ++ r2 →
    StronglySorted (λ a b, b ≤ a) l1 →
    StronglySorted (λ a b, b ≤ a) l2 →
    (∀ x y, x ∈ l1 → y ∈ r1 → y ≤ x) →
    (∀ x y, x ∈ l2 → y ∈ r2 → y ≤ x) →
    l1 = l2.
Proof.
  induction l1 as [|a l1 IH]; intros [|b l2] r1 r2 Hlen Hp Hs1 Hs2 Hd1 Hd2;
    simpl in *; try done.
  apply StronglySorted_inv in Hs1 as [Hs1 Ha].
  apply StronglySorted_inv in Hs2 as [Hs2 Hb].
  rewrite Forall_forall in Ha, Hb.
  assert (∀ x, x ∈ a :: l1 ++ r1 → x ≤ a) as Hmax1.
  { intros x [-> | [Hx | Hx]%elem_of_app]%elem_of_cons; [lia | by apply Ha |].
    apply Hd1; [by left | done]. }
  assert (∀ x, x ∈ b :: l2 ++ r2 → x ≤ b) as Hmax2.
  { intros x [-> | [Hx | Hx]%elem_of_app]%elem_of_cons; [lia | by apply Hb |].
    apply Hd2; [by left | done]. }
  assert (a = b) as ->.
  { assert (a ≤ b) by (apply Hmax2; rewrite <- Hp; by left).
    assert (b ≤ a) by (apply Hmax1; rewrite Hp; by left). lia. }
  f_equal. apply (IH l2 r1 r2).
  - lia.
  - by apply Permutation_cons_inv in Hp.
  - done.
  - done.
  - intros x y Hx Hy. apply Hd1; [by right | done].
  - intros x y Hx Hy. apply Hd2; [by right | done].
Qed.

Lemma prio_sorted_fmap (l : list InferenceRequest) :
  StronglySorted prio_ge l → StronglySorted (λ a b : Z, b ≤ a) (priority <$> l).
Proof.
  induction 1 as [|r l Hs IH Hall]; simpl; constructor; [done |].
  apply Forall_fmap. eapply Forall_impl; [exact Hall | done].
Qed.

Lemma sorted_lookup (l : list InferenceRequest) :
  StronglySorted prio_ge l →
  ∀ i j a b, (i < j)%nat → l !! i = Some a → l !! j = Some b → prio_ge a b.
Proof.
  induction 1 as [|x l Hs IH Hall]; intros i j a b Hij Hi Hj; [done |].
  destruct j as [|j]; [lia |]. simpl in Hj.
  destruct i as [|i]; simpl in Hi.
  - simplify_eq. rewrite Forall_forall in Hall.
    apply Hall. by eapply list_elem_of_lookup_2.
  - apply (IH i j); [lia | done | done].
Qed.

Lemma pull_batch_priorities (bs : Z) (q1 q2 : pq) :
  priority <$> pq_elements q1 ≡ₚ priority <$> pq_elements q2 →
  priority <$> (pull_batch bs q1).2 = priority <$> (pull_batch bs q2).2.
Proof.
  intros Hq.
  destruct (pull_batch_spec bs q1) as (Hp1 & Hs1 & Hd1 & _).
  destruct (pull_batch_spec bs q2) as (Hp2 & Hs2 & Hd2 & _).
  apply (top_priorities_unique _ _
           (priority <$> pq_elements (pull_batch bs q1).1)
           (priority <$> pq_elements (pull_batch bs q2).1)).
  - rewrite !length_fmap, !pull_batch_length.
    apply Permutation_length in Hq. rewrite !length_fmap in Hq. lia.
  - rewrite <- !fmap_app, <- Hp1, <- Hp2. exact Hq.
  - by apply prio_sorted_fmap.
  - by apply prio_sorted_fmap.
  - intros x y (r & -> & Hr)%list_elem_of_fmap (r' & -> & Hr')%list_elem_of_fmap.
    by apply Hd1.
  - intros x y (r & -> & Hr)%list_elem_of_fmap (r' & -> & Hr')%list_elem_of_fmap.
    by apply Hd2.
Qed.

(** C1. A batch drawn by the loop of l.129-132 holds pending requests in
    non-increasing priority order, a request of strictly higher priority
    before any of lower priority; no request left in the queue is more
    urgent than one that was taken; the batch is filled up to the batch-size
    bound; and priority is the only key: [operator<] reads no other field,
    and the priorities drawn are fixed by the priorities that are pending,
    whatever the other fields are.  Nothing orders equal priorities. *)
Theorem C1_batch_priority_order :
  ∀ (bs : Z) (q : pq),
    pq_elements q ≡ₚ (pull_batch bs q).2 ++ pq_elements (pull_batch bs q).1
    ∧ StronglySorted prio_ge (pull_batch bs q).2
    ∧ (∀ i j a b, (pull_batch bs q).2 !! i = Some a →
                  (pull_batch bs q).2 !! j = Some b →
                  priority b < priority a → (i < j)%nat)
    ∧ (∀ r y, r ∈ (pull_batch bs q).2 →
              y ∈ pq_elements (pull_batch bs q).1 →
              priority y ≤ priority r)
    ∧ length (pull_batch bs q).2
      = (Z.to_nat bs `min` length (pq_elements q))%nat
    ∧ (∀ a b a' b', priority a = priority a' → priority b = priority b' →
                    req_lt a b = req_lt a' b')
    ∧ (∀ a b, priority a = priority b → req_lt a b = false ∧ req_lt b a = false)
    ∧ (∀ q2, priority <$> pq_elements q2 ≡ₚ priority <$> pq_elements q →
             priority <$> (pull_batch bs q2).2 = priority <$> (pull_batch bs q).2).
Proof.
  intros bs q.
  destruct (pull_batch_spec bs q) as (Hp & Hs & Hd & _).
  split_and!; try done.
  - intros i j a b Hi Hj Hlt.
    destruct (decide (i < j)%nat) as [| Hge]; [done | exfalso].
    destruct (decide (i = j)) as [-> | Hne]; [simplify_eq; lia |].
    pose proof (sorted_lookup _ Hs j i b a ltac:(lia) Hj Hi) as Hge'.
    unfold prio_ge in Hge'. lia.
  - apply pull_batch_length.
  - intros a b a' b' Ha Hb. unfold req_lt. by rewrite Ha, Hb.
  - intros a b Hab. rewrite !req_lt_false. lia.
  - intros q2 Hq. by apply pull_batch_priorities.
Qed.

(** The loop of l.129-132 draws at most [batch_size] requests, and none for
    a bound that is not positive. *)
Lemma pull_batch_bound :
  ∀ (bs : Z) (q : pq),
    ((pull_batch bs q).2 ≠ [] → Z.of_nat (length (pull_batch bs q).2) ≤ bs)
    ∧ Z.of_nat (length (pull_batch bs q).2) ≤ Z.max 0 bs
    ∧ (bs ≤ 0 → (pull_batch bs q).2 = []).
Proof.
  intros bs q.
  pose proof (pull_batch_length bs q) as Hlen.
  split_and!.
  - intros Hne. destruct (pull_batch bs q).2; [done |]. simpl in *. lia.
  - lia.
  - intros Hbs. apply length_zero_iff_nil. lia.
Qed.

(** ** Simulated cost *)

Lemma wrap_int_id (z : Z) : in_int_range z → wrap_int z = z.
Proof.
  unfold in_int_range, INT_MIN, INT_MAX, wrap_int. intros H.
  rewrite Z.mod_small; lia.
Qed.

Lemma wrap_int_range (z : Z) : in_int_range (wrap_int z).
Proof.
  unfold in_int_range, INT_MIN, INT_MAX, wrap_int.
  pose proof (Z.mod_pos_bound (z + 2 ^ 31) (2 ^ 32)). lia.
Qed.

Lemma wrap_int_add_l (a b : Z) : wrap_int (wrap_int a + b) = wrap_int (a + b).
Proof.
  unfold wrap_int. f_equal.
  replace ((a + 2 ^ 31) `mod` 2 ^ 32 - 2 ^ 31 + b + 2 ^ 31)
    with ((a + 2 ^ 31) `mod` 2 ^ 32 + b) by lia.
  rewrite Z.add_mod_idemp_l by lia. f_equal. lia.
Qed.

Lemma fold_tokens_wrap (batch : list InferenceRequest) :
  ∀ acc,
    fold_left (λ acc r, wrap_int (acc + token_count r)) batch (wrap_int acc)
    = wrap_int (acc + size_sum batch).
Proof.
  induction batch as [|r batch IH]; intros acc; simpl.
  - f_equal. lia.
  - rewrite wrap_int_add_l, IH. f_equal. lia.
Qed.

Lemma total_tokens_wrap (batch : list InferenceRequest) :
  total_tokens batch = wrap_int (size_sum batch).
Proof.
  unfold total_tokens. change 0 with (wrap_int 0) at 1.
  by rewrite fold_tokens_wrap.
Qed.

Lemma size_sum_app (b1 b2 : list InferenceRequest) :
  size_sum (b1 ++ b2) = size_sum b1 + size_sum b2.
Proof.
  induction b1 as [|r b1 IH]; simpl; [done |]. rewrite IH. lia.
Qed.

Lemma size_sum_nonneg (batch : list InferenceRequest) :
  Forall (λ r, 0 ≤ token_count r) batch → 0 ≤ size_sum batch.
Proof.
  induction 1 as [|r batch Hr _ IH]; simpl; lia.
Qed.

Lemma clamp_size_id (batch : list InferenceRequest) :
  Forall (λ r, 0 ≤ token_count r) batch → clamp_size <$> batch = batch.
Proof.
  induction 1 as [|r batch Hr _ IH]; [done |].
  rewrite fmap_cons, IH. destruct r as [i p t e]. unfold clamp_size.
  simpl in *. by rewrite Z.max_r.
Qed.

Lemma sim_ms_of_sum (batch : list InferenceRequest) :
  in_int_range (size_sum batch) →
  sim_ms batch = (inject_Z (size_sum batch) * 0.02)%Q.
Proof.
  intros H. unfold sim_ms. by rewrite total_tokens_wrap, wrap_int_id.
Qed.

(** C8. The simulated cost is [0.02] ms times the sum of the sizes of the
    batch (the sum as an [int]): batches with equal size sums cost the same,
    however the sizes are spread over the requests, and a worker that starts
    a batch sleeps for the cost of the batch whichever worker it is: the
    microseconds it sleeps are the cost times 1000 cut to an [int], which
    for a size sum that is not negative is 20 for each token, less at most
    one.  (Computed exactly nothing is lost; the bound leaves room for the
    microsecond that the rounding of [double] can take, see
    [Binary64.X24_binary64_sleep_within_one].) *)
Theorem C8_cost_is_linear_in_size_sum :
  (∀ batch, sim_ms batch = (inject_Z (wrap_int (size_sum batch)) * 0.02)%Q)
  ∧ (∀ batch, in_int_range (size_sum batch) →
       sim_ms batch = (inject_Z (size_sum batch) * 0.02)%Q)
  ∧ (∀ b1 b2, size_sum b1 = size_sum b2 →
       sim_ms b1 = sim_ms b2 ∧ sleep_us b1 = sleep_us b2)
  ∧ (∀ (S : System) (w : nat) (batch : list InferenceRequest),
       workers_ (sched S) !! w = Some (Batched batch) → batch ≠ [] →
       ∃ S', worker_step w S = Some S'
             ∧ workers_ (sched S') !! w = Some (Sleeping batch (sleep_us batch)))
  ∧ (∀ batch, sleep_us batch = static_cast_int (sim_ms batch * 1000)%Q)
  ∧ (∀ batch, 0 ≤ size_sum batch → 20 * size_sum batch ≤ INT_MAX →
       20 * size_sum batch - 1 ≤ sleep_us batch ≤ 20 * size_sum batch)
  ∧ (∀ batch, 1 ≤ size_sum batch → 20 * size_sum batch ≤ INT_MAX →
       0 < sleep_us batch).
Proof.
  assert (∀ batch, 0 ≤ size_sum batch → 20 * size_sum batch ≤ INT_MAX →
            sleep_us batch = 20 * size_sum batch) as Hsleep.
  { intros batch H0 Hmax. unfold sleep_us.
    rewrite sim_ms_of_sum
      by (unfold in_int_range, INT_MIN, INT_MAX in *; lia).
    assert (Qtrunc (inject_Z (size_sum batch) * 0.02 * 1000)
            = 20 * size_sum batch) as Htr.
    { unfold Qtrunc, Qmult, inject_Z. simpl.
      replace (size_sum batch * 2 * 1000) with (20 * size_sum batch * 100)
        by lia.
      by rewrite Z.quot_mul by lia. }
    unfold static_cast_int. rewrite Htr.
    rewrite bool_decide_eq_true_2; [done |].
    unfold INT_MIN, INT_MAX in *. lia. }
  split_and!.
  - intros batch. unfold sim_ms. by rewrite total_tokens_wrap.
  - apply sim_ms_of_sum.
  - intros b1 b2 Hsum.
    assert (sim_ms b1 = sim_ms b2) as Hms.
    { unfold sim_ms. by rewrite !total_tokens_wrap, Hsum. }
    split; [done |]. unfold sleep_us. by rewrite Hms.
  - intros S w batch Hw Hne. unfold worker_step. rewrite Hw.
    rewrite bool_decide_eq_false_2 by done.
    eexists. split; [done |]. simpl.
    apply list_lookup_insert_eq. by eapply lookup_lt_Some.
  - done.
  - intros batch H0 Hmax. rewrite Hsleep by done. lia.
  - intros batch H1 Hmax. rewrite Hsleep by lia. lia.
Qed.

(** C7 (amended). The sizes are summed as they are: a request of size 0
    adds nothing to the cost, a batch without negative sizes costs what its
    clamped copy costs and never less than 0, and a negative size is not
    replaced by 0 but lowers the cost. *)
Theorem C7_cost_sums_raw_sizes :
  (∀ batch, total_tokens batch = wrap_int (size_sum batch))
  ∧ (∀ b1 r b2, token_count r = 0 →
       sim_ms (b1 ++ r :: b2) = sim_ms (b1 ++ b2)
       ∧ sleep_us (b1 ++ r :: b2) = sleep_us (b1 ++ b2))
  ∧ (∀ batch, Forall (λ r, 0 ≤ token_count r) batch →
       sim_ms (clamp_size <$> batch) = sim_ms batch
       ∧ (in_int_range (size_sum batch) → (0 <= sim_ms batch)%Q))
  ∧ (∀ r batch, token_count r < 0 →
       in_int_range (size_sum batch) → in_int_range (size_sum (r :: batch)) →
       (sim_ms (r :: batch) < sim_ms batch)%Q).
Proof.
  split_and!.
  - apply total_tokens_wrap.
  - intros b1 r b2 Hr.
    assert (sim_ms (b1 ++ r :: b2) = sim_ms (b1 ++ b2)) as Hms.
    { unfold sim_ms. rewrite !total_tokens_wrap, !size_sum_app. simpl.
      by rewrite Hr. }
    split; [done |]. unfold sleep_us. by rewrite Hms.
  - intros batch Hall. split; [by rewrite clamp_size_id |].
    intros Hr. rewrite sim_ms_of_sum by done.
    apply Qmult_le_0_compat; [| done].
    change 0%Q with (inject_Z 0). rewrite <- Zle_Qle.
    by apply size_sum_nonneg.
  - intros r batch Hneg Hb Hrb. rewrite !sim_ms_of_sum by done.
    apply Qmult_lt_compat_r; [done |].
    rewrite <- Zlt_Qlt. simpl. lia.
Qed.

(** ** Statistics *)

Lemma Qlt_bool_true (x y : Q) : Qlt_bool x y = true ↔ (x < y)%Q.
Proof.
  unfold Qlt_bool. rewrite negb_true_iff, <- not_true_iff_false, Qle_bool_iff.
  split; [apply Qnot_le_lt | apply Qlt_not_le].
Qed.

Lemma Qlt_bool_false (x y : Q) : Qlt_bool x y = false ↔ (y <= x)%Q.
Proof.
  unfold Qlt_bool. by rewrite negb_false_iff, Qle_bool_iff.
Qed.

Lemma sort_insert_perm (x : Q) (l : list Q) : sort_insert x l ≡ₚ x :: l.
Proof.
  induction l as [|y l IH]; simpl; [done |].
  destruct (Qlt_bool y x); [| done].
  rewrite IH. apply perm_swap.
Qed.

Lemma std_sort_perm (l : list Q) : std_sort l ≡ₚ l.
Proof.
  induction l as [|x l IH]; simpl; [done |].
  by rewrite sort_insert_perm, IH.
Qed.

Lemma sort_insert_sorted (x : Q) (l : list Q) :
  StronglySorted Qle l → StronglySorted Qle (sort_insert x l).
Proof.
  induction 1 as [|y l Hs IH Hall]; simpl.
  - repeat constructor.
  - destruct (Qlt_bool y x) eqn:Hc.
    + apply Qlt_bool_true in Hc. constructor; [done |].
      rewrite sort_insert_perm. constructor; [| done].
      by apply Qlt_le_weak.
    + apply Qlt_bool_false in Hc. constructor; [by constructor |].
      constructor; [done |].
      eapply Forall_impl; [exact Hall |].
      intros z Hz. by eapply Qle_trans.
Qed.

Lemma std_sort_sorted (l : list Q) : StronglySorted Qle (std_sort l).
Proof.
  induction l as [|x l IH]; simpl; [constructor |].
  by apply sort_insert_sorted.
Qed.

Lemma Qtrunc_nonneg (x : Q) : (0 <= x)%Q → Qtrunc x = Qfloor x.
Proof.
  destruct x as [n d]. unfold Qle, Qtrunc, Qfloor. simpl. intros H.
  apply Z.quot_div_nonneg; lia.
Qed.

Lemma rank_index_bounds (p : Q) (n : Z) :
  (0 <= p)%Q → (p < 1)%Q → 0 < n →
  0 ≤ Qfloor (p * inject_Z n) ≤ n - 1.
Proof.
  intros H0 H1 Hn.
  assert (0 <= p * inject_Z n)%Q as Hpos.
  { apply Qmult_le_0_compat; [done |].
    change 0%Q with (inject_Z 0). rewrite <- Zle_Qle. lia. }
  assert (p * inject_Z n < inject_Z n)%Q as Hlt.
  { rewrite <- (Qmult_1_l (inject_Z n)) at 2.
    apply Qmult_lt_compat_r; [| done].
    change 0%Q with (inject_Z 0). rewrite <- Zlt_Qlt. lia. }
  split.
  - change 0 with (Qfloor 0). by apply Qfloor_resp_le.
  - assert (inject_Z (Qfloor (p * inject_Z n)) < inject_Z n)%Q as H.
    { eapply Qle_lt_trans; [apply Qfloor_le | done]. }
    rewrite <- Zlt_Qlt in H. lia.
Qed.

(** C3. For a non-empty sample set and a rank [p] in [[0,1)], the
    percentile that is reported is the sample at index [floor (p * N)] of the
    samples sorted in ascending order, an index of the sequence (so the clamp
    to [N - 1] leaves it as it is); [print_stats] reports [pct] at 0.50, 0.95
    and 0.99 of the sorted latencies. *)
Theorem C3_percentile_is_index_based :
  ∀ (lat : list Q) (p : Q),
    lat ≠ [] → Z.of_nat (length lat) < 2 ^ 64 → (0 <= p)%Q → (p < 1)%Q →
    std_sort lat ≡ₚ lat
    ∧ StronglySorted Qle (std_sort lat)
    ∧ 0 ≤ Qfloor (p * inject_Z (Z.of_nat (length lat))) ≤ Z.of_nat (length lat) - 1
    ∧ pct (std_sort lat) p
      = nth (Z.to_nat (Qfloor (p * inject_Z (Z.of_nat (length lat)))))
          (std_sort lat) 0%Q
    ∧ (∀ now s, latencies_ s = lat →
         st_p50 (print_stats now s) = pct (std_sort lat) 0.50
         ∧ st_p95 (print_stats now s) = pct (std_sort lat) 0.95
         ∧ st_p99 (print_stats now s) = pct (std_sort lat) 0.99).
Proof.
  intros lat p Hne Hsize H0 H1.
  assert (0 < Z.of_nat (length lat)) as Hpos.
  { destruct lat; [done | simpl; lia]. }
  pose proof (rank_index_bounds p _ H0 H1 Hpos) as Hidx.
  split_and!.
  - apply std_sort_perm.
  - apply std_sort_sorted.
  - lia.
  - lia.
  - unfold pct. rewrite bool_decide_eq_false_2.
    2:{ intros He. apply Hne. apply Permutation_nil_r. rewrite <- He.
        symmetry. apply std_sort_perm. }
    rewrite (Permutation_length (std_sort_perm lat)).
    unfold static_cast_size_t. rewrite Qtrunc_nonneg.
    2:{ apply Qmult_le_0_compat; [done |].
        change 0%Q with (inject_Z 0). rewrite <- Zle_Qle. lia. }
    rewrite Z.mod_small by lia. by rewrite Z.min_l by lia.
  - intros now s <-. done.
Qed.

(** C10. With no latency sample recorded every percentile of the report is
    0, and with a processed count of 0 the throughput of the report is 0: the
    division is not evaluated. *)
Theorem C10_empty_report :
  ∀ (now : Q) (s : InferenceScheduler),
    (latencies_ s = [] →
       st_p50 (print_stats now s) = 0%Q
       ∧ st_p95 (print_stats now s) = 0%Q
       ∧ st_p99 (print_stats now s) = 0%Q)
    ∧ (total_processed_ s = 0 → st_throughput (print_stats now s) = 0%Q)
    ∧ (∀ p, pct (std_sort []) p = 0%Q).
Proof.
  intros now s. split_and!.
  - intros He. unfold print_stats. simpl. by rewrite He.
  - intros He. unfold print_stats. simpl. rewrite He. done.
  - done.
Qed.

(** ** Construction and enqueue *)

(** C6 (amended). [enqueue] takes a request built by its caller and assigns
    no identifier: it overwrites the enqueue timestamp with the current time,
    keeps the identifier, priority and size of the caller, adds the request
    to the queue and changes nothing else; it returns no value.  It waits for
    the queue mutex only: whatever the length of the queue, the call is
    enabled as soon as the mutex is free. *)
Theorem C6_enqueue_stamps_and_pushes :
  ∀ (now : Q) (req : InferenceRequest) (s : InferenceScheduler),
    pq_elements (queue_ (enqueue now req s))
      ≡ₚ stamp now req :: pq_elements (queue_ s)
    ∧ enqueue_time_ms (stamp now req) = now
    ∧ id (stamp now req) = id req
    ∧ priority (stamp now req) = priority req
    ∧ token_count (stamp now req) = token_count req
    ∧ set_queue_ (queue_ s) (enqueue now req s) = s
    ∧ (∀ S, sched S = s → main_pc S = Running → mu_ s = None →
         step (Enqueue req) S
         = Some (mkSystem (enqueue (now_ms S) req s) (clock S) Running
                   (submitted S ++ [stamp (now_ms S) req]) (recorded S))).
Proof.
  intros now req s. split_and!; try done.
  - apply pq_push_spec.
  - by destruct s.
  - intros S <- Hm Hmu. unfold step. by rewrite Hm, Hmu.
Qed.

(** ** Interleavings *)

Lemma flat_map_insert {B} (f : worker_pc → list B) (ws : list worker_pc) :
  ∀ w pc pc',
    ws !! w = Some pc →
    flat_map f (<[w:=pc']> ws) ++ f pc ≡ₚ flat_map f ws ++ f pc'.
Proof.
  induction ws as [|a ws IH]; intros [|w] pc pc' Hw; simplify_eq/=.
  - rewrite (Permutation_app_comm (f pc' ++ flat_map f ws) (f pc)).
    rewrite <- !app_assoc. f_equiv. apply Permutation_app_comm.
  - rewrite <- !app_assoc. f_equiv. by apply IH.
Qed.

Lemma sum_uncounted_insert (ws : list worker_pc) :
  ∀ w pc pc',
    ws !! w = Some pc →
    sum_uncounted (<[w:=pc']> ws) = sum_uncounted ws - uncounted pc + uncounted pc'.
Proof.
  induction ws as [|a ws IH]; intros [|w] pc pc' Hw; simplify_eq/=.
  - lia.
  - rewrite (IH w pc pc' Hw). lia.
Qed.

Lemma sum_rank_insert (ws : list worker_pc) :
  ∀ w pc pc',
    ws !! w = Some pc →
    (sum_list_with rank (<[w:=pc']> ws) + rank pc
     = sum_list_with rank ws + rank pc')%nat.
Proof.
  induction ws as [|a ws IH]; intros [|w] pc pc' Hw; simplify_eq/=.
  - lia.
  - pose proof (IH w pc pc' Hw). lia.
Qed.

Lemma lookup_set_worker (ws : list worker_pc) (w w' : nat) (pc pc' : worker_pc) :
  ws !! w = Some pc →
  <[w:=pc']> ws !! w' = if decide (w' = w) then Some pc' else ws !! w'.
Proof.
  intros Hw. case_decide as Hd.
  - subst. apply list_lookup_insert_eq. by eapply lookup_lt_Some.
  - by apply list_lookup_insert_ne.
Qed.

(** A worker replaces its own entry of [workers_]; what it changes besides
    is constrained by where it was and where it goes. *)
Lemma worker_transition_invariant (nw bs : Z) (S : System) (w : nat)
    (pc pc' : worker_pc) (s' : InferenceScheduler)
    (rec' : list (Q * list InferenceRequest)) :
  invariant nw bs S →
  workers_ (sched S) !! w = Some pc →
  pc ≠ Exited →
  num_workers_ s' = num_workers_ (sched S) →
  batch_size_ s' = batch_size_ (sched S) →
  shutdown_ s' = shutdown_ (sched S) →
  workers_ s' = workers_ (sched S) →
  (mu_ s' = Some w ↔ pc' = Draining) →
  (∀ w0, w0 ≠ w → mu_ s' = Some w0 ↔ mu_ (sched S) = Some w0) →
  (lat_mu_ s' = Some w ↔ ∃ b t, pc' = Recording b t) →
  (∀ w0, w0 ≠ w → lat_mu_ s' = Some w0 ↔ lat_mu_ (sched S) = Some w0) →
  (pc' = Exited → shutdown_ (sched S) = true ∧ pq_elements (queue_ s') = []) →
  (pq_elements (queue_ (sched S)) = [] → pq_elements (queue_ s') = []) →
  pq_elements (queue_ (sched S)) ++ pending pc ++ flat_map snd (recorded S)
    ≡ₚ pq_elements (queue_ s') ++ pending pc' ++ flat_map snd rec' →
  latencies_ s' = flat_map (λ tb, batch_latencies tb.1 tb.2) rec' →
  total_processed_ s'
    = wrap_int (Z.of_nat (length (flat_map snd rec'))
                - (sum_uncounted (workers_ (sched S)) - uncounted pc + uncounted pc')) →
  invariant nw bs
    (mkSystem (set_worker w pc' s') (clock S) (main_pc S) (submitted S) rec').
Proof.
  intros [Hnw Hbs Hth Hmu Hlat Hrun Hstop Hex Hjoin Hcons Hlats Hcount]
    Hw Hpc Enw Ebs Esd Ews Hmu1 Hmu2 Hlat1 Hlat2 Hex1 Hex2 Hperm Elat Ecount.
  constructor; simpl; rewrite ?Ews.
  - congruence.
  - congruence.
  - by rewrite length_insert.
  - intros w0. rewrite (lookup_set_worker _ _ _ _ _ Hw). case_decide as Hd.
    + subst w0. rewrite Hmu1. split; [by intros -> | by intros [= ->]].
    + by rewrite Hmu2, Hmu.
  - intros w0. rewrite (lookup_set_worker _ _ _ _ _ Hw). case_decide as Hd.
    + subst w0. rewrite Hlat1. split.
      * intros (b & t & ->). eauto.
      * intros (b & t & [= ->]). eauto.
    + by rewrite Hlat2, Hlat.
  - by rewrite Esd.
  - by rewrite Esd.
  - intros w0. rewrite (lookup_set_worker _ _ _ _ _ Hw). case_decide as Hd.
    + intros [= ->]. rewrite Esd. by apply Hex1.
    + intros Hw0. destruct (Hex w0 Hw0) as [Hs Hq]. rewrite Esd. auto.
  - intros Hm. specialize (Hjoin Hm).
    rewrite Forall_lookup in Hjoin. by specialize (Hjoin w pc Hw).
  - apply (Permutation_app_inv_r (pending pc)).
    pose proof (flat_map_insert pending _ w pc pc' Hw) as Hfm.
    rewrite Hcons.
    trans ((pq_elements (queue_ (sched S)) ++ pending pc ++ flat_map snd (recorded S))
           ++ flat_map pending (workers_ (sched S))); [solve_Permutation |].
    rewrite Hperm.
    trans (pq_elements (queue_ s') ++ flat_map snd rec'
           ++ (flat_map pending (workers_ (sched S)) ++ pending pc'));
      [solve_Permutation |].
    rewrite <- Hfm. solve_Permutation.
  - done.
  - by rewrite (sum_uncounted_insert _ _ _ _ Hw).
Qed.

Lemma mu_not_held (s : InferenceScheduler) (w : nat) (pc pc' : worker_pc) :
  (∀ w0, mu_ s = Some w0 ↔ workers_ s !! w0 = Some Draining) →
  workers_ s !! w = Some pc → pc ≠ Draining → pc' ≠ Draining →
  mu_ s = Some w ↔ pc' = Draining.
Proof.
  intros Hmu Hw Hpc Hpc'. split; [| done].
  intros Hm%Hmu. congruence.
Qed.

Lemma lat_mu_not_held (s : InferenceScheduler) (w : nat) (pc pc' : worker_pc) :
  (∀ w0, lat_mu_ s = Some w0 ↔ ∃ b t, workers_ s !! w0 = Some (Recording b t)) →
  workers_ s !! w = Some pc →
  (∀ b t, pc ≠ Recording b t) → (∀ b t, pc' ≠ Recording b t) →
  lat_mu_ s = Some w ↔ ∃ b t, pc' = Recording b t.
Proof.
  intros Hlat Hw Hpc Hpc'. split.
  - intros (b & t & Hb)%Hlat. rewrite Hw in Hb. injection Hb as ->.
    by destruct (Hpc b t).
  - intros (b & t & ->). by destruct (Hpc' b t).
Qed.

Lemma is_free_true (m : option nat) : is_free m = true ↔ m = None.
Proof. by destruct m. Qed.

Lemma all_exited (ws : list worker_pc) :
  forallb is_exited ws = true ↔ Forall (λ pc, pc = Exited) ws.
Proof.
  induction ws as [|pc ws IH]; simpl.
  - split; [constructor | done].
  - rewrite andb_true_iff, IH, Forall_cons. destruct pc; simpl; intuition congruence.
Qed.

Lemma worker_step_invariant (nw bs : Z) (w : nat) (S S' : System) :
  invariant nw bs S → worker_step w S = Some S' → invariant nw bs S'.
Proof.
  intros Hinv Hstep. pose proof Hinv as Hinv0.
  destruct Hinv0 as [Hnw Hbs Hth Hmu Hlat Hrun Hstop Hex Hjoin Hcons Hlats Hcount].
  unfold worker_step in Hstep.
  destruct (workers_ (sched S) !! w) as [pc|] eqn:Hw; [| done].
  destruct pc as [| | |batch|batch us|batch t|batch t|batch|].
  - (* Starting *)
    destruct (bool_decide _ || negb _) eqn:Hneg; simplify_eq.
    + constructor; simpl; try done. by intros [|].
    + apply (worker_transition_invariant _ _ S w Starting Waiting
               (sched S) (recorded S)); simpl; try done.
      * by apply (mu_not_held _ _ Starting).
      * by apply (lat_mu_not_held _ _ Starting).
      * rewrite Hcount. f_equal. lia.
  - (* Waiting *)
    destruct (is_free (mu_ (sched S))) eqn:Hfree; simpl in Hstep; [| done].
    apply is_free_true in Hfree.
    destruct (negb (pq_empty (queue_ (sched S))) || shutdown_ (sched S));
      simplify_eq.
    apply (worker_transition_invariant _ _ S w Waiting Draining
             (set_mu_ (Some w) (sched S)) (recorded S)); simpl; try done.
    + intros w0 Hne. rewrite Hfree. split; congruence.
    + by apply (lat_mu_not_held _ _ Waiting).
    + rewrite Hcount. f_equal. lia.
  - (* Draining *)
    assert (mu_ (sched S) = Some w) as Hheld by (by apply Hmu).
    destruct (shutdown_ (sched S) && pq_empty (queue_ (sched S))) eqn:Hc.
    + apply andb_true_iff in Hc as [Hsd He]. apply pq_empty_spec in He.
      simplify_eq.
      apply (worker_transition_invariant _ _ S w Draining Exited
               (set_mu_ None (sched S)) (recorded S)); simpl; try done.
      * intros w0 Hne. rewrite Hheld. split; congruence.
      * by apply (lat_mu_not_held _ _ Draining).
      * rewrite Hcount. f_equal. lia.
    + destruct (pull_batch (batch_size_ (sched S)) (queue_ (sched S)))
        as [queue' batch] eqn:Hpull.
      simplify_eq.
      pose proof (pull_batch_spec (batch_size_ (sched S)) (queue_ (sched S)))
        as (Hperm & _).
      rewrite Hpull in Hperm. simpl in Hperm.
      apply (worker_transition_invariant _ _ S w Draining (Batched batch)
               (set_mu_ None (set_queue_ queue' (sched S))) (recorded S));
        simpl; try done.
      * intros w0 Hne. rewrite Hheld. split; congruence.
      * by apply (lat_mu_not_held _ _ Draining).
      * intros He. rewrite He in Hperm. symmetry in Hperm.
        apply Permutation_nil_r in Hperm. by apply app_eq_nil in Hperm as [_ ?].
      * rewrite Hperm. solve_Permutation.
      * rewrite Hcount. f_equal. lia.
  - (* Batched *)
    case_bool_decide as Hb; simplify_eq.
    + apply (worker_transition_invariant _ _ S w (Batched []) Waiting
               (sched S) (recorded S)); simpl; try done.
      * by apply (mu_not_held _ _ (Batched [])).
      * by apply (lat_mu_not_held _ _ (Batched [])).
      * rewrite Hcount. f_equal. lia.
    + apply (worker_transition_invariant _ _ S w (Batched batch)
               (Sleeping batch (sleep_us batch)) (sched S) (recorded S));
        simpl; try done.
      * by apply (mu_not_held _ _ (Batched batch)).
      * by apply (lat_mu_not_held _ _ (Batched batch)).
      * rewrite Hcount. f_equal. lia.
  - (* Sleeping *)
    simplify_eq.
    apply (worker_transition_invariant _ _ S w (Sleeping batch us)
             (Woken batch (now_ms S)) (sched S) (recorded S)); simpl; try done.
    + by apply (mu_not_held _ _ (Sleeping batch us)).
    + by apply (lat_mu_not_held _ _ (Sleeping batch us)).
    + rewrite Hcount. f_equal. lia.
  - (* Woken *)
    destruct (is_free (lat_mu_ (sched S))) eqn:Hfree; [| done].
    apply is_free_true in Hfree. simplify_eq.
    apply (worker_transition_invariant _ _ S w (Woken batch t)
             (Recording batch t) (set_lat_mu_ (Some w) (sched S)) (recorded S));
      simpl; try done.
    + by apply (mu_not_held _ _ (Woken batch t)).
    + split; eauto.
    + intros w0 Hne. rewrite Hfree. split; congruence.
    + rewrite Hcount. f_equal. lia.
  - (* Recording *)
    assert (lat_mu_ (sched S) = Some w) as Hheld by (apply Hlat; eauto).
    simplify_eq.
    apply (worker_transition_invariant _ _ S w (Recording batch t)
             (Counting batch)
             (set_lat_mu_ None
                (set_latencies_
                   (latencies_ (sched S) ++ batch_latencies t batch) (sched S)))
             (recorded S ++ [(t, batch)])); simpl; try done.
    + by apply (mu_not_held _ _ (Recording batch t)).
    + split; [done | by intros (? & ? & ?)].
    + intros w0 Hne. rewrite Hheld. split; congruence.
    + rewrite flat_map_app. simpl. solve_Permutation.
    + rewrite flat_map_app, Hlats. simpl. by rewrite app_nil_r.
    + rewrite Hcount. f_equal.
      rewrite flat_map_app, !length_app. simpl. rewrite app_nil_r. lia.
  - (* Counting *)
    simplify_eq.
    apply (worker_transition_invariant _ _ S w (Counting batch) Waiting
             (set_total_processed_
                (wrap_int (total_processed_ (sched S) + Z.of_nat (length batch)))
                (sched S))
             (recorded S)); simpl; try done.
    + by apply (mu_not_held _ _ (Counting batch)).
    + by apply (lat_mu_not_held _ _ (Counting batch)).
    + rewrite Hcount, wrap_int_add_l. f_equal. lia.
  - (* Exited *)
    done.
Qed.

Lemma clock_invariant (nw bs : Z) (S : System) (c : Q) :
  invariant nw bs S →
  invariant nw bs (mkSystem (sched S) c (main_pc S) (submitted S) (recorded S)).
Proof. by destruct 1. Qed.

Lemma step_invariant (nw bs : Z) (l : label) (S S' : System) :
  invariant nw bs S → step l S = Some S' → invariant nw bs S'.
Proof.
  intros Hinv Hstep. destruct l as [d|req| | |w]; simpl in Hstep.
  - (* Tick *)
    destruct (main_pc S) eqn:Hm; try done.
    all: destruct (Qle_bool 0 d); simplify_eq.
    all: rewrite <- Hm; by apply clock_invariant.
  - (* Enqueue *)
    destruct (main_pc S) eqn:Hm; try done.
    destruct (is_free (mu_ (sched S))) eqn:Hfree; simplify_eq.
    destruct Hinv as [Hnw Hbs Hth Hmu Hlat Hrun Hstop Hex Hjoin Hcons Hlats Hcount].
    assert (shutdown_ (sched S) = false) as Hsd by (by apply Hrun).
    constructor; simpl; try done.
    + by intros [|].
    + intros w Hw. destruct (Hex w Hw) as [Hsd' _]. congruence.
    + rewrite Hcons, pq_push_spec. solve_Permutation.
  - (* Shutdown *)
    destruct (main_pc S) eqn:Hm; try done.
    destruct (is_free (mu_ (sched S))) eqn:Hfree; simplify_eq.
    destruct Hinv as [Hnw Hbs Hth Hmu Hlat Hrun Hstop Hex Hjoin Hcons Hlats Hcount].
    constructor; simpl; try done.
    intros w Hw. by destruct (Hex w Hw) as [_ Hq].
  - (* Join *)
    destruct (main_pc S) eqn:Hm; try done.
    destruct (forallb is_exited (workers_ (sched S))) eqn:Hall; simplify_eq.
    destruct Hinv as [Hnw Hbs Hth Hmu Hlat Hrun Hstop Hex Hjoin Hcons Hlats Hcount].
    constructor; simpl; try done.
    + intros _. apply Hstop. by left.
    + intros _. by apply all_exited.
  - destruct (main_pc S) eqn:Hm; try done.
    all: by apply (worker_step_invariant nw bs w S).
Qed.

Lemma pending_replicate_starting (n : nat) :
  flat_map pending (replicate n Starting) = [].
Proof. induction n as [|n IH]; simpl; done. Qed.

Lemma uncounted_replicate_starting (n : nat) :
  sum_uncounted (replicate n Starting) = 0.
Proof. induction n as [|n IH]; simpl; done. Qed.

Lemma boot_invariant (nw bs : Z) (t0 : Q) : invariant nw bs (boot nw bs t0).
Proof.
  constructor; simpl; try done.
  - by rewrite length_replicate.
  - intros w. split; [done |]. intros [[=] _]%lookup_replicate.
  - intros w. split; [done |]. intros (b & t & [[=] _]%lookup_replicate).
  - by intros [|].
  - intros w [[=] _]%lookup_replicate.
  - by rewrite pq_new_elements, pending_replicate_starting.
  - by rewrite uncounted_replicate_starting.
Qed.

Lemma run_invariant (nw bs : Z) (ls : list label) :
  ∀ S S', invariant nw bs S → run ls S = Some S' → invariant nw bs S'.
Proof.
  induction ls as [|l ls IH]; intros S S' Hinv Hrun; simpl in Hrun.
  - by simplify_eq.
  - destruct (step l S) as [S1|] eqn:Hstep; [| done].
    eapply IH; [| exact Hrun]. by eapply step_invariant.
Qed.

(** *** Runs *)

Lemma worker_step_history (w : nat) (S S' : System) :
  worker_step w S = Some S' →
  submitted S' = submitted S
  ∧ (main_pc S' = main_pc S ∨ main_pc S' = Terminated)
  ∧ shutdown_ (sched S') = shutdown_ (sched S)
  ∧ batch_size_ (sched S') = batch_size_ (sched S).
Proof.
  unfold worker_step. intros Hstep.
  repeat (case_match; simplify_eq/=; try done).
  all: split_and!; try done; try (by left).
  by right.
Qed.

Lemma run_submitted (ls : list label) :
  ∀ S S', run ls S = Some S' →
    ∃ new, submitted S' = submitted S ++ new ∧ Forall2 stamped new (enqueued ls).
Proof.
  induction ls as [|l ls IH]; intros S S' Hrun; simpl in Hrun.
  - simplify_eq. exists []. by rewrite app_nil_r.
  - destruct (step l S) as [S1|] eqn:Hstep; [| done].
    destruct (IH S1 S' Hrun) as (new & Hsub & Hnew).
    destruct l as [d|req| | |w]; simpl in Hstep.
    + destruct (main_pc S); try done.
      all: destruct (Qle_bool 0 d); simplify_eq/=; eauto.
    + destruct (main_pc S); try done.
      destruct (is_free (mu_ (sched S))); simplify_eq/=.
      exists (stamp (now_ms S) req :: new). split.
      * by rewrite Hsub, <- app_assoc.
      * constructor; [by eexists | done].
    + destruct (main_pc S); try done.
      destruct (is_free (mu_ (sched S))); simplify_eq/=. eauto.
    + destruct (main_pc S); try done.
      destruct (forallb is_exited (workers_ (sched S))); simplify_eq/=. eauto.
    + destruct (main_pc S); try done.
      all: apply worker_step_history in Hstep as (Hs & _); rewrite Hs in Hsub.
      all: simpl; eauto.
Qed.

Lemma latencies_length (rec : list (Q * list InferenceRequest)) :
  length (flat_map (λ tb, batch_latencies tb.1 tb.2) rec)
  = length (flat_map snd rec).
Proof.
  induction rec as [|[t b] rec IH]; simpl; [done |].
  unfold batch_latencies at 1. by rewrite !length_app, length_map, IH.
Qed.

Lemma exited_nothing_pending (ws : list worker_pc) :
  Forall (λ pc, pc = Exited) ws →
  flat_map pending ws = [] ∧ sum_uncounted ws = 0.
Proof.
  induction 1 as [|pc ws -> _ [IH1 IH2]]; simpl; [done |].
  by rewrite IH1, IH2.
Qed.

Lemma joined_state (nw bs : Z) (S : System) :
  invariant nw bs S → 1 ≤ nw → main_pc S = Joined →
  pq_elements (queue_ (sched S)) = []
  ∧ submitted S ≡ₚ flat_map snd (recorded S)
  ∧ length (latencies_ (sched S)) = length (submitted S)
  ∧ total_processed_ (sched S) = wrap_int (Z.of_nat (length (submitted S))).
Proof.
  intros [Hnw Hbs Hth Hmu Hlat Hrun Hstop Hex Hjoin Hcons Hlats Hcount] Hpos Hm.
  specialize (Hjoin Hm).
  destruct (exited_nothing_pending _ Hjoin) as [Hpend Hunc].
  assert (pq_elements (queue_ (sched S)) = []) as Hq.
  { destruct (workers_ (sched S)) as [|pc ws] eqn:Hws.
    - simpl in Hth. lia.
    - apply Forall_cons in Hjoin as [-> _]. by apply (Hex 0%nat). }
  rewrite Hq, Hpend in Hcons. simpl in Hcons.
  split_and!; try done.
  - by rewrite Hlats, latencies_length, Hcons.
  - rewrite Hcount, Hunc, Hcons. f_equal. lia.
Qed.

(** *** Progress *)

Lemma some_not_exited (ws : list worker_pc) :
  forallb is_exited ws = false →
  ∃ w pc, ws !! w = Some pc ∧ pc ≠ Exited.
Proof.
  induction ws as [|pc ws IH]; simpl; [done |].
  destruct (is_exited pc) eqn:He; simpl.
  - intros (w & pc' & Hw & Hpc)%IH. by exists (Datatypes.S w), pc'.
  - intros _. exists 0%nat, pc. split; [done |]. by intros ->.
Qed.

(** A worker inside the scope of [lk] leaves it with its next action. *)
Lemma draining_releases (w : nat) (S : System) :
  workers_ (sched S) !! w = Some Draining →
  ∃ S', worker_step w S = Some S' ∧ mu_ (sched S') = None.
Proof.
  intros Hw. unfold worker_step. rewrite Hw.
  destruct (shutdown_ (sched S) && pq_empty (queue_ (sched S))).
  - by eexists.
  - destruct (pull_batch _ _) as [queue' batch]. by eexists.
Qed.

(** A worker inside the scope of the [lat_mu_] guard leaves it with its next
    action. *)
Lemma recording_releases (w : nat) (S : System) (b : list InferenceRequest) (t : Q) :
  workers_ (sched S) !! w = Some (Recording b t) →
  ∃ S', worker_step w S = Some S' ∧ lat_mu_ (sched S') = None.
Proof.
  intros Hw. unfold worker_step. rewrite Hw. by eexists.
Qed.

Lemma worker_enabled (nw bs : Z) (S : System) (w : nat) (pc : worker_pc) :
  invariant nw bs S →
  workers_ (sched S) !! w = Some pc → pc ≠ Exited →
  mu_ (sched S) = None → lat_mu_ (sched S) = None →
  shutdown_ (sched S) = true →
  is_Some (worker_step w S).
Proof.
  intros Hinv Hw Hpc Hmu Hlat Hsd. unfold worker_step. rewrite Hw.
  destruct pc as [| | |batch|batch us|batch t|batch t|batch|]; try done.
  - by destruct (bool_decide _ || negb _).
  - by rewrite Hmu, Hsd, orb_true_r.
  - destruct (shutdown_ (sched S) && pq_empty (queue_ (sched S))); [done |].
    by destruct (pull_batch _ _).
  - by case_bool_decide.
  - by rewrite Hlat.
Qed.

Lemma work_step (w : nat) (S : System) :
  main_pc S ≠ Terminated → step (Work w) S = worker_step w S.
Proof. intros Hm. simpl. by destruct (main_pc S). Qed.

Lemma progress (nw bs : Z) (S : System) :
  invariant nw bs S → main_pc S ≠ Joined → main_pc S ≠ Terminated →
  ∃ l, is_tick l = false ∧ is_Some (step l S).
Proof.
  intros Hinv Hm Ht.
  destruct (mu_ (sched S)) as [w|] eqn:Hmu.
  { apply (inv_mu _ _ _ Hinv) in Hmu.
    destruct (draining_releases w S Hmu) as (S' & HS' & _).
    exists (Work w). split; [done |]. by rewrite work_step, HS'. }
  destruct (lat_mu_ (sched S)) as [w|] eqn:Hlat.
  { apply (inv_lat_mu _ _ _ Hinv) in Hlat as (b & t & Hw).
    destruct (recording_releases w S b t Hw) as (S' & HS' & _).
    exists (Work w). split; [done |]. by rewrite work_step, HS'. }
  destruct (main_pc S) eqn:Hpc; [| | done | done].
  - exists (Enqueue (mkRequest 0 0 0 0)). simpl. by rewrite Hpc, Hmu.
  - assert (shutdown_ (sched S) = true) as Hsd
      by (apply (inv_stopping _ _ _ Hinv); by left).
    destruct (forallb is_exited (workers_ (sched S))) eqn:Hall.
    + exists Join. simpl. by rewrite Hpc, Hall.
    + apply some_not_exited in Hall as (w & pc & Hw & Hne).
      exists (Work w). split; [done |]. rewrite work_step by congruence.
      by apply (worker_enabled nw bs S w pc).
Qed.

(** *** Termination of the drain *)

Lemma worker_step_measure (w : nat) (S S' : System) :
  worker_step w S = Some S' →
  main_pc S = Joining →
  shutdown_ (sched S) = true → 1 ≤ batch_size_ (sched S) →
  (measure S' < measure S)%nat.
Proof.
  unfold worker_step, measure. intros Hstep Hm Hsd Hbs.
  destruct (workers_ (sched S) !! w) as [pc|] eqn:Hw; [| done].
  destruct pc as [| | |batch|batch us|batch t|batch t|batch|].
  - destruct (bool_decide _ || negb _); simplify_eq/=;
      [rewrite Hm; lia |].
    pose proof (sum_rank_insert _ w _ Waiting Hw). simpl in *. rewrite ?Hm. simpl. lia.
  - destruct (is_free (mu_ (sched S)) && _); simplify_eq/=.
    pose proof (sum_rank_insert _ w _ Draining Hw). simpl in *. rewrite ?Hm. simpl. lia.
  - rewrite Hsd in Hstep. simpl in Hstep.
    destruct (pq_empty (queue_ (sched S))) eqn:He.
    + simplify_eq/=.
      pose proof (sum_rank_insert _ w _ Exited Hw). simpl in *. rewrite ?Hm. simpl. lia.
    + pose proof (pull_batch_spec (batch_size_ (sched S)) (queue_ (sched S)))
        as (Hperm & _).
      pose proof (pull_batch_length (batch_size_ (sched S)) (queue_ (sched S)))
        as Hlen.
      apply pq_nonempty_elements in He.
      destruct (pull_batch _ _) as [queue' batch]. simplify_eq/=.
      apply Permutation_length in Hperm. rewrite length_app in Hperm.
      pose proof (sum_rank_insert _ w _ (Batched batch) Hw).
      destruct (pq_elements (queue_ (sched S))); [done |].
      simpl in *. rewrite ?Hm. simpl. lia.
  - case_bool_decide; simplify_eq/=.
    + pose proof (sum_rank_insert _ w _ Waiting Hw). simpl in *. rewrite ?Hm. simpl. lia.
    + pose proof (sum_rank_insert _ w _ (Sleeping batch (sleep_us batch)) Hw).
      simpl in *. rewrite ?Hm. simpl. lia.
  - simplify_eq/=.
    pose proof (sum_rank_insert _ w _ (Woken batch (now_ms S)) Hw).
    simpl in *. rewrite ?Hm. simpl. lia.
  - destruct (is_free (lat_mu_ (sched S))); simplify_eq/=.
    pose proof (sum_rank_insert _ w _ (Recording batch t) Hw). simpl in *. rewrite ?Hm. simpl. lia.
  - simplify_eq/=.
    pose proof (sum_rank_insert _ w _ (Counting batch) Hw). simpl in *. rewrite ?Hm. simpl. lia.
  - simplify_eq/=.
    pose proof (sum_rank_insert _ w _ Waiting Hw). simpl in *. rewrite ?Hm. simpl. lia.
  - done.
Qed.

Lemma step_measure (l : label) (S S' : System) :
  step l S = Some S' → is_tick l = false →
  main_pc S = Joining →
  shutdown_ (sched S) = true → 1 ≤ batch_size_ (sched S) →
  (measure S' < measure S)%nat
  ∧ (main_pc S' = Joining ∨ main_pc S' = Joined ∨ main_pc S' = Terminated)
  ∧ shutdown_ (sched S') = true
  ∧ batch_size_ (sched S') = batch_size_ (sched S).
Proof.
  intros Hstep Htick Hm Hsd Hbs.
  destruct l as [d|req| | |w]; simpl in Hstep; try done.
  - by rewrite Hm in Hstep.
  - by rewrite Hm in Hstep.
  - rewrite Hm in Hstep.
    destruct (forallb is_exited (workers_ (sched S))); simplify_eq/=.
    unfold measure. simpl. rewrite Hm. split_and!; auto. lia.
  - rewrite Hm in Hstep.
    pose proof (worker_step_measure w S S' Hstep Hm Hsd Hbs).
    apply worker_step_history in Hstep as (_ & [Hm' | Hm'] & Hsd' & Hbs').
    + split_and!; [done | left; congruence | congruence | done].
    + split_and!; [done | by right; right | congruence | done].
Qed.

Lemma joined_no_step (nw bs : Z) (l : label) (S : System) :
  invariant nw bs S → main_pc S = Joined → is_tick l = false → step l S = None.
Proof.
  intros Hinv Hm Hl. destruct l as [d|req| | |w]; simpl; try done.
  - by rewrite Hm.
  - by rewrite Hm.
  - by rewrite Hm.
  - rewrite Hm. unfold worker_step.
    destruct (workers_ (sched S) !! w) as [pc|] eqn:Hw; [| done].
    pose proof (inv_joined _ _ _ Hinv Hm) as Hall.
    rewrite Forall_lookup in Hall. by rewrite (Hall w pc Hw).
Qed.

(** After shutdown every sequence of actions is shorter than the measure. *)
Lemma drain_bounded (nw bs : Z) (ls : list label) :
  ∀ S S',
    invariant nw bs S → 1 ≤ bs → main_pc S ≠ Running →
    run ls S = Some S' → forallb (λ l, negb (is_tick l)) ls = true →
    (length ls + measure S' ≤ measure S)%nat.
Proof.
  induction ls as [|l ls IH]; intros S S' Hinv Hbs Hm Hrun Hticks;
    simpl in Hrun.
  - simplify_eq. simpl. lia.
  - simpl in Hticks. apply andb_true_iff in Hticks as [Hl Hticks].
    apply negb_true_iff in Hl.
    destruct (step l S) as [S1|] eqn:Hstep; [| done].
    destruct (main_pc S) eqn:Hpc; [done | | |].
    + assert (shutdown_ (sched S) = true) as Hsd
        by (apply (inv_stopping _ _ _ Hinv); by left).
      assert (1 ≤ batch_size_ (sched S)) as Hbs'
        by (by rewrite (inv_batch_size _ _ _ Hinv)).
      destruct (step_measure l S S1 Hstep Hl Hpc Hsd Hbs')
        as (Hlt & Hm1 & _).
      assert (length ls + measure S' ≤ measure S1)%nat.
      { apply IH; [by eapply step_invariant | done | | done | done].
        destruct Hm1 as [-> | [-> | ->]]; done. }
      simpl. lia.
    + by rewrite (joined_no_step nw bs l S Hinv Hpc Hl) in Hstep.
    + destruct l; simpl in Hstep; by rewrite ?Hpc in Hstep.
Qed.

(** With its allocation served no worker ends the process. *)
Lemma reserve_served (nw bs : Z) (w : nat) (S : System) :
  invariant nw bs S → 0 ≤ bs → reserve_ok nw bs →
  is_Some (workers_ (sched S) !! w) →
  bool_decide (batch_size_ (sched S) < 0)
  || negb (reserve_succeeds w (batch_size_ (sched S))) = false.
Proof.
  intros Hinv Hbs Hok Hw. apply lookup_lt_is_Some in Hw.
  rewrite (inv_threads _ _ _ Hinv) in Hw.
  rewrite (inv_batch_size _ _ _ Hinv), (Hok w Hw).
  by rewrite bool_decide_eq_false_2 by lia.
Qed.

Lemma step_not_terminated (nw bs : Z) (l : label) (S S' : System) :
  invariant nw bs S → 0 ≤ bs → reserve_ok nw bs →
  step l S = Some S' → main_pc S' ≠ Terminated.
Proof.
  intros Hinv Hbs Hok Hstep Ht.
  destruct l as [d|req| | |w]; simpl in Hstep.
  - destruct (main_pc S) eqn:Hm; try done.
    all: destruct (Qle_bool 0 d); by simplify_eq.
  - destruct (main_pc S); try done.
    destruct (is_free (mu_ (sched S))); by simplify_eq.
  - destruct (main_pc S); try done.
    destruct (is_free (mu_ (sched S))); by simplify_eq.
  - destruct (main_pc S); try done.
    destruct (forallb is_exited (workers_ (sched S))); by simplify_eq.
  - assert (main_pc S ≠ Terminated ∧ worker_step w S = Some S') as [Hm Hw]
      by (by destruct (main_pc S)).
    unfold worker_step in Hw.
    destruct (workers_ (sched S) !! w) as [pc|] eqn:Hpc; [| done].
    pose proof (reserve_served nw bs w S Hinv Hbs Hok ltac:(by eexists))
      as Hserved.
    destruct pc; rewrite ?Hserved in Hw;
      repeat (case_match; simplify_eq/=; try done).
    all: congruence.
Qed.

(** After shutdown the drain can always be brought to its end, when the
    allocations of the workers are served. *)
Lemma drain_completes (nw bs : Z) (n : nat) :
  ∀ S,
    invariant nw bs S → 1 ≤ bs → reserve_ok nw bs →
    main_pc S = Joining → (measure S ≤ n)%nat →
    ∃ ls S', run ls S = Some S' ∧ main_pc S' = Joined
             ∧ forallb (λ l, negb (is_tick l)) ls = true.
Proof.
  induction n as [|n IH]; intros S Hinv Hbs Hok Hm Hn.
  - unfold measure in Hn. rewrite Hm in Hn. lia.
  - destruct (progress nw bs S Hinv) as (l & Hl & [S1 Hstep]);
      [by rewrite Hm | by rewrite Hm |].
    assert (shutdown_ (sched S) = true) as Hsd
      by (apply (inv_stopping _ _ _ Hinv); by left).
    assert (1 ≤ batch_size_ (sched S)) as Hbs'
      by (by rewrite (inv_batch_size _ _ _ Hinv)).
    destruct (step_measure l S S1 Hstep Hl Hm Hsd Hbs') as (Hlt & Hm1 & _).
    destruct Hm1 as [Hm1 | [Hm1 | Hm1]].
    + destruct (IH S1) as (ls & S' & Hrun & HJ & Hticks);
        [by eapply step_invariant | done | done | done | lia |].
      exists (l :: ls), S'. simpl. rewrite Hstep, Hl. done.
    + exists [l], S1. simpl. rewrite Hstep, Hl. done.
    + by destruct (step_not_terminated nw bs l S S1 Hinv ltac:(lia) Hok Hstep).
Qed.

(** *** Submission, drain and shutdown *)

(** C2 (amended). In a run of a scheduler started with at least one worker,
    once [shutdown()] has returned every request that was passed to [enqueue]
    (all of them before the shutdown) has been recorded exactly once, in
    exactly one batch: there are as many latency samples as requests, one per
    request of each recorded batch, the processed count is the number of
    requests (as an [int]) and the queue is empty.  With a positive batch
    size, and the allocation of [batch.reserve] served for every worker, the
    run does reach that point: after the shutdown flag is set the workers
    can always finish the drain; and for every positive batch size the run
    is over within a bounded number of actions whatever the interleaving
    (by the return of [shutdown()], or by the end of the process when an
    allocation is not served). *)
Theorem C2_drain_records_every_request :
  ∀ (nw bs : Z) (t0 : Q) (ls : list label) (S : System),
    1 ≤ nw →
    run ls (boot nw bs t0) = Some S →
    Forall2 stamped (submitted S) (enqueued ls)
    ∧ (main_pc S = Joined →
         submitted S ≡ₚ flat_map snd (recorded S)
         ∧ latencies_ (sched S)
           = flat_map (λ tb, batch_latencies tb.1 tb.2) (recorded S)
         ∧ length (latencies_ (sched S)) = length (enqueued ls)
         ∧ total_processed_ (sched S)
           = wrap_int (Z.of_nat (length (enqueued ls)))
         ∧ (Z.of_nat (length (enqueued ls)) ≤ INT_MAX →
              total_processed_ (sched S) = Z.of_nat (length (enqueued ls)))
         ∧ pq_elements (queue_ (sched S)) = [])
    ∧ (1 ≤ bs → main_pc S = Joining →
         (reserve_ok nw bs →
            ∃ ls' S', run ls' S = Some S' ∧ main_pc S' = Joined
                      ∧ forallb (λ l, negb (is_tick l)) ls' = true)
         ∧ (∀ ls' S', run ls' S = Some S' →
              forallb (λ l, negb (is_tick l)) ls' = true →
              (length ls' ≤ measure S)%nat)).
Proof.
  intros nw bs t0 ls S Hnw Hrun.
  pose proof (run_invariant nw bs ls _ _ (boot_invariant nw bs t0) Hrun) as Hinv.
  destruct (run_submitted ls _ _ Hrun) as (new & Hsub & Hnew).
  simpl in Hsub. rewrite <- Hsub in Hnew.
  pose proof (Forall2_length _ _ _ Hnew) as Hlen.
  split_and!.
  - done.
  - intros Hm.
    destruct (joined_state nw bs S Hinv Hnw Hm) as (Hq & Hperm & Hlat & Hcount).
    split_and!; try done.
    + apply (inv_latencies _ _ _ Hinv).
    + by rewrite Hlat.
    + by rewrite Hcount, Hlen.
    + intros Hmax. rewrite Hcount, Hlen. apply wrap_int_id.
      unfold in_int_range, INT_MIN. lia.
  - intros Hbs Hm. split.
    + intros Hok. by apply (drain_completes nw bs (measure S)).
    + intros ls' S' Hrun' Hticks.
      assert (length ls' + measure S' ≤ measure S)%nat; [| lia].
      apply (drain_bounded nw bs ls' S S'); try done. by rewrite Hm.
Qed.

(** *** The batches of a run *)

Lemma batch_transition (bs : Z) (S : System) (w : nat) (pc pc' : worker_pc)
    (s' : InferenceScheduler) (rec' : list (Q * list InferenceRequest)) :
  batch_invariant bs S →
  workers_ (sched S) !! w = Some pc →
  batch_size_ s' = batch_size_ (sched S) →
  workers_ s' = workers_ (sched S) →
  (pc' ≠ Starting →
     Z.of_nat (length (held pc')) ≤ bs ∧ (processing pc' = true → held pc' ≠ [])) →
  Forall (λ tb, 1 ≤ Z.of_nat (length tb.2) ≤ bs) rec' →
  batch_invariant bs
    (mkSystem (set_worker w pc' s') (clock S) (main_pc S) (submitted S) rec').
Proof.
  intros [Hbs Hheld Hrec Hterm] Hw Ebs Ews Hpc' Hrec'.
  constructor; simpl; rewrite ?Ews; try done.
  - congruence.
  - intros w0 pc0. rewrite (lookup_set_worker _ _ _ _ _ Hw). case_decide.
    + by intros [= <-].
    + apply Hheld.
  - by rewrite length_insert.
Qed.

Ltac past_reserve Hpc :=
  intros _; split; [| done]; destruct Hpc as [? _]; [done |]; simpl in *; lia.

Lemma worker_step_batch_invariant (bs : Z) (w : nat) (S S' : System) :
  batch_invariant bs S → worker_step w S = Some S' → batch_invariant bs S'.
Proof.
  intros Hinv Hstep. pose proof Hinv as [Hbs Hheld Hrec Hterm].
  unfold worker_step in Hstep.
  destruct (workers_ (sched S) !! w) as [pc|] eqn:Hw; [| done].
  pose proof (Hheld w pc Hw) as Hpc.
  destruct pc as [| | |batch|batch us|batch t|batch t|batch|]; simpl in Hpc.
  - (* Starting *)
    destruct (bool_decide _ || negb _) eqn:Hneg; simplify_eq.
    + constructor; simpl; try done. intros _.
      apply orb_true_iff in Hneg as [Hneg%bool_decide_eq_true | Hfail].
      * by left.
      * right. exists w. split; [by eapply lookup_lt_Some |].
        by apply negb_true_iff.
    + apply orb_false_iff in Hneg as [Hneg%bool_decide_eq_false _].
      apply (batch_transition _ S w Starting Waiting (sched S) (recorded S));
        simpl; try done. intros _. split; [lia | done].
  - (* Waiting *)
    destruct (is_free (mu_ (sched S)) && _); simplify_eq.
    apply (batch_transition _ S w Waiting Draining
             (set_mu_ (Some w) (sched S)) (recorded S)); simpl; try done.
    past_reserve Hpc.
  - (* Draining *)
    destruct (shutdown_ (sched S) && pq_empty (queue_ (sched S))).
    + simplify_eq.
      apply (batch_transition _ S w Draining Exited
               (set_mu_ None (sched S)) (recorded S)); simpl; try done.
      past_reserve Hpc.
    + pose proof (pull_batch_bound (batch_size_ (sched S)) (queue_ (sched S)))
        as (_ & Hmax & _).
      destruct (pull_batch _ _) as [queue' batch]. simplify_eq.
      apply (batch_transition _ S w Draining (Batched batch)
               (set_mu_ None (set_queue_ queue' (sched S))) (recorded S));
        simpl in *; try done.
      past_reserve Hpc.
  - (* Batched *)
    case_bool_decide as Hb; simplify_eq.
    + apply (batch_transition _ S w (Batched []) Waiting (sched S) (recorded S));
        simpl; try done.
      past_reserve Hpc.
    + apply (batch_transition _ S w (Batched batch)
               (Sleeping batch (sleep_us batch)) (sched S) (recorded S));
        simpl; try done.
      intros _. split; [by apply Hpc | done].
  - (* Sleeping *)
    simplify_eq.
    apply (batch_transition _ S w (Sleeping batch us) (Woken batch (now_ms S))
             (sched S) (recorded S)); simpl; try done.
    intros _. by apply Hpc.
  - (* Woken *)
    destruct (is_free (lat_mu_ (sched S))); simplify_eq.
    apply (batch_transition _ S w (Woken batch t) (Recording batch t)
             (set_lat_mu_ (Some w) (sched S)) (recorded S)); simpl; try done.
    intros _. by apply Hpc.
  - (* Recording *)
    simplify_eq.
    apply (batch_transition _ S w (Recording batch t) (Counting batch)
             (set_lat_mu_ None
                (set_latencies_
                   (latencies_ (sched S) ++ batch_latencies t batch) (sched S)))
             (recorded S ++ [(t, batch)])); simpl; try done.
    + intros _. by apply Hpc.
    + apply Forall_app. split; [done |]. constructor; [| done]. simpl.
      destruct Hpc as [Hle Hne]; [done |]. specialize (Hne eq_refl).
      destruct batch; [done |]. simpl in *. lia.
  - (* Counting *)
    simplify_eq.
    apply (batch_transition _ S w (Counting batch) Waiting
             (set_total_processed_
                (wrap_int (total_processed_ (sched S) + Z.of_nat (length batch)))
                (sched S))
             (recorded S)); simpl; try done.
    past_reserve Hpc.
  - (* Exited *)
    done.
Qed.

Lemma step_batch_invariant (bs : Z) (l : label) (S S' : System) :
  batch_invariant bs S → step l S = Some S' → batch_invariant bs S'.
Proof.
  intros Hinv Hstep. destruct l as [d|req| | |w]; simpl in Hstep.
  - destruct (main_pc S) eqn:Hm; try done.
    all: destruct (Qle_bool 0 d); simplify_eq.
    all: destruct Hinv; constructor; simpl; done.
  - destruct (main_pc S) eqn:Hm; try done.
    destruct (is_free (mu_ (sched S))); simplify_eq.
    destruct Hinv; constructor; simpl; done.
  - destruct (main_pc S) eqn:Hm; try done.
    destruct (is_free (mu_ (sched S))); simplify_eq.
    destruct Hinv; constructor; simpl; done.
  - destruct (main_pc S) eqn:Hm; try done.
    destruct (forallb is_exited (workers_ (sched S))); simplify_eq.
    destruct Hinv; constructor; simpl; done.
  - destruct (main_pc S) eqn:Hm; try done.
    all: by apply (worker_step_batch_invariant bs w S).
Qed.

Lemma run_batch_invariant (nw bs : Z) (t0 : Q) (ls : list label) (S : System) :
  run ls (boot nw bs t0) = Some S → batch_invariant bs S.
Proof.
  assert (∀ S0 S1, batch_invariant bs S0 → run ls S0 = Some S1 →
                   batch_invariant bs S1) as Hrun.
  { induction ls as [|l ls IH]; intros S0 S1 Hinv Hrun; simpl in Hrun.
    - by simplify_eq.
    - destruct (step l S0) as [S2|] eqn:Hstep; [| done].
      eapply IH; [| exact Hrun]. by eapply step_batch_invariant. }
  apply Hrun. constructor; simpl; try done.
  intros w pc [-> _]%lookup_replicate. done.
Qed.

(** The process ends only at the [reserve] of a worker. *)
Lemma terminated_cause (nw bs : Z) (t0 : Q) (ls : list label) (S : System) :
  run ls (boot nw bs t0) = Some S → main_pc S = Terminated →
  bs < 0
  ∨ (0 < bs ∧ ∃ w, (w < Z.to_nat nw)%nat ∧ reserve_succeeds w bs = false).
Proof.
  intros Hrun Ht.
  pose proof (run_invariant nw bs ls _ _ (boot_invariant nw bs t0) Hrun) as Hinv.
  destruct (binv_terminated _ _ (run_batch_invariant nw bs t0 ls S Hrun) Ht)
    as [Hneg | (w & Hw & Hfail)]; [by left |].
  destruct (decide (bs < 0)) as [| Hbs]; [by left | right].
  rewrite (inv_threads _ _ _ Hinv) in Hw.
  split; [| by exists w].
  destruct (decide (bs = 0)) as [-> | ]; [| lia].
  by rewrite reserve_nothing in Hfail.
Qed.

Lemma process_runs (nw bs : Z) (t0 : Q) (ls : list label) (S : System) :
  run ls (boot nw bs t0) = Some S → 0 ≤ bs → reserve_ok nw bs →
  main_pc S ≠ Terminated.
Proof.
  intros Hrun Hbs Hok Ht.
  destruct (terminated_cause nw bs t0 ls S Hrun Ht)
    as [Hneg | (_ & w & Hw & Hfail)]; [lia |].
  rewrite (Hok w Hw) in Hfail. done.
Qed.

(** C4. In every state of every run the batch in the local vector of a
    worker holds at most [batch_size] requests, and so does every batch
    that was recorded (which holds at least one); the loop of l.129-132
    draws at most [batch_size] requests from any queue, and none when the
    bound is not positive. *)
Theorem C4_batch_bound :
  ∀ (nw bs : Z) (t0 : Q) (ls : list label) (S : System),
    run ls (boot nw bs t0) = Some S →
    (∀ w pc, workers_ (sched S) !! w = Some pc → pc ≠ Starting →
       Z.of_nat (length (held pc)) ≤ bs)
    ∧ Forall (λ tb, 1 ≤ Z.of_nat (length tb.2) ≤ bs) (recorded S)
    ∧ (∀ q, ((pull_batch bs q).2 ≠ [] →
               Z.of_nat (length (pull_batch bs q).2) ≤ bs)
            ∧ Z.of_nat (length (pull_batch bs q).2) ≤ Z.max 0 bs).
Proof.
  intros nw bs t0 ls S Hrun.
  destruct (run_batch_invariant nw bs t0 ls S Hrun) as [_ Hheld Hrec _].
  split_and!.
  - intros w pc Hw Hpc. by apply (Hheld w pc Hw Hpc).
  - done.
  - intros q. destruct (pull_batch_bound bs q) as (? & ? & _). by split.
Qed.

(** C9. In every state of every run no sleeping worker holds [mu_] or
    [lat_mu_]; the holder of a mutex is a worker inside the guarded scope,
    whose next action releases it; with [mu_] free a submission and a
    waiting worker whose predicate holds go ahead, whoever sleeps; and as
    long as the process runs and [shutdown()] has not returned some thread
    can act.  The process ends only at the [reserve] of a worker (l.119): for
    a negative batch size, or for a positive one when the allocation is not
    served; with a batch size that is not negative and the allocations
    served it runs. *)
Theorem C9_no_lock_held_while_sleeping :
  ∀ (nw bs : Z) (t0 : Q) (ls : list label) (S : System),
    run ls (boot nw bs t0) = Some S →
    (∀ w b us, workers_ (sched S) !! w = Some (Sleeping b us) →
       mu_ (sched S) ≠ Some w ∧ lat_mu_ (sched S) ≠ Some w)
    ∧ (∀ w, mu_ (sched S) = Some w → main_pc S ≠ Terminated →
         workers_ (sched S) !! w = Some Draining
         ∧ ∃ S', step (Work w) S = Some S' ∧ mu_ (sched S') = None)
    ∧ (∀ w, lat_mu_ (sched S) = Some w → main_pc S ≠ Terminated →
         (∃ b t, workers_ (sched S) !! w = Some (Recording b t))
         ∧ ∃ S', step (Work w) S = Some S' ∧ lat_mu_ (sched S') = None)
    ∧ (∀ req, main_pc S = Running → mu_ (sched S) = None →
         is_Some (step (Enqueue req) S))
    ∧ (∀ w, workers_ (sched S) !! w = Some Waiting → mu_ (sched S) = None →
         pq_empty (queue_ (sched S)) = false ∨ shutdown_ (sched S) = true →
         main_pc S ≠ Terminated →
         is_Some (step (Work w) S))
    ∧ (main_pc S ≠ Joined → main_pc S ≠ Terminated →
         ∃ l, is_tick l = false ∧ is_Some (step l S))
    ∧ (main_pc S = Terminated →
         bs < 0
         ∨ (0 < bs
            ∧ ∃ w, (w < Z.to_nat nw)%nat ∧ reserve_succeeds w bs = false))
    ∧ (0 ≤ bs → reserve_ok nw bs → main_pc S ≠ Terminated).
Proof.
  intros nw bs t0 ls S Hrun.
  pose proof (run_invariant nw bs ls _ _ (boot_invariant nw bs t0) Hrun) as Hinv.
  split_and!.
  - intros w b us Hw. split.
    + intros Hm%(inv_mu _ _ _ Hinv). congruence.
    + intros (b' & t' & Hm)%(inv_lat_mu _ _ _ Hinv). congruence.
  - intros w Hm%(inv_mu _ _ _ Hinv) Ht. split; [done |].
    rewrite work_step by done. by apply draining_releases.
  - intros w (b & t & Hw)%(inv_lat_mu _ _ _ Hinv) Ht. split; [by eauto |].
    rewrite work_step by done. by apply (recording_releases w S b t).
  - intros req Hm Hmu. simpl. by rewrite Hm, Hmu.
  - intros w Hw Hmu Hpred Ht. rewrite work_step by done.
    unfold worker_step. rewrite Hw, Hmu. simpl.
    destruct Hpred as [-> | ->]; [done | by rewrite orb_true_r].
  - by apply (progress nw bs).
  - by apply (terminated_cause nw bs t0 ls S).
  - by apply (process_runs nw bs t0 ls S).
Qed.

(** C5 (amended). Construction never rejects: for every worker count and
    batch size, positive or not, the constructor returns a scheduler that
    holds both values as given, with the shutdown flag clear, nothing
    processed, nothing queued and no thread; for a positive worker count and
    batch size this is what the specification asks for.  A value that is not
    positive shows later: [start()] creates no thread for a worker count
    that is not positive, and with a negative batch size the first action of
    a worker ends the process.  For a positive worker count and batch size,
    once [start()] has returned, nothing fails as long as the allocation of
    [batch.reserve] is served for every worker (the growing containers
    having their memory, as throughout): the process is never ended by an
    exception; but when that allocation is not served for a worker
    ([std::bad_alloc], l.119), the first action of that worker ends the
    process. *)
Theorem C5_construction_never_rejects :
  ∀ num_workers batch_size : Z,
    construct num_workers batch_size
    = Returned (InferenceScheduler_new num_workers batch_size)
    ∧ num_workers_ (InferenceScheduler_new num_workers batch_size) = num_workers
    ∧ batch_size_ (InferenceScheduler_new num_workers batch_size) = batch_size
    ∧ shutdown_ (InferenceScheduler_new num_workers batch_size) = false
    ∧ total_processed_ (InferenceScheduler_new num_workers batch_size) = 0
    ∧ pq_elements (queue_ (InferenceScheduler_new num_workers batch_size)) = []
    ∧ latencies_ (InferenceScheduler_new num_workers batch_size) = []
    ∧ workers_ (InferenceScheduler_new num_workers batch_size) = []
    ∧ (0 < num_workers → 0 < batch_size →
         construct num_workers batch_size = spec_construct num_workers batch_size)
    ∧ (∀ t0, workers_ (sched (boot num_workers batch_size t0))
             = replicate (Z.to_nat num_workers) Starting)
    ∧ (num_workers ≤ 0 →
         ∀ t0, workers_ (sched (boot num_workers batch_size t0)) = [])
    ∧ (0 < num_workers → batch_size < 0 →
         ∀ t0, ∃ S, step (Work 0) (boot num_workers batch_size t0) = Some S
                    ∧ main_pc S = Terminated)
    ∧ (0 < num_workers → 0 < batch_size →
       reserve_ok num_workers batch_size →
         ∀ t0 ls S, run ls (boot num_workers batch_size t0) = Some S →
                    main_pc S ≠ Terminated)
    ∧ (0 < batch_size →
         ∀ t0 w, (w < Z.to_nat num_workers)%nat →
                 reserve_succeeds w batch_size = false →
                 ∃ S, step (Work w) (boot num_workers batch_size t0) = Some S
                      ∧ main_pc S = Terminated).
Proof.
  intros nw bs. split_and!; try done.
  - apply pq_new_elements.
  - intros Hw Hb. unfold spec_construct.
    by rewrite !bool_decide_eq_true_2.
  - intros Hw t0. simpl. by replace (Z.to_nat nw) with 0%nat by lia.
  - intros Hw Hb t0. simpl. unfold worker_step. simpl.
    destruct (Z.to_nat nw) as [|n] eqn:Hn; [lia |]. simpl.
    rewrite bool_decide_eq_true_2 by done. by eexists.
  - intros Hw Hb Hok t0 ls S Hrun.
    apply (process_runs nw bs t0 ls S Hrun); [lia | done].
  - intros Hb t0 w Hw Hfail. simpl. unfold worker_step. simpl.
    rewrite lookup_replicate_2 by done. rewrite Hfail, orb_true_r.
    by eexists.
Qed.

(** ** Clock readings and the order of a worker's actions *)

Lemma sum_uncounted_nonneg (ws : list worker_pc) : 0 ≤ sum_uncounted ws.
Proof.
  induction ws as [|pc ws IH]; simpl; [done |]. destruct pc; simpl; lia.
Qed.

Lemma pending_submitted (nw bs : Z) (S : System) (w : nat) (pc : worker_pc)
    (r : InferenceRequest) :
  invariant nw bs S → workers_ (sched S) !! w = Some pc → r ∈ pending pc →
  r ∈ submitted S.
Proof.
  intros Hinv Hw Hr. rewrite (inv_conserve _ _ _ Hinv).
  apply elem_of_app. right. apply elem_of_app. left.
  apply list_elem_of_In, in_flat_map. exists pc. split.
  - apply list_elem_of_In. by eapply list_elem_of_lookup_2.
  - by apply list_elem_of_In.
Qed.

(** A worker replaces its own entry of [workers_]: what the history
    invariant asks of the step. *)
Lemma history_transition (S : System) (w : nat) (pc pc' : worker_pc)
    (s' : InferenceScheduler) (rec' : list (Q * list InferenceRequest)) :
  history_invariant S →
  workers_ (sched S) !! w = Some pc →
  start_time_ s' = start_time_ (sched S) →
  batch_size_ s' = batch_size_ (sched S) →
  workers_ s' = workers_ (sched S) →
  done_after_enqueue (clock S) pc' →
  Forall (λ tb, (tb.1 <= clock S)%Q
                ∧ Forall (λ r, (enqueue_time_ms r <= tb.1)%Q) tb.2) rec' →
  sum_uncounted (workers_ (sched S)) - uncounted pc + uncounted pc'
    ≤ Z.of_nat (length (flat_map snd rec')) →
  (∀ w0, w0 ≠ w → workers_ (sched S) !! w0 = Some Draining →
     pq_empty (queue_ s') = false ∨ shutdown_ s' = true) →
  (pc' = Draining → pq_empty (queue_ s') = false ∨ shutdown_ s' = true) →
  (pc' = Batched [] → batch_size_ (sched S) ≤ 0) →
  history_invariant
    (mkSystem (set_worker w pc' s') (clock S) (main_pc S) (submitted S) rec').
Proof.
  intros [Hst Hsub Hdone Hrec Hunc Hdr Hbat] Hw Est Ebs Ews Hpc' Hrec' Hunc'
    Hother Hself Hempty.
  constructor; simpl; rewrite ?Ews, ?Est, ?Ebs; try done.
  - intros w0 pc0. rewrite (lookup_set_worker _ _ _ _ _ Hw). case_decide.
    + by intros [= <-].
    + apply Hdone.
  - by rewrite (sum_uncounted_insert _ _ _ _ Hw).
  - intros w0. rewrite (lookup_set_worker _ _ _ _ _ Hw). case_decide.
    + intros [= ->]. by apply Hself.
    + by apply Hother.
  - intros w0. rewrite (lookup_set_worker _ _ _ _ _ Hw). case_decide.
    + intros [= ->]. by apply Hempty.
    + apply Hbat.
Qed.

Ltac history_side Hdr :=
  simpl in *; try done; try lia; try (by intros ? _; apply Hdr).

Lemma worker_step_history_invariant (nw bs : Z) (w : nat) (S S' : System) :
  invariant nw bs S → history_invariant S → worker_step w S = Some S' →
  history_invariant S'.
Proof.
  intros Hinv Hh Hstep. pose proof Hh as [Hst Hsub Hdone Hrec Hunc Hdr Hbat].
  pose proof (sum_uncounted_nonneg (workers_ (sched S))) as Hnn.
  unfold worker_step in Hstep.
  destruct (workers_ (sched S) !! w) as [pc|] eqn:Hw; [| done].
  pose proof (Hdone w pc Hw) as Hpc.
  assert (∀ w0, w0 ≠ w → workers_ (sched S) !! w0 = Some Draining →
            pc ≠ Draining) as Hone.
  { intros w0 Hne Hw0 ->.
    apply (inv_mu _ _ _ Hinv) in Hw0, Hw. congruence. }
  destruct pc as [| | |batch|batch us|batch t|batch t|batch|]; simpl in Hpc.
  - (* Starting *)
    destruct (bool_decide _ || negb _) eqn:Hneg; simplify_eq.
    + by constructor.
    + apply (history_transition S w Starting Waiting (sched S) (recorded S));
        history_side Hdr.
  - (* Waiting *)
    destruct (is_free (mu_ (sched S))); simpl in Hstep; [| done].
    destruct (negb (pq_empty (queue_ (sched S))) || shutdown_ (sched S))
      eqn:Hpred; simplify_eq.
    apply (history_transition S w Waiting Draining
             (set_mu_ (Some w) (sched S)) (recorded S)); history_side Hdr.
    intros _. apply orb_true_iff in Hpred as [Hq | Hs]; [left | by right].
    by apply negb_true_iff.
  - (* Draining *)
    destruct (shutdown_ (sched S) && pq_empty (queue_ (sched S))) eqn:Hc.
    + simplify_eq.
      apply (history_transition S w Draining Exited
               (set_mu_ None (sched S)) (recorded S)); history_side Hdr.
    + pose proof (pull_batch_length (batch_size_ (sched S)) (queue_ (sched S)))
        as Hlen.
      destruct (pull_batch _ _) as [queue' batch]. simplify_eq.
      apply (history_transition S w Draining (Batched batch)
               (set_mu_ None (set_queue_ queue' (sched S))) (recorded S));
        simpl in *; try done; try lia.
      * intros w0 Hne Hw0. by destruct (Hone w0 Hne Hw0).
      * intros [= ->]. simpl in Hlen.
        assert (pq_empty (queue_ (sched S)) = false) as Hq.
        { destruct (Hdr w Hw) as [Hq | Hs]; [done |].
          rewrite Hs in Hc. done. }
        apply pq_nonempty_elements in Hq.
        destruct (pq_elements (queue_ (sched S))); [done |]. simpl in Hlen. lia.
  - (* Batched *)
    case_bool_decide as Hb; simplify_eq.
    + apply (history_transition S w (Batched []) Waiting (sched S) (recorded S));
        history_side Hdr.
    + apply (history_transition S w (Batched batch)
               (Sleeping batch (sleep_us batch)) (sched S) (recorded S));
        history_side Hdr.
  - (* Sleeping *)
    simplify_eq.
    apply (history_transition S w (Sleeping batch us) (Woken batch (now_ms S))
             (sched S) (recorded S)); history_side Hdr.
    split; [apply Qle_refl |].
    apply Forall_forall. intros r Hr.
    assert (r ∈ submitted S) as Hin
      by (by apply (pending_submitted nw bs S w (Sleeping batch us))).
    rewrite Forall_forall in Hsub. by destruct (Hsub r Hin).
  - (* Woken *)
    destruct (is_free (lat_mu_ (sched S))); simplify_eq.
    apply (history_transition S w (Woken batch t) (Recording batch t)
             (set_lat_mu_ (Some w) (sched S)) (recorded S)); history_side Hdr.
  - (* Recording *)
    simplify_eq.
    apply (history_transition S w (Recording batch t) (Counting batch)
             (set_lat_mu_ None
                (set_latencies_
                   (latencies_ (sched S) ++ batch_latencies t batch) (sched S)))
             (recorded S ++ [(t, batch)])); history_side Hdr.
    + apply Forall_app. split; [done |]. by constructor.
    + rewrite flat_map_app, length_app. simpl. rewrite app_nil_r. lia.
  - (* Counting *)
    simplify_eq.
    apply (history_transition S w (Counting batch) Waiting
             (set_total_processed_
                (wrap_int (total_processed_ (sched S) + Z.of_nat (length batch)))
                (sched S))
             (recorded S)); history_side Hdr.
  - (* Exited *)
    done.
Qed.

Lemma step_history_invariant (nw bs : Z) (l : label) (S S' : System) :
  invariant nw bs S → history_invariant S → step l S = Some S' →
  history_invariant S'.
Proof.
  intros Hinv Hh Hstep. pose proof Hh as [Hst Hsub Hdone Hrec Hunc Hdr Hbat].
  destruct l as [d|req| | |w]; simpl in Hstep.
  - (* Tick *)
    assert ((0 <= d)%Q → history_invariant
              (mkSystem (sched S) (clock S + d)%Q (main_pc S) (submitted S)
                 (recorded S))) as Htick.
    { intros Hd.
      assert (∀ x, (x <= clock S)%Q → (x <= clock S + d)%Q) as Hle.
      { intros x Hx. rewrite <- (Qplus_0_r x). by apply Qplus_le_compat. }
      constructor; simpl; try done.
      - by apply Hle.
      - eapply Forall_impl; [exact Hsub |]. intros r [? ?]. split; [done |].
        by apply Hle.
      - intros w pc Hw. specialize (Hdone w pc Hw).
        destruct pc; simpl in *; try done.
        all: destruct Hdone as [? ?]; split; [by apply Hle | done].
      - eapply Forall_impl; [exact Hrec |]. intros tb [? ?]. split; [| done].
        by apply Hle. }
    destruct (main_pc S) eqn:Hm; try done.
    all: destruct (Qle_bool 0 d) eqn:Hd; simplify_eq.
    all: apply Htick; by apply Qle_bool_iff.
  - (* Enqueue *)
    destruct (main_pc S) eqn:Hm; try done.
    destruct (is_free (mu_ (sched S))) eqn:Hfree; simplify_eq.
    apply is_free_true in Hfree.
    constructor; simpl; try done.
    + apply Forall_app. split; [done |]. constructor; [| done]. simpl.
      split; [done | apply Qle_refl].
    + intros w Hw. apply (inv_mu _ _ _ Hinv) in Hw. congruence.
  - (* Shutdown *)
    destruct (main_pc S) eqn:Hm; try done.
    destruct (is_free (mu_ (sched S))) eqn:Hfree; simplify_eq.
    constructor; simpl; try done.
    intros w Hw. by right.
  - (* Join *)
    destruct (main_pc S) eqn:Hm; try done.
    destruct (forallb is_exited (workers_ (sched S))); simplify_eq.
    by constructor.
  - destruct (main_pc S) eqn:Hm; try done.
    all: by apply (worker_step_history_invariant nw bs w S).
Qed.

Lemma boot_history_invariant (nw bs : Z) (t0 : Q) :
  history_invariant (boot nw bs t0).
Proof.
  constructor; simpl; try done.
  - apply Qle_refl.
  - intros w pc [-> _]%lookup_replicate. done.
  - by rewrite uncounted_replicate_starting.
  - intros w [[=] _]%lookup_replicate.
  - intros w [[=] _]%lookup_replicate.
Qed.

Lemma run_history_invariant (nw bs : Z) (t0 : Q) (ls : list label) (S : System) :
  run ls (boot nw bs t0) = Some S → invariant nw bs S ∧ history_invariant S.
Proof.
  assert (∀ S0 S1, invariant nw bs S0 → history_invariant S0 →
                   run ls S0 = Some S1 →
                   invariant nw bs S1 ∧ history_invariant S1) as Hrun.
  { induction ls as [|l ls IH]; intros S0 S1 Hinv Hh Hrun; simpl in Hrun.
    - by simplify_eq.
    - destruct (step l S0) as [S2|] eqn:Hstep; [| done].
      eapply IH; [| | exact Hrun].
      + by eapply step_invariant.
      + by eapply step_history_invariant. }
  apply Hrun; [apply boot_invariant | apply boot_history_invariant].
Qed.

(** ** The percentiles of the report *)

Lemma sorted_nth_le (l : list Q) :
  StronglySorted Qle l →
  ∀ i j, (i ≤ j)%nat → (j < length l)%nat → (nth i l 0 <= nth j l 0)%Q.
Proof.
  induction 1 as [|x l Hs IH Hall]; intros i j Hij Hj; simpl in *; [lia |].
  destruct j as [|j].
  - replace i with 0%nat by lia. apply Qle_refl.
  - destruct i as [|i].
    + rewrite Forall_forall in Hall. apply Hall.
      apply list_elem_of_In, nth_In. lia.
    + apply IH; lia.
Qed.

Lemma rank_index_lt (n : nat) (p : Q) : (0 < n)%nat → (rank_index n p < n)%nat.
Proof.
  intros Hn. unfold rank_index, static_cast_size_t.
  pose proof (Z.mod_pos_bound (Qtrunc (p * inject_Z (Z.of_nat n))) (2 ^ 64)
                ltac:(lia)).
  lia.
Qed.

Lemma pct_nth (l : list Q) (p : Q) :
  l ≠ [] → pct l p = nth (rank_index (length l) p) l 0%Q.
Proof.
  intros Hne. unfold pct. by rewrite bool_decide_eq_false_2.
Qed.

Lemma pct_elem_of (l : list Q) (p : Q) : l ≠ [] → pct l p ∈ l.
Proof.
  intros Hne. rewrite pct_nth by done.
  apply list_elem_of_In, nth_In, rank_index_lt. destruct l; [done | simpl; lia].
Qed.

(** Within the range of [size_t] the index is [floor (p * n)], cut at
    [n - 1]. *)
Lemma rank_index_floor (n : nat) (p : Q) :
  (0 <= p)%Q → Qfloor (p * inject_Z (Z.of_nat n)) < 2 ^ 64 →
  rank_index n p
  = Z.to_nat (Z.min (Qfloor (p * inject_Z (Z.of_nat n))) (Z.of_nat n - 1)).
Proof.
  intros Hp Hlt. unfold rank_index, static_cast_size_t.
  assert (0 <= p * inject_Z (Z.of_nat n))%Q as Hpos.
  { apply Qmult_le_0_compat; [done |].
    change 0%Q with (inject_Z 0). rewrite <- Zle_Qle. lia. }
  rewrite Qtrunc_nonneg by done.
  rewrite Z.mod_small; [done |]. split; [| done].
  change 0 with (Qfloor 0). by apply Qfloor_resp_le.
Qed.

Lemma rank_index_mono (n : nat) (p p' : Q) :
  (0 <= p)%Q → (p <= p')%Q → Qfloor (p' * inject_Z (Z.of_nat n)) < 2 ^ 64 →
  (rank_index n p ≤ rank_index n p')%nat.
Proof.
  intros Hp Hpp Hlt.
  assert (Qfloor (p * inject_Z (Z.of_nat n))
          ≤ Qfloor (p' * inject_Z (Z.of_nat n))) as Hfl.
  { apply Qfloor_resp_le. apply Qmult_le_compat_r; [done |].
    change 0%Q with (inject_Z 0). rewrite <- Zle_Qle. lia. }
  rewrite !rank_index_floor; [lia | | done | done | lia].
  by apply (Qle_trans _ p).
Qed.

Lemma std_sort_length (l : list Q) : length (std_sort l) = length l.
Proof. apply Permutation_length, std_sort_perm. Qed.

Lemma std_sort_nil (l : list Q) : std_sort l = [] ↔ l = [].
Proof.
  split; [| by intros ->].
  intros He. apply length_zero_iff_nil. by rewrite <- std_sort_length, He.
Qed.

Lemma std_sort_elem_of (lat : list Q) (x : Q) : x ∈ std_sort lat → x ∈ lat.
Proof. intros Hx. by rewrite <- (std_sort_perm lat). Qed.

Lemma pct_mono (lat : list Q) (p p' : Q) :
  (0 <= p)%Q → (p <= p')%Q →
  Qfloor (p' * inject_Z (Z.of_nat (length lat))) < 2 ^ 64 →
  (pct (std_sort lat) p <= pct (std_sort lat) p')%Q.
Proof.
  intros Hp Hpp Hlt. destruct (decide (lat = [])) as [-> | Hne].
  { apply Qle_refl. }
  assert (std_sort lat ≠ []) as Hne' by (by rewrite std_sort_nil).
  rewrite !pct_nth, std_sort_length by done.
  apply sorted_nth_le; [apply std_sort_sorted | by apply rank_index_mono |].
  rewrite std_sort_length. apply rank_index_lt. destruct lat; [done | simpl; lia].
Qed.

Lemma rank_below_one (p : Q) (n : nat) :
  (0 <= p)%Q → (p < 1)%Q → Z.of_nat n < 2 ^ 64 →
  Qfloor (p * inject_Z (Z.of_nat n)) < 2 ^ 64.
Proof.
  intros H0 H1 Hn. destruct n as [|n].
  - assert (Qfloor (p * inject_Z (Z.of_nat 0)) = 0) as Hz.
    { destruct p as [a b]. unfold Qfloor, Qmult. simpl. by rewrite Z.mul_0_r. }
    rewrite Hz. lia.
  - pose proof (rank_index_bounds p (Z.of_nat (Datatypes.S n)) H0 H1 ltac:(lia)).
    lia.
Qed.

(** *** Counting *)

Lemma count_samples_perm (f : Q → bool) (l1 l2 : list Q) :
  l1 ≡ₚ l2 → count_samples f l1 = count_samples f l2.
Proof.
  induction 1 as [|x l1 l2 _ IH|x y l|l1 l2 l3 _ IH1 _ IH2]; simpl;
    [done | by rewrite IH | lia | congruence].
Qed.

Lemma count_samples_le (f g : Q → bool) (l : list Q) :
  (∀ x, f x = true → g x = true) →
  (count_samples f l ≤ count_samples g l)%nat.
Proof.
  intros Hfg. induction l as [|x l IH]; simpl; [done |].
  destruct (f x) eqn:Hf; [rewrite (Hfg x Hf) |]; destruct (g x); lia.
Qed.

Lemma count_samples_none (f : Q → bool) (l : list Q) :
  Forall (λ x, f x = false) l → count_samples f l = 0%nat.
Proof. induction 1 as [|x l Hx _ IH]; simpl; [done |]. by rewrite Hx, IH. Qed.

(** The sample at index [i] of a sorted sequence has at most [i] samples
    below it and more than [i] samples that are not above it. *)
Lemma sorted_nth_count (l : list Q) :
  StronglySorted Qle l →
  ∀ i, (i < length l)%nat →
    (count_samples (λ x, Qlt_bool x (nth i l 0%Q)) l ≤ i)%nat
    ∧ (i < count_samples (λ x, Qle_bool x (nth i l 0%Q)) l)%nat.
Proof.
  induction 1 as [|x l Hs IH Hall]; intros i Hi; simpl in *; [lia |].
  destruct i as [|i].
  - assert (Qlt_bool x x = false) as -> by (apply Qlt_bool_false, Qle_refl).
    assert (Qle_bool x x = true) as -> by (apply Qle_bool_iff, Qle_refl).
    rewrite count_samples_none; [lia |].
    eapply Forall_impl; [exact Hall |]. intros y Hy. by apply Qlt_bool_false.
  - destruct (IH i ltac:(lia)) as [Hlt Hle].
    assert (Qle_bool x (nth i l 0%Q) = true) as ->.
    { apply Qle_bool_iff. rewrite Forall_forall in Hall. apply Hall.
      apply list_elem_of_In, nth_In. lia. }
    destruct (Qlt_bool x (nth i l 0%Q)); lia.
Qed.

(** A rank fixes the sample up to equality of rationals. *)
Lemma count_samples_unique (l : list Q) (i : nat) (v v' : Q) :
  (count_samples (λ x, Qlt_bool x v) l ≤ i)%nat →
  (i < count_samples (λ x, Qle_bool x v) l)%nat →
  (count_samples (λ x, Qlt_bool x v') l ≤ i)%nat →
  (i < count_samples (λ x, Qle_bool x v') l)%nat →
  (v == v')%Q.
Proof.
  intros Hlt Hle Hlt' Hle'.
  destruct (Q_dec v v') as [[Hvv | Hvv] | Hvv]; [exfalso | exfalso | done].
  - pose proof (count_samples_le (λ x, Qle_bool x v) (λ x, Qlt_bool x v') l) as H.
    assert (count_samples (λ x, Qle_bool x v) l
            ≤ count_samples (λ x, Qlt_bool x v') l)%nat; [| lia].
    apply H. intros x Hx%Qle_bool_iff. apply Qlt_bool_true.
    by apply (Qle_lt_trans _ v).
  - pose proof (count_samples_le (λ x, Qle_bool x v') (λ x, Qlt_bool x v) l) as H.
    assert (count_samples (λ x, Qle_bool x v') l
            ≤ count_samples (λ x, Qlt_bool x v) l)%nat; [| lia].
    apply H. intros x Hx%Qle_bool_iff. apply Qlt_bool_true.
    by apply (Qle_lt_trans _ v').
Qed.

Lemma pct_perm (lat1 lat2 : list Q) (p : Q) :
  lat1 ≡ₚ lat2 → (pct (std_sort lat1) p == pct (std_sort lat2) p)%Q.
Proof.
  intros Hperm. destruct (decide (lat1 = [])) as [-> | Hne].
  { apply Permutation_nil_l in Hperm as ->. apply Qeq_refl. }
  assert (lat2 ≠ []) as Hne2.
  { intros ->. by apply Permutation_nil_r in Hperm. }
  assert (std_sort lat1 ≡ₚ std_sort lat2) as Hss
    by (by rewrite !std_sort_perm).
  assert (length lat2 = length lat1) as Hlen
    by (symmetry; by apply Permutation_length).
  rewrite !pct_nth by (by rewrite std_sort_nil).
  rewrite !std_sort_length, Hlen.
  set (i := rank_index (length lat1) p).
  assert (i < length lat1)%nat as Hi.
  { apply rank_index_lt. destruct lat1; [done | simpl; lia]. }
  destruct (sorted_nth_count _ (std_sort_sorted lat1) i) as [H1 H2];
    [by rewrite std_sort_length |].
  destruct (sorted_nth_count _ (std_sort_sorted lat2) i) as [H3 H4];
    [by rewrite std_sort_length, Hlen |].
  rewrite <- (count_samples_perm _ _ _ Hss) in H3.
  rewrite <- (count_samples_perm _ _ _ Hss) in H4.
  by apply (count_samples_unique (std_sort lat1) i).
Qed.

(** * Further properties *)

(** ** The order of the queue *)

(** X1. [InferenceRequest::operator<] is a strict weak ordering, which is
    what [std::priority_queue] asks of its comparison: it is irreflexive,
    asymmetric and transitive, and being incomparable (neither less than the
    other) is transitive; two requests are incomparable exactly when their
    priorities are equal, whatever their other fields. *)
Theorem X1_operator_lt_is_strict_weak_order :
  (∀ a, req_lt a a = false)
  ∧ (∀ a b, req_lt a b = true → req_lt b a = false)
  ∧ (∀ a b c, req_lt a b = true → req_lt b c = true → req_lt a c = true)
  ∧ (∀ a b c, req_lt a b = false → req_lt b a = false →
              req_lt b c = false → req_lt c b = false →
              req_lt a c = false ∧ req_lt c a = false)
  ∧ (∀ a b, req_lt a b = false ∧ req_lt b a = false
            ↔ priority a = priority b).
Proof.
  split_and!.
  - intros a. apply req_lt_false. lia.
  - intros a b. rewrite req_lt_true, req_lt_false. lia.
  - intros a b c. rewrite !req_lt_true. lia.
  - intros a b c. rewrite !req_lt_false. lia.
  - intros a b. rewrite !req_lt_false. lia.
Qed.

(** X2. A request that is more urgent than everything pending is served
    next: after [enqueue] has pushed it, the batch the loop of l.129-132
    draws (for a batch size of at least 1) starts with that request, as
    stamped, however many requests were pending before it. *)
Theorem X2_urgent_request_heads_next_batch :
  ∀ (now : Q) (req : InferenceRequest) (s : InferenceScheduler) (bs : Z),
    1 ≤ bs →
    (∀ y, y ∈ pq_elements (queue_ s) → priority y < priority req) →
    head (pull_batch bs (queue_ (enqueue now req s))).2 = Some (stamp now req).
Proof.
  intros now req s bs Hbs Hurgent.
  set (q := queue_ (enqueue now req s)).
  assert (pq_elements q ≡ₚ stamp now req :: pq_elements (queue_ s)) as Hq
    by apply pq_push_spec.
  destruct (pull_batch_spec bs q) as (Hperm & Hsorted & Hrest & _).
  pose proof (pull_batch_length bs q) as Hlen.
  rewrite Hq in Hlen. simpl in Hlen.
  destruct (pull_batch bs q).2 as [|r b] eqn:Hb; [simpl in Hlen; lia |].
  simpl. f_equal.
  apply StronglySorted_inv in Hsorted as [_ Hall].
  rewrite Forall_forall in Hall.
  assert (priority req ≤ priority r) as Hge.
  { assert (stamp now req ∈ (r :: b) ++ pq_elements (pull_batch bs q).1) as Hin.
    { rewrite <- Hperm, Hq. by left. }
    apply elem_of_app in Hin as [[Heq | Hin]%elem_of_cons | Hin].
    - rewrite <- Heq. simpl. lia.
    - apply (Hall _ Hin).
    - by apply (Hrest r (stamp now req)); [left |]. }
  assert (r ∈ stamp now req :: pq_elements (queue_ s)) as Hr.
  { rewrite <- Hq, Hperm. by left. }
  apply elem_of_cons in Hr as [-> | Hr]; [done |].
  specialize (Hurgent r Hr). lia.
Qed.

Lemma filter_length_all {A} (P : A → Prop) `{∀ x, Decision (P x)} (l : list A) :
  Forall P l → length (filter P l) = length l.
Proof.
  induction 1 as [|x l Hx _ IH]; [done |].
  rewrite filter_cons_True by done. simpl. by rewrite IH.
Qed.

Lemma filter_length_none {A} (P : A → Prop) `{∀ x, Decision (P x)} (l : list A) :
  Forall (λ x, ¬ P x) l → length (filter P l) = 0%nat.
Proof.
  induction 1 as [|x l Hx _ IH]; [done |].
  by rewrite filter_cons_False.
Qed.

Lemma filter_length_missing {A} (P : A → Prop) `{∀ x, Decision (P x)}
    (l : list A) (x : A) :
  x ∈ l → ¬ P x → (length (filter P l) < length l)%nat.
Proof.
  intros Hx Hn. induction l as [|y l IH]; [by apply elem_of_nil in Hx |].
  pose proof (length_filter P l) as Hle.
  apply elem_of_cons in Hx as [<- | Hx].
  - rewrite filter_cons_False by done. simpl. lia.
  - specialize (IH Hx). destruct (decide (P y)).
    + rewrite filter_cons_True by done. simpl. lia.
    + rewrite filter_cons_False by done. simpl. lia.
Qed.

(** X3. Priority is strict: while at least [batch_size] pending requests
    are more urgent than priority [p], the batch that is drawn holds only
    requests more urgent than [p], and every pending request of priority [p]
    or less stays in the queue, whenever it was submitted. *)
Theorem X3_lower_priority_waits :
  ∀ (bs p : Z) (q : pq) (urgent others : list InferenceRequest),
    pq_elements q ≡ₚ urgent ++ others →
    Forall (λ r, p < priority r) urgent →
    bs ≤ Z.of_nat (length urgent) →
    Forall (λ r, p < priority r) (pull_batch bs q).2
    ∧ (∀ r, r ∈ pq_elements q → priority r ≤ p →
         r ∈ pq_elements (pull_batch bs q).1).
Proof.
  intros bs p q urgent others Hq Hurgent Hbs.
  destruct (pull_batch_spec bs q) as (Hperm & _ & Hrest & _).
  pose proof (pull_batch_length bs q) as Hlen.
  set (batch := (pull_batch bs q).2) in *.
  set (rest := pq_elements (pull_batch bs q).1) in *.
  assert (Forall (λ r, p < priority r) batch) as Hbatch.
  { apply Forall_forall. intros x Hx.
    destruct (decide (p < priority x)) as [| Hlow]; [done | exfalso].
    assert (length (filter (λ r, p < priority r) rest) = 0%nat) as Hnone.
    { apply filter_length_none, Forall_forall. intros y Hy.
      specialize (Hrest x y Hx Hy). lia. }
    pose proof (filter_length_missing (λ r, p < priority r) batch x Hx Hlow)
      as Hmiss.
    pose proof (length_filter (λ r, p < priority r) others) as Hothers.
    assert (length (filter (λ r, p < priority r) (batch ++ rest))
            = length (filter (λ r, p < priority r) (urgent ++ others))) as Hcount.
    { by rewrite <- Hperm, Hq. }
    rewrite !filter_app, !length_app, Hnone in Hcount.
    rewrite (filter_length_all _ urgent Hurgent) in Hcount.
    lia. }
  split; [done |].
  intros r Hr Hlow. rewrite Hperm in Hr.
  apply elem_of_app in Hr as [Hr | Hr]; [| done].
  rewrite Forall_forall in Hbatch. specialize (Hbatch r Hr). lia.
Qed.

(** ** The runs *)

Lemma all_pending_nil (ws : list worker_pc) :
  (∀ w pc, ws !! w = Some pc → pending pc = []) → flat_map pending ws = [].
Proof.
  induction ws as [|pc ws IH]; intros Hall; simpl; [done |].
  rewrite (Hall 0%nat pc eq_refl). simpl. apply IH.
  intros w pc' Hw. by apply (Hall (Datatypes.S w)).
Qed.

Lemma recorded_lengths (bs : Z) (rec : list (Q * list InferenceRequest)) :
  Forall (λ tb, 1 ≤ Z.of_nat (length tb.2) ≤ bs) rec →
  Z.of_nat (length rec) ≤ Z.of_nat (length (flat_map snd rec))
  ∧ Z.of_nat (length (flat_map snd rec)) ≤ bs * Z.of_nat (length rec).
Proof.
  induction 1 as [|[t b] rec Hb _ IH]; simpl in *; [lia |].
  rewrite length_app. lia.
Qed.

Lemma submitted_length (ls : list label) (S0 S : System) :
  run ls S0 = Some S → submitted S0 = [] →
  length (submitted S) = length (enqueued ls).
Proof.
  intros Hrun He. destruct (run_submitted ls _ _ Hrun) as (new & Hsub & Hnew).
  rewrite He in Hsub. simpl in Hsub. rewrite Hsub.
  by apply Forall2_length in Hnew.
Qed.

(** X4. With a batch size of at least 1 a worker never leaves the scope of
    [lk] with an empty batch, so the test of l.135 never sends it round
    again: a worker that holds [mu_] has found the queue non-empty or the
    shutdown flag set, nothing changes either while it holds the mutex, and
    its next action, while the process runs, is to return or to leave with
    at least one request. *)
Theorem X4_no_empty_batch :
  ∀ (nw bs : Z) (t0 : Q) (ls : list label) (S : System),
    1 ≤ bs →
    run ls (boot nw bs t0) = Some S →
    (∀ w, workers_ (sched S) !! w ≠ Some (Batched []))
    ∧ (∀ w, workers_ (sched S) !! w = Some Draining →
         pq_empty (queue_ (sched S)) = false ∨ shutdown_ (sched S) = true)
    ∧ (∀ w, workers_ (sched S) !! w = Some Draining →
         main_pc S ≠ Terminated →
         ∃ S', step (Work w) S = Some S'
               ∧ (workers_ (sched S') !! w = Some Exited
                  ∨ ∃ r b, workers_ (sched S') !! w = Some (Batched (r :: b)))).
Proof.
  intros nw bs t0 ls S Hbs Hrun.
  destruct (run_history_invariant nw bs t0 ls S Hrun) as [Hinv Hh].
  assert (∀ S1, invariant nw bs S1 → history_invariant S1 →
            ∀ w, workers_ (sched S1) !! w ≠ Some (Batched [])) as Hnot.
  { intros S1 Hinv1 Hh1 w Hw. apply (hinv_batched _ Hh1) in Hw.
    rewrite (inv_batch_size _ _ _ Hinv1) in Hw. lia. }
  split_and!.
  - by apply Hnot.
  - apply (hinv_draining _ Hh).
  - intros w Hw Hterm.
    destruct (draining_releases w S Hw) as (S' & Hstep & _).
    exists S'. rewrite work_step by done. split; [done |].
    pose proof (worker_step_invariant nw bs w S S' Hinv Hstep) as Hinv'.
    pose proof (worker_step_history_invariant nw bs w S S' Hinv Hh Hstep) as Hh'.
    specialize (Hnot S' Hinv' Hh' w).
    unfold worker_step in Hstep. rewrite Hw in Hstep.
    assert (w < length (workers_ (sched S)))%nat as Hlt
      by (by eapply lookup_lt_Some).
    destruct (shutdown_ (sched S) && pq_empty (queue_ (sched S))).
    + simplify_eq. left. simpl. by apply list_lookup_insert_eq.
    + destruct (pull_batch _ _) as [queue' batch]. simplify_eq. right.
      simpl in *. rewrite list_lookup_insert_eq in Hnot by done.
      destruct batch as [|r b]; [done |].
      exists r, b. by apply list_lookup_insert_eq.
Qed.

(** X5. With a batch size that is not positive nothing is ever processed:
    in every state of every run no batch has been recorded, there is no
    latency sample, the processed count is 0 and every submitted request is
    still in the queue; and once a request has been submitted to a scheduler
    with at least one worker, [shutdown()] never returns. *)
Theorem X5_nonpositive_batch_size_processes_nothing :
  ∀ (nw bs : Z) (t0 : Q) (ls : list label) (S : System),
    bs ≤ 0 →
    run ls (boot nw bs t0) = Some S →
    recorded S = []
    ∧ latencies_ (sched S) = []
    ∧ total_processed_ (sched S) = 0
    ∧ pq_elements (queue_ (sched S)) ≡ₚ submitted S
    ∧ (1 ≤ nw → enqueued ls ≠ [] → main_pc S ≠ Joined).
Proof.
  intros nw bs t0 ls S Hbs Hrun.
  destruct (run_history_invariant nw bs t0 ls S Hrun) as [Hinv Hh].
  destruct (run_batch_invariant nw bs t0 ls S Hrun) as [_ Hheld Hrec _].
  assert (recorded S = []) as Hnone.
  { destruct (recorded S) as [|tb rec]; [done |].
    apply Forall_cons in Hrec as [? _]. lia. }
  assert (sum_uncounted (workers_ (sched S)) = 0) as Hunc.
  { pose proof (hinv_uncounted _ Hh) as Hle. rewrite Hnone in Hle.
    pose proof (sum_uncounted_nonneg (workers_ (sched S))). simpl in Hle. lia. }
  assert (flat_map pending (workers_ (sched S)) = []) as Hpend.
  { apply all_pending_nil. intros w pc Hw.
    assert (pc = Starting ∨ pc ≠ Starting) as [-> | Hpc];
      [destruct pc; (by left) || (by right) | done |].
    destruct (Hheld w pc Hw Hpc) as [Hle _].
    assert (held pc = []) as Hnil by (apply length_zero_iff_nil; lia).
    by destruct pc. }
  assert (pq_elements (queue_ (sched S)) ≡ₚ submitted S) as Hqueue.
  { rewrite (inv_conserve _ _ _ Hinv), Hpend, Hnone. simpl.
    by rewrite app_nil_r. }
  split_and!; try done.
  - by rewrite (inv_latencies _ _ _ Hinv), Hnone.
  - by rewrite (inv_count _ _ _ Hinv), Hnone, Hunc.
  - intros Hnw Hreq Hm.
    destruct (joined_state nw bs S Hinv Hnw Hm) as (_ & Hperm & _).
    rewrite Hnone in Hperm. simpl in Hperm. apply Permutation_nil_r in Hperm.
    apply Hreq, length_zero_iff_nil.
    rewrite <- (submitted_length ls _ S Hrun eq_refl). by rewrite Hperm.
Qed.

Lemma step_start_time (l : label) (S S' : System) :
  step l S = Some S' → start_time_ (sched S') = start_time_ (sched S).
Proof.
  destruct l as [d|req| | |w]; simpl; unfold worker_step; intros Hstep;
    repeat (case_match; simplify_eq/=; try done).
Qed.

Lemma run_start_time (ls : list label) :
  ∀ S S', run ls S = Some S' → start_time_ (sched S') = start_time_ (sched S).
Proof.
  induction ls as [|l ls IH]; intros S S' Hrun; simpl in Hrun.
  - by simplify_eq.
  - destruct (step l S) as [S1|] eqn:Hstep; [| done].
    rewrite (IH _ _ Hrun). by eapply step_start_time.
Qed.

Lemma recorded_submitted (nw bs : Z) (S : System) (t : Q)
    (b : list InferenceRequest) (r : InferenceRequest) :
  invariant nw bs S → (t, b) ∈ recorded S → r ∈ b → r ∈ submitted S.
Proof.
  intros Hinv Hb Hr. rewrite (inv_conserve _ _ _ Hinv).
  apply elem_of_app. right. apply elem_of_app. right.
  apply list_elem_of_In, in_flat_map. exists (t, b).
  split; by apply list_elem_of_In.
Qed.

Lemma latencies_within (nw bs : Z) (S : System) :
  invariant nw bs S → history_invariant S →
  Forall (λ x, (0 <= x)%Q ∧ (x <= clock S - start_time_ (sched S))%Q)
    (latencies_ (sched S)).
Proof.
  intros Hinv Hh. rewrite (inv_latencies _ _ _ Hinv).
  apply Forall_forall. intros x Hx.
  apply list_elem_of_In, in_flat_map in Hx as ([t b] & Htb & Hx).
  apply list_elem_of_In in Htb. simpl in Hx.
  apply in_map_iff in Hx as (r & <- & Hr). apply list_elem_of_In in Hr.
  pose proof (hinv_recorded _ Hh) as Hrec.
  rewrite Forall_forall in Hrec. destruct (Hrec _ Htb) as [Ht Hb].
  rewrite Forall_forall in Hb. specialize (Hb r Hr). simpl in *.
  pose proof (hinv_submitted _ Hh) as Hsub. rewrite Forall_forall in Hsub.
  destruct (Hsub r (recorded_submitted nw bs S t b r Hinv Htb Hr)) as [Hs _].
  split.
  - by apply -> Qle_minus_iff.
  - apply Qplus_le_compat; [done |]. by apply Qopp_le_compat.
Qed.

Lemma pct_within (lat : list Q) (lo hi p : Q) :
  (lo <= 0)%Q → (0 <= hi)%Q →
  Forall (λ x, (lo <= x)%Q ∧ (x <= hi)%Q) lat →
  (lo <= pct (std_sort lat) p)%Q ∧ (pct (std_sort lat) p <= hi)%Q.
Proof.
  intros Hlo Hhi Hall. destruct (decide (lat = [])) as [-> | Hne]; [done |].
  rewrite Forall_forall in Hall. apply Hall.
  apply std_sort_elem_of, pct_elem_of. by rewrite std_sort_nil.
Qed.

(** X6. The clock readings are in order: the start time is the reading at
    [start()], no enqueue time is before it or after the present reading,
    and the completion time of a recorded batch is not before the enqueue
    time of any of its requests.  So no latency sample is negative or
    longer than the elapsed time, and the same holds for the elapsed time
    and the three percentiles of a report printed at that moment. *)
Theorem X6_latencies_nonnegative :
  ∀ (nw bs : Z) (t0 : Q) (ls : list label) (S : System),
    run ls (boot nw bs t0) = Some S →
    start_time_ (sched S) = t0
    ∧ (t0 <= now_ms S)%Q
    ∧ Forall (λ r, (t0 <= enqueue_time_ms r)%Q
                   ∧ (enqueue_time_ms r <= now_ms S)%Q) (submitted S)
    ∧ Forall (λ tb, (tb.1 <= now_ms S)%Q
                    ∧ Forall (λ r, (enqueue_time_ms r <= tb.1)%Q) tb.2)
        (recorded S)
    ∧ Forall (λ x, (0 <= x)%Q ∧ (x <= now_ms S - t0)%Q) (latencies_ (sched S))
    ∧ (0 <= st_elapsed (print_stats (now_ms S) (sched S)))%Q
    ∧ (∀ p, (0 <= pct (std_sort (latencies_ (sched S))) p)%Q
            ∧ (pct (std_sort (latencies_ (sched S))) p
               <= st_elapsed (print_stats (now_ms S) (sched S)))%Q).
Proof.
  intros nw bs t0 ls S Hrun.
  destruct (run_history_invariant nw bs t0 ls S Hrun) as [Hinv Hh].
  pose proof (run_start_time ls _ _ Hrun) as Hstart. simpl in Hstart.
  pose proof (hinv_start _ Hh) as Hle.
  pose proof (hinv_submitted _ Hh) as Hsub.
  pose proof (latencies_within nw bs S Hinv Hh) as Hlat.
  rewrite Hstart in Hle, Hsub, Hlat.
  assert (0 <= clock S - t0)%Q as Hel by (by apply -> Qle_minus_iff).
  unfold print_stats, now_ms. simpl. rewrite Hstart.
  split_and!; try done.
  - apply (hinv_recorded _ Hh).
  - intros p. by apply pct_within; [apply Qle_refl | |].
Qed.

(** X7. The processed count never runs ahead of the latency samples: a
    worker appends the samples of a batch under [lat_mu_] and adds to the
    count afterwards (l.146-153).  In every state of a run with at most
    [INT_MAX] submissions the count is the number of samples less the
    requests of the batches that are between the two actions; it lies
    between 0 and the number of samples, which is at most the number of
    requests submitted. *)
Theorem X7_processed_count_lags_samples :
  ∀ (nw bs : Z) (t0 : Q) (ls : list label) (S : System),
    Z.of_nat (length (enqueued ls)) ≤ INT_MAX →
    run ls (boot nw bs t0) = Some S →
    total_processed_ (sched S)
    = Z.of_nat (length (latencies_ (sched S))) - sum_uncounted (workers_ (sched S))
    ∧ 0 ≤ total_processed_ (sched S) ≤ Z.of_nat (length (latencies_ (sched S)))
    ∧ (length (latencies_ (sched S)) ≤ length (enqueued ls))%nat
    ∧ ((∀ w b, workers_ (sched S) !! w ≠ Some (Counting b)) →
         total_processed_ (sched S) = Z.of_nat (length (latencies_ (sched S)))).
Proof.
  intros nw bs t0 ls S Hmax Hrun.
  destruct (run_history_invariant nw bs t0 ls S Hrun) as [Hinv Hh].
  pose proof (hinv_uncounted _ Hh) as Hunc.
  pose proof (sum_uncounted_nonneg (workers_ (sched S))) as Hnn.
  pose proof (submitted_length ls _ S Hrun eq_refl) as Hsub.
  pose proof (Permutation_length (inv_conserve _ _ _ Hinv)) as Hcons.
  rewrite !length_app in Hcons.
  assert (length (latencies_ (sched S)) = length (flat_map snd (recorded S)))
    as Hlat by (by rewrite (inv_latencies _ _ _ Hinv), latencies_length).
  assert (total_processed_ (sched S)
          = Z.of_nat (length (latencies_ (sched S)))
            - sum_uncounted (workers_ (sched S))) as Hcount.
  { rewrite (inv_count _ _ _ Hinv), Hlat. apply wrap_int_id.
    unfold in_int_range, INT_MIN, INT_MAX in *. lia. }
  split_and!; try lia.
  intros Hnone. rewrite Hcount.
  assert (sum_uncounted (workers_ (sched S)) = 0) as ->; [| lia].
  clear -Hnone. induction (workers_ (sched S)) as [|pc ws IH]; simpl; [done |].
  rewrite IH.
  - destruct pc; simpl; try done. by destruct (Hnone 0%nat batch).
  - intros w b. apply (Hnone (Datatypes.S w) b).
Qed.

(** X8. No request is lost or taken twice at any moment: in every state of
    every run the requests submitted so far are, each exactly once, in the
    queue, in the local batch of one worker that has not recorded it yet, or
    in one recorded batch; the latency samples are those of the recorded
    batches, one per request, in the order of recording. *)
Theorem X8_requests_conserved :
  ∀ (nw bs : Z) (t0 : Q) (ls : list label) (S : System),
    run ls (boot nw bs t0) = Some S →
    submitted S
      ≡ₚ pq_elements (queue_ (sched S))
         ++ flat_map pending (workers_ (sched S))
         ++ flat_map snd (recorded S)
    ∧ latencies_ (sched S)
      = flat_map (λ tb, batch_latencies tb.1 tb.2) (recorded S)
    ∧ (length (pq_elements (queue_ (sched S)))
       + length (flat_map pending (workers_ (sched S)))
       + length (latencies_ (sched S)))%nat
      = length (enqueued ls).
Proof.
  intros nw bs t0 ls S Hrun.
  pose proof (run_invariant nw bs ls _ _ (boot_invariant nw bs t0) Hrun) as Hinv.
  pose proof (submitted_length ls _ S Hrun eq_refl) as Hsub.
  pose proof (Permutation_length (inv_conserve _ _ _ Hinv)) as Hcons.
  rewrite !length_app in Hcons.
  split_and!.
  - apply (inv_conserve _ _ _ Hinv).
  - apply (inv_latencies _ _ _ Hinv).
  - rewrite (inv_latencies _ _ _ Hinv), latencies_length. lia.
Qed.

(** X9. A worker returns only after the shutdown flag was set and with the
    queue empty: while the main thread has not called [shutdown()] the flag
    is clear and every one of the [num_workers] threads is alive, and
    whenever a worker has returned nothing is queued.  When [shutdown()] has
    returned every worker has returned, both mutexes are free and no worker
    acts any more. *)
Theorem X9_workers_return_only_after_shutdown :
  ∀ (nw bs : Z) (t0 : Q) (ls : list label) (S : System),
    run ls (boot nw bs t0) = Some S →
    length (workers_ (sched S)) = Z.to_nat nw
    ∧ (main_pc S = Running → shutdown_ (sched S) = false)
    ∧ (shutdown_ (sched S) = false →
         ∀ w, workers_ (sched S) !! w ≠ Some Exited)
    ∧ (∀ w, workers_ (sched S) !! w = Some Exited →
         pq_elements (queue_ (sched S)) = [])
    ∧ (main_pc S = Joined →
         Forall (λ pc, pc = Exited) (workers_ (sched S))
         ∧ mu_ (sched S) = None
         ∧ lat_mu_ (sched S) = None
         ∧ ∀ w, step (Work w) S = None).
Proof.
  intros nw bs t0 ls S Hrun.
  pose proof (run_invariant nw bs ls _ _ (boot_invariant nw bs t0) Hrun) as Hinv.
  split_and!.
  - apply (inv_threads _ _ _ Hinv).
  - apply (inv_running _ _ _ Hinv).
  - intros Hsd w Hw. destruct (inv_exited _ _ _ Hinv w Hw) as [Hsd' _].
    congruence.
  - intros w Hw. by destruct (inv_exited _ _ _ Hinv w Hw).
  - intros Hm. pose proof (inv_joined _ _ _ Hinv Hm) as Hall.
    rewrite Forall_lookup in Hall.
    split_and!.
    + by apply Forall_lookup.
    + destruct (mu_ (sched S)) as [w|] eqn:Hmu; [| done].
      apply (inv_mu _ _ _ Hinv) in Hmu. by specialize (Hall w _ Hmu).
    + destruct (lat_mu_ (sched S)) as [w|] eqn:Hmu; [| done].
      apply (inv_lat_mu _ _ _ Hinv) in Hmu as (b & t & Hw).
      by specialize (Hall w _ Hw).
    + intros w. by apply (joined_no_step nw bs).
Qed.

(** X10. Every recorded batch holds between 1 and [batch_size] requests, so
    in every state of every run the number of latency samples is between
    the number of batches recorded and [batch_size] times that number: to
    process [n] requests the workers record at least [n / batch_size]
    batches and at most [n]. *)
Theorem X10_batches_needed :
  ∀ (nw bs : Z) (t0 : Q) (ls : list label) (S : System),
    run ls (boot nw bs t0) = Some S →
    Z.of_nat (length (recorded S)) ≤ Z.of_nat (length (latencies_ (sched S)))
    ∧ Z.of_nat (length (latencies_ (sched S)))
      ≤ bs * Z.of_nat (length (recorded S))
    ∧ (1 ≤ nw → main_pc S = Joined →
         Z.of_nat (length (recorded S)) ≤ Z.of_nat (length (enqueued ls))
         ∧ Z.of_nat (length (enqueued ls)) ≤ bs * Z.of_nat (length (recorded S))).
Proof.
  intros nw bs t0 ls S Hrun.
  pose proof (run_invariant nw bs ls _ _ (boot_invariant nw bs t0) Hrun) as Hinv.
  destruct (run_batch_invariant nw bs t0 ls S Hrun) as [_ _ Hrec _].
  destruct (recorded_lengths bs _ Hrec) as [Hlo Hhi].
  assert (length (latencies_ (sched S)) = length (flat_map snd (recorded S)))
    as Hlat by (by rewrite (inv_latencies _ _ _ Hinv), latencies_length).
  rewrite Hlat. split_and!; try done.
  intros Hnw Hm.
  destruct (joined_state nw bs S Hinv Hnw Hm) as (_ & Hperm & _).
  rewrite <- (submitted_length ls _ S Hrun eq_refl).
  by rewrite (Permutation_length Hperm).
Qed.

(** ** The report *)

(** X11. The percentiles of a report are in order, p50 <= p95 <= p99, and
    with at least one sample each of them is one of the samples (no value is
    interpolated); more generally [pct] over the sorted samples is monotone
    in the rank.  The number of samples is within the range of [size_t]. *)
Theorem X11_percentiles_ordered :
  ∀ (now : Q) (s : InferenceScheduler),
    Z.of_nat (length (latencies_ s)) < 2 ^ 64 →
    (st_p50 (print_stats now s) <= st_p95 (print_stats now s))%Q
    ∧ (st_p95 (print_stats now s) <= st_p99 (print_stats now s))%Q
    ∧ (latencies_ s ≠ [] →
         st_p50 (print_stats now s) ∈ latencies_ s
         ∧ st_p95 (print_stats now s) ∈ latencies_ s
         ∧ st_p99 (print_stats now s) ∈ latencies_ s)
    ∧ (∀ p p', (0 <= p)%Q → (p <= p')%Q → (p' < 1)%Q →
         (pct (std_sort (latencies_ s)) p
          <= pct (std_sort (latencies_ s)) p')%Q).
Proof.
  intros now s Hsize.
  assert (∀ p p', (0 <= p)%Q → (p <= p')%Q → (p' < 1)%Q →
            (pct (std_sort (latencies_ s)) p
             <= pct (std_sort (latencies_ s)) p')%Q) as Hmono.
  { intros p p' H0 Hpp H1. apply pct_mono; [done | done |].
    apply rank_below_one; [by apply (Qle_trans _ p) | done | done]. }
  unfold print_stats. simpl. split_and!.
  - by apply Hmono.
  - by apply Hmono.
  - intros Hne.
    split_and!; apply std_sort_elem_of, pct_elem_of; by rewrite std_sort_nil.
  - done.
Qed.

Lemma elem_of_nth (l : list Q) (x : Q) :
  x ∈ l → ∃ j, (j < length l)%nat ∧ nth j l 0%Q = x.
Proof.
  intros Hx. apply list_elem_of_In in Hx.
  destruct (In_nth l x 0%Q Hx) as (j & Hj & Hn). by exists j.
Qed.

(** X12. [pct] never reads outside the sorted samples.  For a non-empty
    sample set and a rank [p >= 0] whose product with the number of samples
    is within the range of [size_t], the index [min (floor (p * N)) (N - 1)]
    is an index of the sequence and the result is one of the samples; for
    every rank [p >= 1] the index is [N - 1] and the result the greatest
    sample, and for rank 0 it is the least sample. *)
Theorem X12_rank_clamped_to_last_sample :
  ∀ (lat : list Q) (p : Q),
    lat ≠ [] → (0 <= p)%Q →
    Qfloor (p * inject_Z (Z.of_nat (length lat))) < 2 ^ 64 →
    (rank_index (length lat) p < length lat)%nat
    ∧ Z.of_nat (rank_index (length lat) p)
      = Z.min (Qfloor (p * inject_Z (Z.of_nat (length lat))))
              (Z.of_nat (length lat) - 1)
    ∧ pct (std_sort lat) p = nth (rank_index (length lat) p) (std_sort lat) 0%Q
    ∧ pct (std_sort lat) p ∈ lat
    ∧ ((1 <= p)%Q →
         rank_index (length lat) p = (length lat - 1)%nat
         ∧ ∀ x, x ∈ lat → (x <= pct (std_sort lat) p)%Q)
    ∧ (∀ x, x ∈ lat → (pct (std_sort lat) 0 <= x)%Q).
Proof.
  intros lat p Hne Hp Hlt.
  assert (0 < length lat)%nat as Hpos by (destruct lat; [done | simpl; lia]).
  assert (std_sort lat ≠ []) as Hne' by (by rewrite std_sort_nil).
  pose proof (rank_index_lt (length lat) p Hpos) as Hidx.
  pose proof (rank_index_floor (length lat) p Hp Hlt) as Hfloor.
  assert (0 ≤ Qfloor (p * inject_Z (Z.of_nat (length lat)))) as Hnn.
  { change 0 with (Qfloor 0). apply Qfloor_resp_le.
    apply Qmult_le_0_compat; [done |].
    change 0%Q with (inject_Z 0). rewrite <- Zle_Qle. lia. }
  assert (∀ p', pct (std_sort lat) p'
                = nth (rank_index (length lat) p') (std_sort lat) 0%Q) as Hpct.
  { intros p'. by rewrite pct_nth, std_sort_length. }
  split_and!.
  - done.
  - rewrite Hfloor. lia.
  - apply Hpct.
  - by apply std_sort_elem_of, pct_elem_of.
  - intros H1.
    assert (Z.of_nat (length lat)
            ≤ Qfloor (p * inject_Z (Z.of_nat (length lat)))) as Hge.
    { rewrite <- (Qfloor_Z (Z.of_nat (length lat))) at 1.
      apply Qfloor_resp_le.
      rewrite <- (Qmult_1_l (inject_Z (Z.of_nat (length lat)))) at 1.
      apply Qmult_le_compat_r; [done |].
      change 0%Q with (inject_Z 0). rewrite <- Zle_Qle. lia. }
    assert (rank_index (length lat) p = (length lat - 1)%nat) as Hlast
      by (rewrite Hfloor; lia).
    split; [done |]. intros x Hx.
    assert (x ∈ std_sort lat) as Hx' by (by rewrite std_sort_perm).
    destruct (elem_of_nth _ _ Hx') as (j & Hj & <-).
    rewrite Hpct, Hlast. rewrite std_sort_length in Hj.
    apply sorted_nth_le; [apply std_sort_sorted | lia |].
    rewrite std_sort_length. lia.
  - intros x Hx.
    assert (x ∈ std_sort lat) as Hx' by (by rewrite std_sort_perm).
    destruct (elem_of_nth _ _ Hx') as (j & Hj & <-).
    rewrite Hpct.
    apply sorted_nth_le; [apply std_sort_sorted | | done].
    assert (rank_index (length lat) 0 = 0%nat) as ->; [| lia].
    unfold rank_index, static_cast_size_t, Qtrunc. simpl.
    rewrite Z.quot_0_l by lia. rewrite Z.mod_0_l by lia. lia.
Qed.

(** X13. The report does not depend on the order in which the workers
    recorded their samples: two sample sequences that are permutations of
    each other give the same percentile for every rank, and so the same
    p50, p95 and p99. *)
Theorem X13_report_independent_of_recording_order :
  ∀ (now : Q) (s1 s2 : InferenceScheduler),
    latencies_ s1 ≡ₚ latencies_ s2 →
    (st_p50 (print_stats now s1) == st_p50 (print_stats now s2))%Q
    ∧ (st_p95 (print_stats now s1) == st_p95 (print_stats now s2))%Q
    ∧ (st_p99 (print_stats now s1) == st_p99 (print_stats now s2))%Q
    ∧ (∀ p, (pct (std_sort (latencies_ s1)) p
             == pct (std_sort (latencies_ s2)) p)%Q).
Proof.
  intros now s1 s2 Hperm. unfold print_stats. simpl.
  split_and!; try intros p; by apply pct_perm.
Qed.

(** ** enqueue after shutdown *)

Lemma exited_run (ls : list label) :
  ∀ S S',
    Forall (λ pc, pc = Exited) (workers_ (sched S)) →
    Forall (λ l, is_worker_or_clock l = true) ls →
    run ls S = Some S' → sched S' = sched S.
Proof.
  induction ls as [|l ls IH]; intros S S' Hall Hls Hrun; simpl in Hrun.
  - by simplify_eq.
  - apply Forall_cons in Hls as [Hl Hls].
    destruct (step l S) as [S1|] eqn:Hstep; [| done].
    assert (sched S1 = sched S) as Heq.
    { destruct l as [d|req| | |w]; simpl in Hstep; try done.
      - destruct (main_pc S); try done.
        all: destruct (Qle_bool 0 d); by simplify_eq.
      - assert (worker_step w S = None) as Hnone.
        { unfold worker_step.
          destruct (workers_ (sched S) !! w) as [pc|] eqn:Hw; [| done].
          rewrite Forall_lookup in Hall. by rewrite (Hall w pc Hw). }
        rewrite Hnone in Hstep. by destruct (main_pc S). }
    rewrite <- Heq. apply IH; [by rewrite Heq | done | done].
Qed.

(** X14. [enqueue] does not look at the shutdown flag.  Called after the
    workers have returned (after [shutdown()]) it stamps and queues the
    request as always, and the request is never processed: no worker can
    act, so whatever time passes the queue keeps the request and no sample
    is added. *)
Theorem X14_enqueue_after_shutdown_is_never_processed :
  ∀ (S : System) (req : InferenceRequest),
    Forall (λ pc, pc = Exited) (workers_ (sched S)) →
    stamp (now_ms S) req
      ∈ pq_elements (queue_ (enqueue (now_ms S) req (sched S)))
    ∧ (∀ w, worker_step w (set_sched (enqueue (now_ms S) req (sched S)) S) = None)
    ∧ (∀ ls S',
         Forall (λ l, is_worker_or_clock l = true) ls →
         run ls (set_sched (enqueue (now_ms S) req (sched S)) S) = Some S' →
         sched S' = enqueue (now_ms S) req (sched S)
         ∧ latencies_ (sched S') = latencies_ (sched S)
         ∧ total_processed_ (sched S') = total_processed_ (sched S)).
Proof.
  intros S req Hall. split_and!.
  - unfold enqueue. simpl. rewrite pq_push_spec. by left.
  - intros w. unfold worker_step. simpl.
    destruct (workers_ (sched S) !! w) as [pc|] eqn:Hw; [| done].
    rewrite Forall_lookup in Hall. by rewrite (Hall w pc Hw).
  - intros ls S' Hls Hrun.
    apply exited_run in Hrun; [| done | done]. by rewrite Hrun.
Qed.

(** ** main *)

(** *** The command line *)

(** The loop of l.188-193 moves on by one argument or by two. *)
Lemma parse_args_ind (P : list string → Prop) :
  P [] → (∀ a, P [a]) →
  (∀ a v rest, P rest → P (v :: rest) → P (a :: v :: rest)) →
  ∀ args, P args.
Proof.
  intros Hnil Hone Hstep args.
  assert (P args ∧ ∀ a, P (a :: args)) as [? _]; [| done].
  induction args as [|v rest [IH1 IH2]]; [done |].
  split; [apply IH2 |]. intros a. by apply Hstep.
Qed.

Lemma flag_name_inj (f g : flag) : flag_name f = flag_name g → f = g.
Proof. by destruct f, g. Qed.

Lemma parse_args_flag (f : flag) (v : string) (rest : list string) (o : Options) :
  parse_args (flag_name f :: v :: rest) o
  = parse_args rest (set_option f (atoi v) o).
Proof. by destruct f. Qed.

Lemma parse_args_other (a v : string) (rest : list string) (o : Options) :
  (∀ f, a ≠ flag_name f) →
  parse_args (a :: v :: rest) o = parse_args (v :: rest) o.
Proof.
  intros Ha. simpl.
  destruct (String.eqb_spec a "--workers") as [-> | _];
    [by destruct (Ha Workers) |].
  destruct (String.eqb_spec a "--batch") as [-> | _];
    [by destruct (Ha Batch) |].
  destruct (String.eqb_spec a "--requests") as [-> | _];
    [by destruct (Ha Requests) |].
  done.
Qed.

Lemma flag_or_other (a : string) : (∃ f, a = flag_name f) ∨ (∀ f, a ≠ flag_name f).
Proof.
  destruct (String.eqb_spec a "--workers") as [-> | H1]; [left; by exists Workers |].
  destruct (String.eqb_spec a "--batch") as [-> | H2]; [left; by exists Batch |].
  destruct (String.eqb_spec a "--requests") as [-> | H3];
    [left; by exists Requests |].
  right. by intros [].
Qed.

Lemma option_of_set_option (f g : flag) (n : Z) (o : Options) :
  option_of f (set_option g n o) = if decide (f = g) then n else option_of f o.
Proof. destruct f, g; by case_decide. Qed.

(** X15. An option changes only through its own flag: for a command line
    in which the flag of an option does not occur, the loop of l.188-193
    leaves that option as it was, whatever else the command line holds; so
    arguments that are none of the three flags are passed over, a single
    argument (a flag without a value too) changes nothing, and without
    arguments [main] runs with 4 workers, batch size 8 and 200 requests. *)
Theorem X15_option_changes_only_by_its_flag :
  ∀ (args : list string) (o : Options),
    (∀ f, flag_name f ∉ args →
          option_of f (parse_args args o) = option_of f o)
    ∧ ((∀ f, flag_name f ∉ args) → parse_args args o = o)
    ∧ (∀ a, parse_args [a] o = o)
    ∧ (∀ prog, main_options [prog] = mkOptions 4 8 200)
    ∧ main_options [] = mkOptions 4 8 200.
Proof.
  intros args o.
  assert (∀ f args o, flag_name f ∉ args →
            option_of f (parse_args args o) = option_of f o) as Hkeep.
  { intros f. clear. intros args.
    induction args as [| a | a v rest IH1 IH2] using parse_args_ind;
      intros o Hf; [done | done |].
    apply not_elem_of_cons in Hf as [Ha Hf].
    destruct (flag_or_other a) as [[g ->] | Hother].
    - rewrite parse_args_flag, IH1.
      + rewrite option_of_set_option. case_decide; [by subst | done].
      + by apply not_elem_of_cons in Hf as [_ Hf].
    - rewrite parse_args_other by done. by apply IH2. }
  split_and!; try done.
  - intros f. apply Hkeep.
  - intros Hnone.
    pose proof (Hkeep Workers args o (Hnone Workers)) as Hw.
    pose proof (Hkeep Batch args o (Hnone Batch)) as Hb.
    pose proof (Hkeep Requests args o (Hnone Requests)) as Hr.
    simpl in *. destruct (parse_args args o), o. simpl in *. congruence.
Qed.

Lemma fold_options_keep (f : flag) (pairs : list (flag * string)) :
  ∀ o, f ∉ pairs.*1 →
    option_of f (fold_left (λ o fv, set_option fv.1 (atoi fv.2) o) pairs o)
    = option_of f o.
Proof.
  induction pairs as [|[g v] pairs IH]; intros o Hf; simpl; [done |].
  rewrite fmap_cons in Hf. apply not_elem_of_cons in Hf as [Hg Hf].
  rewrite IH by done. rewrite option_of_set_option. by case_decide.
Qed.

(** X16. On a command line of flags with their values, followed by at most
    one more argument, the options are set from left to right: the result
    is that of applying each flag's [atoi] value in order, so the last
    occurrence of a flag decides, an option without a flag keeps its value,
    and the argument left over at the end (a flag without a value) is not
    acted on. *)
Theorem X16_flags_apply_left_to_right :
  ∀ (pairs : list (flag * string)) (trailing : list string) (o : Options),
    (length trailing ≤ 1)%nat →
    parse_args (command_line pairs ++ trailing) o
    = fold_left (λ o fv, set_option fv.1 (atoi fv.2) o) pairs o
    ∧ (∀ f, f ∉ pairs.*1 →
         option_of f (parse_args (command_line pairs ++ trailing) o)
         = option_of f o)
    ∧ (∀ before f v after, pairs = before ++ (f, v) :: after → f ∉ after.*1 →
         option_of f (parse_args (command_line pairs ++ trailing) o) = atoi v).
Proof.
  intros pairs trailing o Htr.
  assert (∀ o, parse_args (command_line pairs ++ trailing) o
               = fold_left (λ o fv, set_option fv.1 (atoi fv.2) o) pairs o)
    as Hfold.
  { clear o. induction pairs as [|[f v] pairs IH]; intros o.
    - simpl. destruct trailing as [|a [|b trailing]]; [done | done |].
      simpl in Htr. lia.
    - change (command_line ((f, v) :: pairs) ++ trailing)
        with (flag_name f :: v :: (command_line pairs ++ trailing)).
      by rewrite parse_args_flag, IH. }
  split_and!.
  - apply Hfold.
  - intros f Hf. rewrite Hfold. by apply fold_options_keep.
  - intros before f v after -> Hf. rewrite Hfold, fold_left_app. simpl.
    rewrite fold_options_keep by done.
    rewrite option_of_set_option. by case_decide.
Qed.

(** X17. The value of a flag is whatever [atoi] reads, and nothing checks
    it: a value that starts with neither white space, a sign nor a digit is
    read as 0, the name of a flag in the place of a value is taken as the
    value (0) and not acted on as a flag, and every value read is an [int].
    So [--workers x] asks for 0 workers and [--batch x] for batch size 0. *)
Theorem X17_non_numeric_value_reads_as_zero :
  (∀ c s, isspace c = false → digit_value c = None →
          c ≠ "+"%char → c ≠ "-"%char → atoi (String c s) = 0)
  ∧ atoi EmptyString = 0
  ∧ (∀ f c s rest o, isspace c = false → digit_value c = None →
       c ≠ "+"%char → c ≠ "-"%char →
       parse_args (flag_name f :: String c s :: rest) o
       = parse_args rest (set_option f 0 o))
  ∧ (∀ f g rest o,
       parse_args (flag_name f :: flag_name g :: rest) o
       = parse_args rest (set_option f 0 o))
  ∧ (∀ s, in_int_range (atoi s)).
Proof.
  assert (∀ c s, isspace c = false → digit_value c = None →
            c ≠ "+"%char → c ≠ "-"%char → atoi (String c s) = 0) as Hzero.
  { intros c s Hs Hd Hp Hm. unfold atoi, leading_number. simpl. rewrite Hs.
    destruct c as [[] [] [] [] [] [] [] []]; try done. }
  split_and!.
  - done.
  - done.
  - intros f c s rest o Hs Hd Hp Hm.
    by rewrite parse_args_flag, Hzero.
  - intros f g rest o. rewrite parse_args_flag. by destruct g.
  - intros s. apply wrap_int_range.
Qed.

(** *** The requests *)

Lemma stamped_ids (l1 l2 : list InferenceRequest) :
  Forall2 stamped l1 l2 → id <$> l1 = id <$> l2.
Proof.
  induction 1 as [|r1 r2 l1 l2 [now ->] _ IH]; [done |].
  rewrite !fmap_cons, IH. done.
Qed.

(** X18. [main] numbers its requests: the loop of l.206-210 submits
    [num_requests] requests (none when that is not positive) whose
    identifiers are 0, 1, ... in the order of submission, all distinct,
    each with the priority and size drawn for it and the timestamp 0, which
    [enqueue] overwrites.  As [enqueue] keeps the identifier, the requests
    the scheduler holds in a run of [main] have distinct identifiers. *)
Theorem X18_main_requests_are_numbered :
  ∀ (prio_dist tok_dist : nat → Z) (n : Z),
    length (main_requests prio_dist tok_dist n) = Z.to_nat n
    ∧ (n ≤ 0 → main_requests prio_dist tok_dist n = [])
    ∧ (∀ i, (i < Z.to_nat n)%nat →
         main_requests prio_dist tok_dist n !! i
         = Some (mkRequest (Z.of_nat i) (prio_dist i) (tok_dist i) 0))
    ∧ id <$> main_requests prio_dist tok_dist n = Z.of_nat <$> seq 0 (Z.to_nat n)
    ∧ NoDup (id <$> main_requests prio_dist tok_dist n)
    ∧ (∀ nw bs t0 ls S,
         run ls (boot nw bs t0) = Some S →
         enqueued ls = main_requests prio_dist tok_dist n →
         id <$> submitted S = Z.of_nat <$> seq 0 (Z.to_nat n)
         ∧ NoDup (id <$> submitted S)).
Proof.
  intros prio_dist tok_dist n.
  assert (id <$> main_requests prio_dist tok_dist n
          = Z.of_nat <$> seq 0 (Z.to_nat n)) as Hids.
  { unfold main_requests. rewrite <- list_fmap_compose. done. }
  assert (NoDup (Z.of_nat <$> seq 0 (Z.to_nat n))) as Hnodup.
  { apply NoDup_fmap; [intros x y; apply Nat2Z.inj | apply NoDup_seq]. }
  split_and!.
  - unfold main_requests. by rewrite length_fmap, length_seq.
  - intros Hn. unfold main_requests.
    by replace (Z.to_nat n) with 0%nat by lia.
  - intros i Hi. unfold main_requests.
    rewrite list_lookup_fmap, lookup_seq_lt by done. done.
  - done.
  - by rewrite Hids.
  - intros nw bs t0 ls S Hrun Hreq.
    destruct (run_submitted ls _ _ Hrun) as (new & Hsub & Hnew).
    simpl in Hsub. rewrite <- Hsub in Hnew.
    rewrite (stamped_ids _ _ Hnew), Hreq, Hids. done.
Qed.

(** *** The run of main *)

Lemma main_requests_length (prio_dist tok_dist : nat → Z) (n : Z) :
  length (main_requests prio_dist tok_dist n) = Z.to_nat n.
Proof. unfold main_requests. by rewrite length_fmap, length_seq. Qed.

(** After [shutdown()] the counts are those of the requests of [main]. *)
Lemma main_counts (nw bs : Z) (t0 : Q) (prio_dist tok_dist : nat → Z) (n : Z)
    (ls : list label) (S : System) :
  1 ≤ nw → n ≤ INT_MAX →
  run ls (boot nw bs t0) = Some S →
  main_pc S = Joined →
  enqueued ls = main_requests prio_dist tok_dist n →
  num_workers_ (sched S) = nw
  ∧ batch_size_ (sched S) = bs
  ∧ total_processed_ (sched S) = Z.max 0 n
  ∧ length (latencies_ (sched S)) = Z.to_nat n.
Proof.
  intros Hnw Hn Hrun Hm Hreq.
  pose proof (run_invariant nw bs ls _ _ (boot_invariant nw bs t0) Hrun) as Hinv.
  destruct (joined_state nw bs S Hinv Hnw Hm) as (_ & _ & Hlat & Hcount).
  pose proof (submitted_length ls _ S Hrun eq_refl) as Hsub.
  rewrite Hreq, main_requests_length in Hsub.
  rewrite Hsub in Hlat, Hcount.
  split_and!.
  - apply (inv_num_workers _ _ _ Hinv).
  - apply (inv_batch_size _ _ _ Hinv).
  - rewrite Hcount, wrap_int_id; [lia |].
    unfold in_int_range, INT_MIN, INT_MAX in *. lia.
  - done.
Qed.

(** X19. What [main] prints.  In a run of [main] with at least one worker
    in which [shutdown()] has returned, the report shows the worker count
    and batch size as given, a processed count equal to the number of
    requests [main] submitted ([num_requests], or 0 when that is negative)
    with one latency sample for each, and percentiles that satisfy
    [0 <= p50 <= p95 <= p99 <= elapsed]; without requests the percentiles
    and the throughput are 0. *)
Theorem X19_main_report :
  ∀ (nw bs : Z) (t0 : Q) (prio_dist tok_dist : nat → Z) (n : Z)
    (ls : list label) (S : System),
    1 ≤ nw → n ≤ INT_MAX →
    run ls (boot nw bs t0) = Some S →
    main_pc S = Joined →
    enqueued ls = main_requests prio_dist tok_dist n →
    st_workers (print_stats (now_ms S) (sched S)) = nw
    ∧ st_batch_size (print_stats (now_ms S) (sched S)) = bs
    ∧ st_processed (print_stats (now_ms S) (sched S)) = Z.max 0 n
    ∧ length (latencies_ (sched S)) = Z.to_nat n
    ∧ (0 <= st_p50 (print_stats (now_ms S) (sched S)))%Q
    ∧ (st_p50 (print_stats (now_ms S) (sched S))
       <= st_p95 (print_stats (now_ms S) (sched S)))%Q
    ∧ (st_p95 (print_stats (now_ms S) (sched S))
       <= st_p99 (print_stats (now_ms S) (sched S)))%Q
    ∧ (st_p99 (print_stats (now_ms S) (sched S))
       <= st_elapsed (print_stats (now_ms S) (sched S)))%Q
    ∧ (n ≤ 0 →
         st_throughput (print_stats (now_ms S) (sched S)) = 0%Q
         ∧ st_p50 (print_stats (now_ms S) (sched S)) = 0%Q
         ∧ st_p95 (print_stats (now_ms S) (sched S)) = 0%Q
         ∧ st_p99 (print_stats (now_ms S) (sched S)) = 0%Q).
Proof.
  intros nw bs t0 prio_dist tok_dist n ls S Hnw Hn Hrun Hm Hreq.
  destruct (run_history_invariant nw bs t0 ls S Hrun) as [Hinv Hh].
  destruct (main_counts nw bs t0 prio_dist tok_dist n ls S Hnw Hn Hrun Hm Hreq)
    as (Hworkers & Hbatch & Hproc & Hlat).
  pose proof (latencies_within nw bs S Hinv Hh) as Hwithin.
  assert (0 <= clock S - start_time_ (sched S))%Q as Hel.
  { apply -> Qle_minus_iff. apply (hinv_start _ Hh). }
  assert (Z.of_nat (length (latencies_ (sched S))) < 2 ^ 64) as Hsize.
  { rewrite Hlat. unfold INT_MAX in Hn. lia. }
  assert (∀ p p', (0 <= p)%Q → (p <= p')%Q → (p' < 1)%Q →
            (pct (std_sort (latencies_ (sched S))) p
             <= pct (std_sort (latencies_ (sched S))) p')%Q) as Hmono.
  { intros p p' H0 Hpp H1. apply pct_mono; [done | done |].
    apply rank_below_one; [by apply (Qle_trans _ p) | done | done]. }
  unfold print_stats, now_ms. simpl.
  split_and!; try done.
  - by apply (pct_within _ 0 (clock S - start_time_ (sched S)));
      [apply Qle_refl | |].
  - by apply Hmono.
  - by apply Hmono.
  - by apply (pct_within _ 0 (clock S - start_time_ (sched S)));
      [apply Qle_refl | |].
  - intros Hle.
    assert (latencies_ (sched S) = []) as ->
      by (apply length_zero_iff_nil; lia).
    rewrite Hproc, bool_decide_eq_false_2 by lia. done.
Qed.

Lemma run_app (l1 l2 : list label) :
  ∀ S, run (l1 ++ l2) S
       = match run l1 S with Some S1 => run l2 S1 | None => None end.
Proof.
  induction l1 as [|l l1 IH]; intros S; simpl; [done |].
  destruct (step l S); [apply IH | done].
Qed.

Lemma enqueued_app (l1 l2 : list label) :
  enqueued (l1 ++ l2) = enqueued l1 ++ enqueued l2.
Proof. apply flat_map_app. Qed.

(** The main thread gets [mu_]: its holder, if any, releases it. *)
Lemma mutex_released (nw bs : Z) (S : System) :
  invariant nw bs S → main_pc S = Running →
  ∃ pre S1, run pre S = Some S1 ∧ enqueued pre = []
            ∧ invariant nw bs S1 ∧ main_pc S1 = Running
            ∧ mu_ (sched S1) = None.
Proof.
  intros Hinv Hm. destruct (mu_ (sched S)) as [w|] eqn:Hmu.
  - apply (inv_mu _ _ _ Hinv) in Hmu.
    destruct (draining_releases w S Hmu) as (S1 & Hstep & Hfree).
    exists [Work w], S1.
    assert (step (Work w) S = Some S1) as Hstep'
      by (rewrite work_step; [done | by rewrite Hm]).
    split_and!; try done.
    + cbn [run]. by rewrite Hstep'.
    + by apply (step_invariant nw bs (Work w) S).
    + unfold worker_step in Hstep. rewrite Hmu in Hstep.
      destruct (shutdown_ (sched S) && pq_empty (queue_ (sched S)));
        [by simplify_eq |].
      destruct (pull_batch _ _). by simplify_eq.
  - by exists [], S.
Qed.

Lemma submit_all (nw bs : Z) (reqs : list InferenceRequest) :
  ∀ S, invariant nw bs S → main_pc S = Running →
    ∃ ls S', run ls S = Some S' ∧ enqueued ls = reqs
             ∧ invariant nw bs S' ∧ main_pc S' = Running.
Proof.
  induction reqs as [|req reqs IH]; intros S Hinv Hm.
  - by exists [], S.
  - destruct (mutex_released nw bs S Hinv Hm)
      as (pre & S1 & Hpre & Hnone & Hinv1 & Hm1 & Hfree).
    destruct (step (Enqueue req) S1) as [S2|] eqn:Hstep;
      [| simpl in Hstep; by rewrite Hm1, Hfree in Hstep].
    assert (main_pc S2 = Running) as Hm2.
    { simpl in Hstep. rewrite Hm1, Hfree in Hstep. simpl in Hstep.
      by simplify_eq. }
    destruct (IH S2) as (ls & S' & Hrun & Henq & Hinv' & Hm');
      [by eapply step_invariant | done |].
    exists (pre ++ Enqueue req :: ls), S'.
    split_and!; try done.
    + rewrite run_app, Hpre. cbn [run]. by rewrite Hstep.
    + rewrite enqueued_app, Hnone. simpl. by rewrite Henq.
Qed.

Lemma stopped_no_enqueue (ls : list label) :
  ∀ S S', main_pc S ≠ Running → run ls S = Some S' → enqueued ls = [].
Proof.
  induction ls as [|l ls IH]; intros S S' Hm Hrun; simpl in Hrun; [done |].
  destruct (step l S) as [S1|] eqn:Hstep; [| done].
  assert (main_pc S1 ≠ Running ∧ enqueued [l] = []) as [Hm1 Hl].
  { destruct l as [d|req| | |w]; simpl in Hstep.
    - destruct (main_pc S) eqn:Hpc; try done.
      all: destruct (Qle_bool 0 d); by simplify_eq.
    - by destruct (main_pc S).
    - by destruct (main_pc S).
    - destruct (main_pc S); try done.
      destruct (forallb is_exited (workers_ (sched S))); by simplify_eq.
    - assert (worker_step w S = Some S1) as Hw
        by (by destruct (main_pc S)).
      apply worker_step_history in Hw as (_ & [Hsame | Ht] & _);
        split; by try congruence. }
  change (l :: ls) with ([l] ++ ls). rewrite enqueued_app, Hl. simpl.
  by apply (IH S1 S').
Qed.

(** From a state of the main thread before [shutdown()]: the submissions,
    the call and the drain. *)
Lemma finish_from (nw bs : Z) (S0 : System) (reqs : list InferenceRequest) :
  invariant nw bs S0 → 1 ≤ bs → reserve_ok nw bs → main_pc S0 = Running →
  ∃ ls S, run ls S0 = Some S ∧ main_pc S = Joined ∧ enqueued ls = reqs.
Proof.
  intros Hinv0 Hbs Hok Hm0.
  destruct (submit_all nw bs reqs S0 Hinv0 Hm0)
    as (ls1 & S1 & Hrun1 & Henq1 & Hinv1 & Hm1).
  destruct (mutex_released nw bs S1 Hinv1 Hm1)
    as (pre & S2 & Hpre & Hnone & Hinv2 & Hm2 & Hfree).
  destruct (step Shutdown S2) as [S3|] eqn:Hstep;
    [| simpl in Hstep; by rewrite Hm2, Hfree in Hstep].
  assert (main_pc S3 = Joining) as Hm3.
  { simpl in Hstep. rewrite Hm2, Hfree in Hstep. simpl in Hstep.
    by simplify_eq. }
  pose proof (step_invariant nw bs Shutdown S2 S3 Hinv2 Hstep) as Hinv3.
  destruct (drain_completes nw bs (measure S3) S3 Hinv3 Hbs Hok Hm3 ltac:(lia))
    as (ls4 & S4 & Hrun4 & Hm4 & _).
  assert (enqueued ls4 = []) as Hnone4.
  { apply (stopped_no_enqueue ls4 S3 S4); [by rewrite Hm3 | done]. }
  exists (ls1 ++ pre ++ Shutdown :: ls4), S4.
  split_and!; try done.
  - rewrite run_app, Hrun1, run_app, Hpre. cbn [run]. by rewrite Hstep.
  - rewrite !enqueued_app, Henq1, Hnone. simpl. by rewrite Hnone4, app_nil_r.
Qed.

(** X20. The main thread is never stuck.  With a batch size of at least 1
    and the allocation of [batch.reserve] served for every worker, every run
    in which [shutdown()] has not been called, whatever the workers are
    doing at that point, has a continuation in which the main thread submits
    any given further requests and calls [shutdown()], and [shutdown()]
    returns; with at least one worker every request of the whole run then
    has its latency sample. *)
Theorem X20_main_thread_can_always_finish :
  ∀ (nw bs : Z) (t0 : Q) (ls0 : list label) (S0 : System)
    (reqs : list InferenceRequest),
    1 ≤ bs →
    reserve_ok nw bs →
    run ls0 (boot nw bs t0) = Some S0 →
    main_pc S0 = Running →
    ∃ ls S,
      run (ls0 ++ ls) (boot nw bs t0) = Some S
      ∧ main_pc S = Joined
      ∧ enqueued ls = reqs
      ∧ (1 ≤ nw →
           length (latencies_ (sched S))
           = (length (enqueued ls0) + length reqs)%nat).
Proof.
  intros nw bs t0 ls0 S0 reqs Hbs Hok Hrun0 Hm0.
  pose proof (run_invariant nw bs ls0 _ _ (boot_invariant nw bs t0) Hrun0)
    as Hinv0.
  destruct (finish_from nw bs S0 reqs Hinv0 Hbs Hok Hm0)
    as (ls & S & Hrun1 & Hm & Henq).
  assert (run (ls0 ++ ls) (boot nw bs t0) = Some S) as Hrun
    by (by rewrite run_app, Hrun0).
  exists ls, S. split_and!; try done.
  intros Hnw.
  pose proof (run_invariant nw bs _ _ _ (boot_invariant nw bs t0) Hrun)
    as Hinv.
  destruct (joined_state nw bs S Hinv Hnw Hm) as (_ & _ & Hlat & _).
  rewrite Hlat, (submitted_length _ _ S Hrun eq_refl).
  by rewrite enqueued_app, length_app, Henq.
Qed.

Lemma parse_args_range (args : list string) :
  ∀ o, (∀ f, in_int_range (option_of f o)) →
       ∀ f, in_int_range (option_of f (parse_args args o)).
Proof.
  induction args as [| a | a v rest IH1 IH2] using parse_args_ind;
    intros o Ho; [done | done |].
  destruct (flag_or_other a) as [[g ->] | Hother].
  - rewrite parse_args_flag. apply IH1. intros f.
    rewrite option_of_set_option. case_decide; [apply wrap_int_range | done].
  - rewrite parse_args_other by done. by apply IH2.
Qed.

(** X25. The program from its command line to its report.  Whatever the
    command line, the three options [main] ends up with are in the range of
    [int].  When the worker count and the batch size it ends up with are at
    least 1 and the allocation of [batch.reserve] is served for every
    worker, the run of [main] can reach the end of [shutdown()]; and with a
    worker count of at least 1, in every run that reaches it the report
    shows that worker count and batch size and a processed count equal to
    the number of requests asked for (0 when that is negative), with one
    latency sample for each. *)
Theorem X25_main_end_to_end :
  ∀ (argv : list string) (prio_dist tok_dist : nat → Z) (t0 : Q),
    (∀ f, in_int_range (option_of f (main_options argv)))
    ∧ (1 ≤ num_workers (main_options argv) →
       1 ≤ batch_size (main_options argv) →
       reserve_ok (num_workers (main_options argv))
         (batch_size (main_options argv)) →
       ∃ ls S,
         run ls (boot (num_workers (main_options argv))
                   (batch_size (main_options argv)) t0) = Some S
         ∧ main_pc S = Joined
         ∧ enqueued ls
           = main_requests prio_dist tok_dist (num_requests (main_options argv)))
    ∧ (1 ≤ num_workers (main_options argv) →
       ∀ ls S,
         run ls (boot (num_workers (main_options argv))
                   (batch_size (main_options argv)) t0) = Some S →
         main_pc S = Joined →
         enqueued ls
         = main_requests prio_dist tok_dist (num_requests (main_options argv)) →
         st_workers (print_stats (now_ms S) (sched S))
         = num_workers (main_options argv)
         ∧ st_batch_size (print_stats (now_ms S) (sched S))
           = batch_size (main_options argv)
         ∧ st_processed (print_stats (now_ms S) (sched S))
           = Z.max 0 (num_requests (main_options argv))
         ∧ length (latencies_ (sched S))
           = Z.to_nat (num_requests (main_options argv))).
Proof.
  intros argv prio_dist tok_dist t0.
  assert (∀ f, in_int_range (option_of f (main_options argv))) as Hrange.
  { apply parse_args_range. intros []; vm_compute; split; discriminate. }
  split_and!.
  - done.
  - intros Hnw Hbs Hok.
    apply (finish_from _ _ _ _ (boot_invariant _ _ t0) Hbs Hok eq_refl).
  - intros Hnw ls S Hrun Hm Hreq.
    apply (main_counts _ _ t0 prio_dist tok_dist _ ls S); try done.
    by destruct (Hrange Requests).
Qed.

(** *** The cost of a batch *)

Lemma size_sum_bounds (lo hi : Z) (batch : list InferenceRequest) :
  Forall (λ r, lo ≤ token_count r ≤ hi) batch →
  lo * Z.of_nat (length batch) ≤ size_sum batch ≤ hi * Z.of_nat (length batch).
Proof.
  induction 1 as [|r batch Hr _ IH]; simpl; lia.
Qed.

(** X21. Sizes within bounds give a cost within bounds: a batch of [k]
    requests whose sizes are all between [lo] and [hi] (with [lo * k] and
    [hi * k] in the range of [int]) has a token total between [lo * k] and
    [hi * k] and a simulated cost between 0.02 ms times the one and
    0.02 ms times the other.  For the sizes [main] draws, 50 to 500, that
    is between 1 and 10 ms for each request of the batch. *)
Theorem X21_batch_cost_bounds :
  ∀ (lo hi : Z) (batch : list InferenceRequest),
    Forall (λ r, lo ≤ token_count r ≤ hi) batch →
    in_int_range (lo * Z.of_nat (length batch)) →
    in_int_range (hi * Z.of_nat (length batch)) →
    lo * Z.of_nat (length batch) ≤ total_tokens batch
    ∧ total_tokens batch ≤ hi * Z.of_nat (length batch)
    ∧ (inject_Z (lo * Z.of_nat (length batch)) * 0.02 <= sim_ms batch)%Q
    ∧ (sim_ms batch <= inject_Z (hi * Z.of_nat (length batch)) * 0.02)%Q
    ∧ (lo = 50 → hi = 500 →
         (inject_Z (Z.of_nat (length batch)) <= sim_ms batch)%Q
         ∧ (sim_ms batch <= 10 * inject_Z (Z.of_nat (length batch)))%Q).
Proof.
  intros lo hi batch Hall Hlo Hhi.
  pose proof (size_sum_bounds lo hi batch Hall) as [Hge Hle].
  assert (in_int_range (size_sum batch)) as Hrange.
  { unfold in_int_range in *. lia. }
  assert (total_tokens batch = size_sum batch) as Htot
    by (by rewrite total_tokens_wrap, wrap_int_id).
  assert (∀ a b : Z, a ≤ b → (inject_Z a * 0.02 <= inject_Z b * 0.02)%Q)
    as Hscale.
  { intros a b Hab. apply Qmult_le_compat_r; [by rewrite <- Zle_Qle | done]. }
  unfold sim_ms. rewrite Htot.
  split_and!; try done; try (by apply Hscale).
  intros -> ->. split.
  - eapply Qle_trans; [| apply (Hscale _ _ Hge)].
    unfold Qle, Qmult, inject_Z. simpl. lia.
  - eapply Qle_trans; [apply (Hscale _ _ Hle) |].
    unfold Qle, Qmult, inject_Z. simpl. lia.
Qed.

(** *** The two mutexes *)

(** X22. The mutexes are never nested and never shared: in every state of
    every run at most one worker is inside the scope of [lk] (l.124-133) and
    at most one inside the scope of the [lat_mu_] guard (l.147-151), no
    worker holds both mutexes, and a worker that holds one is at the
    matching place of [worker_loop]. *)
Theorem X22_mutexes_never_nested :
  ∀ (nw bs : Z) (t0 : Q) (ls : list label) (S : System),
    run ls (boot nw bs t0) = Some S →
    (∀ w1 w2, workers_ (sched S) !! w1 = Some Draining →
              workers_ (sched S) !! w2 = Some Draining → w1 = w2)
    ∧ (∀ w1 w2 b1 t1 b2 t2,
         workers_ (sched S) !! w1 = Some (Recording b1 t1) →
         workers_ (sched S) !! w2 = Some (Recording b2 t2) → w1 = w2)
    ∧ (∀ w, mu_ (sched S) = Some w → lat_mu_ (sched S) ≠ Some w)
    ∧ (∀ w, mu_ (sched S) = Some w ↔ workers_ (sched S) !! w = Some Draining)
    ∧ (∀ w, lat_mu_ (sched S) = Some w
            ↔ ∃ b t, workers_ (sched S) !! w = Some (Recording b t)).
Proof.
  intros nw bs t0 ls S Hrun.
  pose proof (run_invariant nw bs ls _ _ (boot_invariant nw bs t0) Hrun) as Hinv.
  split_and!.
  - intros w1 w2 H1%(inv_mu _ _ _ Hinv) H2%(inv_mu _ _ _ Hinv). congruence.
  - intros w1 w2 b1 t1 b2 t2 H1 H2.
    assert (lat_mu_ (sched S) = Some w1) as E1
      by (apply (inv_lat_mu _ _ _ Hinv); eauto).
    assert (lat_mu_ (sched S) = Some w2) as E2
      by (apply (inv_lat_mu _ _ _ Hinv); eauto).
    congruence.
  - intros w H1%(inv_mu _ _ _ Hinv) (b & t & H2)%(inv_lat_mu _ _ _ Hinv).
    congruence.
  - apply (inv_mu _ _ _ Hinv).
  - apply (inv_lat_mu _ _ _ Hinv).
Qed.


End Scheduler.

(** * Implementations of the queue contract *)

Lemma scan_max_spec (k : bool) (l : list InferenceRequest) :
  ∀ x, let '(m, rest) := scan_max k x l in
       x :: l ≡ₚ m :: rest
       ∧ priority x ≤ priority m
       ∧ Forall (λ y, priority y ≤ priority m) l.
Proof.
  induction l as [|y l IH]; intros x; simpl.
  - split; [reflexivity | split; [lia | constructor]].
  - destruct (if k then req_lt x y else negb (req_lt y x)) eqn:Hc.
    + specialize (IH y). destruct (scan_max k y l) as [m rest].
      destruct IH as (Hp & Hle & Hall).
      assert (priority x ≤ priority y) as Hxy.
      { destruct k.
        - apply req_lt_true in Hc. lia.
        - apply negb_true_iff, req_lt_false in Hc. lia. }
      split; [| split].
      * rewrite Hp. apply perm_swap.
      * lia.
      * constructor; [lia | exact Hall].
    + specialize (IH x). destruct (scan_max k x l) as [m rest].
      destruct IH as (Hp & Hle & Hall).
      assert (priority y ≤ priority x) as Hyx.
      { destruct k.
        - apply req_lt_false in Hc. lia.
        - apply negb_false_iff, req_lt_true in Hc. lia. }
      split; [| split].
      * rewrite (perm_swap y x l), Hp. apply perm_swap.
      * lia.
      * constructor; [lia | exact Hall].
Qed.

Lemma scan_top_pop_spec (k : bool) (q : list InferenceRequest) :
  q ≠ [] →
  ∃ r, scan_top k q = Some r
     ∧ q ≡ₚ r :: scan_pop k q
     ∧ ∀ y, y ∈ q → req_lt r y = false.
Proof.
  destruct q as [|x l]; [done | intros _].
  pose proof (scan_max_spec k l x) as H.
  simpl. destruct (scan_max k x l) as [m rest]. simpl.
  destruct H as (Hp & Hle & Hall).
  exists m. split; [reflexivity | split; [exact Hp |]].
  intros y Hy. apply req_lt_false.
  apply elem_of_cons in Hy as [-> | Hy]; [exact Hle |].
  rewrite Forall_forall in Hall. by apply Hall.
Qed.

Lemma list_is_empty_spec (q : list InferenceRequest) :
  list_is_empty q = true ↔ q = [].
Proof. by destruct q. Qed.

(** The queue that serves the oldest of the most urgent requests. *)
#[refine] Instance ScanQueueOldest : PriorityQueue := {
  pq := list InferenceRequest;
  pq_new := [];
  pq_elements q := q;
  pq_empty := list_is_empty;
  pq_push r q := r :: q;
  pq_top := scan_top false;
  pq_pop := scan_pop false
}.
Proof.
  - reflexivity.
  - apply list_is_empty_spec.
  - reflexivity.
  - apply scan_top_pop_spec.
Defined.

(** The queue that serves the newest of the most urgent requests (of lower
    precedence in instance resolution). *)
#[refine] Instance ScanQueueNewest : PriorityQueue | 10 := {
  pq := list InferenceRequest;
  pq_new := [];
  pq_elements q := q;
  pq_empty := list_is_empty;
  pq_push r q := r :: q;
  pq_top := scan_top true;
  pq_pop := scan_pop true
}.
Proof.
  - reflexivity.
  - apply list_is_empty_spec.
  - reflexivity.
  - apply scan_top_pop_spec.
Defined.

(** * Allocators *)

(** A process that is given whatever its workers reserve. *)
#[refine] Instance AmpleMemory : Allocator := {
  reserve_succeeds _ _ := true
}.
Proof. reflexivity. Defined.

(** A process that can have 4 GiB for a batch vector and no more: a request
    takes 24 bytes (three [int], padding, one [double]).  Of lower
    precedence in instance resolution. *)
#[refine] Instance LimitedMemory : Allocator | 10 := {
  reserve_succeeds _ n := bool_decide (24 * n ≤ 2 ^ 32)
}.
Proof. reflexivity. Defined.

(** * Concrete runs

    The queue that serves the oldest of the most urgent requests and the
    process with ample memory are used wherever a queue or an allocator has
    to be chosen. *)

Definition req (i p n : Z) : InferenceRequest := mkRequest i p n 0.

(** Five requests pushed in this order, drawn with batch size 3: the two of
    priority 7 come first, then the one of priority 5. *)
Example pull_batch_example :
  (pull_batch (PQ := ScanQueueOldest) 3
     (pq_push (req 4 1 10) (pq_push (req 3 7 10) (pq_push (req 2 5 10)
       (pq_push (req 1 7 10) (pq_push (req 0 3 10) pq_new)))))).2
  = [req 1 7 10; req 3 7 10; req 2 5 10].
Proof. reflexivity. Qed.

(** Nothing orders equal priorities: two queues that both meet the contract
    serve two requests of priority 5 in opposite orders. *)
Example equal_priorities_either_order :
  pq_top (PriorityQueue := ScanQueueOldest)
    (pq_push (req 2 5 10) (pq_push (req 1 5 10) pq_new)) = Some (req 1 5 10)
  ∧ pq_top (PriorityQueue := ScanQueueNewest)
      (pq_push (req 2 5 10) (pq_push (req 1 5 10) pq_new)) = Some (req 2 5 10).
Proof. split; reflexivity. Qed.

Definition samples : list Q := [7; 3; 10; 1; 5; 9; 2; 8; 4; 6]%Q.

Lemma C3_witness :
  pct (std_sort samples) 0.50 = 6%Q ∧ pct (std_sort samples) 0.95 = 10%Q.
Proof.
  split.
  - destruct (C3_percentile_is_index_based (PQ := ScanQueueOldest)
                samples 0.50)
      as (_ & _ & _ & -> & _);
      [done | simpl; lia | unfold Qle; simpl; lia | unfold Qlt; simpl; lia |].
    reflexivity.
  - destruct (C3_percentile_is_index_based (PQ := ScanQueueOldest)
                samples 0.95)
      as (_ & _ & _ & -> & _);
      [done | simpl; lia | unfold Qle; simpl; lia | unfold Qlt; simpl; lia |].
    reflexivity.
Defined.

(** A run with two workers and batch size 2: three submissions, both workers
    draw a batch, shutdown is called while they hold their batches, both
    process and record, find the queue empty and return. *)
Definition demo_run : list label :=
  [ Enqueue (req 0 3 100); Tick 1; Enqueue (req 1 9 200); Enqueue (req 2 5 50);
    Work 0; Work 1; Work 0; Work 0; Work 1; Work 1; Shutdown;
    Work 0; Tick 5; Work 0; Work 0; Work 0; Work 0;
    Work 1; Tick 1; Work 1; Work 1; Work 1; Work 1;
    Work 0; Work 0; Work 1; Work 1; Join ].

Definition demo_final : option System :=
  Eval vm_compute in run demo_run (boot 2 2 0).

Lemma demo_final_run :
  run demo_run (boot 2 2 0) = demo_final.
Proof. vm_compute. reflexivity. Qed.

Lemma C2_witness :
  ∃ S, run demo_run (boot 2 2 0) = Some S
       ∧ main_pc S = Joined
       ∧ length (latencies_ (sched S)) = 3%nat
       ∧ total_processed_ (sched S) = 3
       ∧ submitted S ≡ₚ flat_map snd (recorded S).
Proof.
  pose proof demo_final_run as Hrun. unfold demo_final in Hrun.
  match type of Hrun with _ = Some ?S => exists S end.
  destruct (C2_drain_records_every_request 2 2 0 demo_run _ ltac:(lia) Hrun)
    as (_ & HJ & _).
  destruct (HJ eq_refl) as (Hperm & _ & Hlen & _ & Hcount & _).
  split_and!; [exact Hrun | reflexivity | exact Hlen | | exact Hperm].
  apply Hcount. vm_compute. discriminate.
Defined.

(** The state of that run in which worker 0 sleeps on its batch while
    worker 1 is inside the scope of [lk]. *)
Definition demo_prefix : list label := take 9 demo_run ++ [Work 0].

Definition demo_middle : option System :=
  Eval vm_compute in run demo_prefix (boot 2 2 0).

Lemma demo_middle_run : run demo_prefix (boot 2 2 0) = demo_middle.
Proof. vm_compute. reflexivity. Qed.

Lemma C9_witness :
  ∃ S, run demo_prefix (boot 2 2 0) = Some S
       ∧ workers_ (sched S) !! 0%nat
         = Some (Sleeping [stamp 1 (req 1 9 200); stamp 1 (req 2 5 50)] 5000)
       ∧ mu_ (sched S) = Some 1%nat
       ∧ mu_ (sched S) ≠ Some 0%nat
       ∧ (∃ S', step (Work 1) S = Some S' ∧ mu_ (sched S') = None).
Proof.
  pose proof demo_middle_run as Hrun. unfold demo_middle in Hrun.
  match type of Hrun with _ = Some ?S => exists S end.
  destruct (C9_no_lock_held_while_sleeping 2 2 0 demo_prefix _ Hrun)
    as (Hsleep & Hheld & _).
  split_and!; [exact Hrun | reflexivity | reflexivity | |].
  - exact (proj1 (Hsleep 0%nat _ _ eq_refl)).
  - exact (proj2 (Hheld 1%nat eq_refl ltac:(done))).
Defined.

(** Batch size 0: the worker takes the lock, draws nothing, finds its batch
    empty and is back at the wait with the request still queued. *)
Example zero_batch_size_spins :
  ∃ S, run [Enqueue (req 0 1 100); Work 0] (boot 1 0 0) = Some S
       ∧ run [Work 0; Work 0; Work 0] S = Some S
       ∧ workers_ (sched S) = [Waiting]
       ∧ pq_elements (queue_ (sched S)) = [req 0 1 100].
Proof. eexists. split; [vm_compute; reflexivity |]. by vm_compute. Qed.

(** ** The properties at concrete inputs *)

Definition five_pending : pq :=
  pq_push (req 4 1 10) (pq_push (req 3 7 10) (pq_push (req 2 5 10)
    (pq_push (req 1 7 10) (pq_push (req 0 3 10) pq_new)))).

Lemma C1_witness :
  priority <$> (pull_batch 3 five_pending).2 = [7; 7; 5]
  ∧ priority <$> pq_elements (pull_batch 3 five_pending).1 ≡ₚ [3; 1]
  ∧ length (pull_batch 3 five_pending).2 = 3%nat.
Proof.
  destruct (C1_batch_priority_order 3 five_pending)
    as (Hperm & _ & _ & _ & Hlen & _).
  split_and!; [reflexivity | | exact Hlen].
  apply (Permutation_app_inv_l (priority <$> (pull_batch 3 five_pending).2)).
  rewrite <- fmap_app, <- Hperm. vm_compute. solve_Permutation.
Defined.

Lemma C4_witness :
  ∃ S, run demo_run (boot 2 2 0) = Some S
       ∧ Forall (λ tb, 1 ≤ Z.of_nat (length tb.2) ≤ 2) (recorded S)
       ∧ length <$> (snd <$> recorded S) = [2%nat; 1%nat]
       ∧ Z.of_nat (length (pull_batch 2 five_pending).2) ≤ 2.
Proof.
  pose proof demo_final_run as Hrun. unfold demo_final in Hrun.
  match type of Hrun with _ = Some ?S => exists S end.
  destruct (C4_batch_bound 2 2 0 demo_run _ Hrun) as (_ & Hrec & Hloop).
  split_and!; [exact Hrun | exact Hrec | reflexivity |].
  exact (proj2 (Hloop five_pending)).
Defined.

Lemma C8_witness :
  sim_ms [req 0 1 100; req 1 1 150] = sim_ms [req 2 9 250]
  ∧ sleep_us [req 0 1 100; req 1 1 150] = sleep_us [req 2 9 250]
  ∧ sim_ms [req 2 9 250] = (inject_Z 250 * 0.02)%Q
  ∧ 20 * 250 - 1 ≤ sleep_us [req 2 9 250] ≤ 20 * 250
  ∧ 0 < sleep_us [req 2 9 250]
  ∧ sleep_us [req 2 9 250] = 5000.
Proof.
  destruct (C8_cost_is_linear_in_size_sum (PQ := ScanQueueOldest))
    as (_ & Hlin & Heq & _ & _ & Hbounds & Hpos).
  destruct (Heq [req 0 1 100; req 1 1 150] [req 2 9 250] eq_refl) as [Hms Hus].
  split_and!; [exact Hms | exact Hus | | | | | reflexivity].
  - apply (Hlin [req 2 9 250]). vm_compute. split; discriminate.
  - apply (Hbounds [req 2 9 250]); vm_compute; discriminate.
  - apply (Hbounds [req 2 9 250]); vm_compute; discriminate.
  - apply (Hpos [req 2 9 250]); vm_compute; discriminate.
Defined.

Lemma C7_witness :
  sleep_us [req 0 1 100; req 1 1 0; req 2 1 50] = sleep_us [req 0 1 100; req 2 1 50]
  ∧ (sim_ms [req 3 1 (-50); req 0 1 100] < sim_ms [req 0 1 100])%Q.
Proof.
  destruct C7_cost_sums_raw_sizes as (_ & Hzero & _ & Hneg).
  split.
  - by apply (Hzero [req 0 1 100] (req 1 1 0) [req 2 1 50]).
  - apply Hneg; vm_compute; [done | split; discriminate | split; discriminate].
Defined.

Lemma C7_counterexample :
  sleep_us [req 0 1 100; req 1 1 (-50)] = 1000
  ∧ sleep_us (clamp_size <$> [req 0 1 100; req 1 1 (-50)]) = 2000
  ∧ (sim_ms [req 1 1 (-50)] < 0)%Q
  ∧ sleep_us [req 1 1 (-50)] = -1000.
Proof. by vm_compute. Qed.

Lemma C5_witness :
  construct (PQ := ScanQueueOldest) 4 8 = spec_construct 4 8
  ∧ num_workers_ (InferenceScheduler_new 0 (-3)) = 0
  ∧ batch_size_ (InferenceScheduler_new 0 (-3)) = -3
  ∧ (∃ S, step (Work 0) (boot 4 (-3) 0) = Some S ∧ main_pc S = Terminated)
  ∧ (∃ S, run demo_run (boot 2 2 0) = Some S ∧ main_pc S ≠ Terminated)
  ∧ (∃ S, step (Mem := LimitedMemory) (Work 0) (boot 1 2147483647 0) = Some S
          ∧ main_pc S = Terminated).
Proof.
  destruct (C5_construction_never_rejects 4 8)
    as (_ & _ & _ & _ & _ & _ & _ & _ & Hspec & _).
  destruct (C5_construction_never_rejects 0 (-3)) as (_ & Hw & Hb & _).
  destruct (C5_construction_never_rejects 4 (-3))
    as (_ & _ & _ & _ & _ & _ & _ & _ & _ & _ & _ & Hterm & _).
  destruct (C5_construction_never_rejects 2 2)
    as (_ & _ & _ & _ & _ & _ & _ & _ & _ & _ & _ & _ & Hruns & _).
  destruct (C5_construction_never_rejects (Mem := LimitedMemory) 1 2147483647)
    as (_ & _ & _ & _ & _ & _ & _ & _ & _ & _ & _ & _ & _ & Hfails).
  split_and!; [by apply Hspec | exact Hw | exact Hb | by apply Hterm | |].
  - pose proof demo_final_run as Hrun. unfold demo_final in Hrun.
    match type of Hrun with _ = Some ?S => exists S end.
    split; [exact Hrun |].
    apply (Hruns ltac:(lia) ltac:(lia) ltac:(by intros w _) 0%Q demo_run).
    exact Hrun.
  - apply (Hfails ltac:(lia) 0%Q 0%nat); [simpl; lia | reflexivity].
Defined.

(** No rejection for a worker count of 0 or a batch size of -1; and a
    positive configuration in which an operation fails: one worker and the
    batch size 2147483647, in a process that cannot have the 48 GiB the
    worker reserves: the first action of the worker ends the process. *)
Lemma C5_counterexample :
  construct (PQ := ScanQueueOldest) 0 8 = Returned (InferenceScheduler_new 0 8)
  ∧ spec_construct (PQ := ScanQueueOldest) 0 8 = Thrown InvalidConfiguration
  ∧ construct (PQ := ScanQueueOldest) 4 (-1) = Returned (InferenceScheduler_new 4 (-1))
  ∧ spec_construct (PQ := ScanQueueOldest) 4 (-1) = Thrown InvalidConfiguration
  ∧ spec_construct (PQ := ScanQueueOldest) 1 2147483647
    = Returned (InferenceScheduler_new 1 2147483647)
  ∧ reserve_succeeds (Allocator := LimitedMemory) 0 2147483647 = false
  ∧ step (Mem := LimitedMemory) (Work 0) (boot 1 2147483647 0)
    = Some (mkSystem (sched (boot 1 2147483647 0)) 0 Terminated [] []).
Proof. by vm_compute. Qed.

Lemma C6_witness :
  pq_elements (queue_ (enqueue 12 (req 7 3 40) (InferenceScheduler_new 1 1)))
  ≡ₚ [mkRequest 7 3 40 12].
Proof.
  destruct (C6_enqueue_stamps_and_pushes 12 (req 7 3 40)
              (InferenceScheduler_new 1 1)) as (Hperm & _).
  exact Hperm.
Defined.

(** Two submissions that carry the identifier 7 are both queued under it. *)
Lemma C6_counterexample :
  id <$> pq_elements
           (queue_ (enqueue 2 (req 7 1 10)
                      (enqueue 1 (req 7 3 40) (InferenceScheduler_new 1 1))))
  = [7; 7].
Proof. reflexivity. Qed.

(** No worker: one request is submitted, [shutdown()] returns at once, and
    the request is still in the queue, with no sample and a count of 0. *)
Lemma C2_counterexample :
  ∃ S, run [Enqueue (req 0 1 100); Shutdown; Join] (boot 0 8 0) = Some S
       ∧ main_pc S = Joined
       ∧ enqueued [Enqueue (req 0 1 100); Shutdown; Join] = [req 0 1 100]
       ∧ latencies_ (sched S) = []
       ∧ total_processed_ (sched S) = 0
       ∧ recorded S = []
       ∧ pq_elements (queue_ (sched S)) = [req 0 1 100].
Proof. eexists. by vm_compute. Qed.

Lemma C10_witness :
  st_p50 (print_stats 9 (InferenceScheduler_new 4 8)) = 0%Q
  ∧ st_p99 (print_stats 9 (InferenceScheduler_new 4 8)) = 0%Q
  ∧ st_throughput (print_stats 9 (InferenceScheduler_new 4 8)) = 0%Q.
Proof.
  destruct (C10_empty_report 9 (InferenceScheduler_new 4 8))
    as (Hpct & Hthr & _).
  destruct (Hpct eq_refl) as (H50 & _ & H99).
  split_and!; [exact H50 | exact H99 | by apply Hthr].
Defined.

(** ** The further properties at concrete inputs *)

Lemma X2_witness :
  head (pull_batch 2
          (queue_ (enqueue 5 (req 9 8 10)
                     (set_queue_ five_pending (InferenceScheduler_new 1 2))))).2
  = Some (mkRequest 9 8 10 5).
Proof.
  apply (X2_urgent_request_heads_next_batch 5 (req 9 8 10)
           (set_queue_ five_pending (InferenceScheduler_new 1 2)) 2).
  - lia.
  - apply Forall_forall. vm_compute. repeat constructor.
Defined.

Lemma X3_witness :
  Forall (λ r, 5 < priority r) (pull_batch 2 five_pending).2
  ∧ req 2 5 10 ∈ pq_elements (pull_batch 2 five_pending).1.
Proof.
  destruct (X3_lower_priority_waits 2 5 five_pending
              [req 3 7 10; req 1 7 10] [req 4 1 10; req 2 5 10; req 0 3 10])
    as [Hbatch Hrest].
  - vm_compute. solve_Permutation.
  - repeat constructor.
  - simpl. lia.
  - split; [exact Hbatch |]. apply Hrest.
    + vm_compute. do 2 right. left.
    + simpl. lia.
Defined.

Lemma X4_witness :
  ∃ S, run demo_prefix (boot 2 2 0) = Some S
       ∧ workers_ (sched S) !! 1%nat = Some Draining
       ∧ pq_empty (queue_ (sched S)) = false
       ∧ (∃ S', step (Work 1) S = Some S'
                ∧ (workers_ (sched S') !! 1%nat = Some Exited
                   ∨ ∃ r b, workers_ (sched S') !! 1%nat = Some (Batched (r :: b)))).
Proof.
  pose proof demo_middle_run as Hrun. unfold demo_middle in Hrun.
  match type of Hrun with _ = Some ?S => exists S end.
  destruct (X4_no_empty_batch 2 2 0 demo_prefix _ ltac:(lia) Hrun)
    as (_ & _ & Hnext).
  split_and!; [exact Hrun | reflexivity | reflexivity |].
  exact (Hnext 1%nat eq_refl ltac:(discriminate)).
Defined.

(** Batch size 0: one request, a worker that goes round once, and the call
    of [shutdown()]. *)
Definition zero_batch_run : list label :=
  [Enqueue (req 0 1 100); Work 0; Work 0; Work 0; Work 0; Shutdown; Work 0].

Definition zero_batch_state : option System :=
  Eval vm_compute in run zero_batch_run (boot 1 0 0).

Lemma zero_batch_state_run : run zero_batch_run (boot 1 0 0) = zero_batch_state.
Proof. vm_compute. reflexivity. Qed.

Lemma X5_witness :
  ∃ S, run zero_batch_run (boot 1 0 0) = Some S
       ∧ latencies_ (sched S) = []
       ∧ total_processed_ (sched S) = 0
       ∧ pq_elements (queue_ (sched S)) ≡ₚ submitted S
       ∧ main_pc S = Joining
       ∧ main_pc S ≠ Joined.
Proof.
  pose proof zero_batch_state_run as Hrun. unfold zero_batch_state in Hrun.
  match type of Hrun with _ = Some ?S => exists S end.
  destruct (X5_nonpositive_batch_size_processes_nothing 1 0 0 zero_batch_run _
              ltac:(lia) Hrun) as (_ & Hlat & Hcount & Hqueue & Hjoin).
  split_and!; [exact Hrun | exact Hlat | exact Hcount | exact Hqueue
               | reflexivity |].
  apply Hjoin; [lia | discriminate].
Defined.

Lemma X6_witness :
  ∃ S, run demo_run (boot 2 2 0) = Some S
       ∧ now_ms S = 7%Q
       ∧ latencies_ (sched S) = [5; 5; 7]%Q
       ∧ Forall (λ x, (0 <= x)%Q ∧ (x <= now_ms S - 0)%Q) (latencies_ (sched S)).
Proof.
  pose proof demo_final_run as Hrun. unfold demo_final in Hrun.
  match type of Hrun with _ = Some ?S => exists S end.
  destruct (X6_latencies_nonnegative 2 2 0 demo_run _ Hrun)
    as (_ & _ & _ & _ & Hlat & _).
  split_and!; [exact Hrun | reflexivity | reflexivity | exact Hlat].
Defined.

(** The state of the run in which worker 0 has recorded its batch of two
    and has not added it to the count yet. *)
Definition demo_counting : option System :=
  Eval vm_compute in run (take 16 demo_run) (boot 2 2 0).

Lemma demo_counting_run : run (take 16 demo_run) (boot 2 2 0) = demo_counting.
Proof. vm_compute. reflexivity. Qed.

Lemma X7_witness :
  ∃ S, run (take 16 demo_run) (boot 2 2 0) = Some S
       ∧ length (latencies_ (sched S)) = 2%nat
       ∧ sum_uncounted (workers_ (sched S)) = 2
       ∧ total_processed_ (sched S) = 2 - 2
       ∧ 0 ≤ total_processed_ (sched S) ≤ 2.
Proof.
  pose proof demo_counting_run as Hrun. unfold demo_counting in Hrun.
  match type of Hrun with _ = Some ?S => exists S end.
  destruct (X7_processed_count_lags_samples 2 2 0 (take 16 demo_run) _
              ltac:(vm_compute; discriminate) Hrun) as (Hcount & Hrange & _).
  split_and!; [exact Hrun | reflexivity | reflexivity | exact Hcount
               | exact (proj1 Hrange) | exact (proj2 Hrange)].
Defined.

Lemma X8_witness :
  ∃ S, run demo_prefix (boot 2 2 0) = Some S
       ∧ pq_elements (queue_ (sched S)) = [stamp 0 (req 0 3 100)]
       ∧ flat_map pending (workers_ (sched S))
         = [stamp 1 (req 1 9 200); stamp 1 (req 2 5 50)]
       ∧ recorded S = []
       ∧ submitted S
           ≡ₚ pq_elements (queue_ (sched S))
              ++ flat_map pending (workers_ (sched S))
              ++ flat_map snd (recorded S).
Proof.
  pose proof demo_middle_run as Hrun. unfold demo_middle in Hrun.
  match type of Hrun with _ = Some ?S => exists S end.
  destruct (X8_requests_conserved 2 2 0 demo_prefix _ Hrun) as (Hcons & _).
  split_and!; [exact Hrun | reflexivity | reflexivity | reflexivity
               | exact Hcons].
Defined.

Lemma X9_witness :
  ∃ S, run demo_run (boot 2 2 0) = Some S
       ∧ main_pc S = Joined
       ∧ workers_ (sched S) = [Exited; Exited]
       ∧ mu_ (sched S) = None
       ∧ lat_mu_ (sched S) = None
       ∧ step (Work 0) S = None.
Proof.
  pose proof demo_final_run as Hrun. unfold demo_final in Hrun.
  match type of Hrun with _ = Some ?S => exists S end.
  destruct (X9_workers_return_only_after_shutdown 2 2 0 demo_run _ Hrun)
    as (_ & _ & _ & _ & Hjoined).
  destruct (Hjoined eq_refl) as (_ & Hmu & Hlat & Hstep).
  split_and!; [exact Hrun | reflexivity | reflexivity | exact Hmu | exact Hlat
               | exact (Hstep 0%nat)].
Defined.

Lemma X10_witness :
  ∃ S, run demo_run (boot 2 2 0) = Some S
       ∧ length (recorded S) = 2%nat
       ∧ length (latencies_ (sched S)) = 3%nat
       ∧ Z.of_nat (length (recorded S)) ≤ Z.of_nat (length (latencies_ (sched S)))
       ∧ Z.of_nat (length (latencies_ (sched S)))
         ≤ 2 * Z.of_nat (length (recorded S)).
Proof.
  pose proof demo_final_run as Hrun. unfold demo_final in Hrun.
  match type of Hrun with _ = Some ?S => exists S end.
  destruct (X10_batches_needed 2 2 0 demo_run _ Hrun) as (Hlo & Hhi & _).
  split_and!; [exact Hrun | reflexivity | reflexivity | exact Hlo | exact Hhi].
Defined.

(** A scheduler that holds the ten samples. *)
Definition sampled : InferenceScheduler :=
  set_latencies_ samples (InferenceScheduler_new 4 8).

Lemma X11_witness :
  st_p50 (print_stats 9 sampled) = 6%Q
  ∧ st_p99 (print_stats 9 sampled) = 10%Q
  ∧ (st_p50 (print_stats 9 sampled) <= st_p95 (print_stats 9 sampled))%Q
  ∧ (st_p95 (print_stats 9 sampled) <= st_p99 (print_stats 9 sampled))%Q
  ∧ st_p95 (print_stats 9 sampled) ∈ samples.
Proof.
  destruct (X11_percentiles_ordered 9 sampled ltac:(simpl; lia))
    as (H50 & H95 & Helem & _).
  destruct (Helem ltac:(discriminate)) as (_ & Hin & _).
  split_and!; [reflexivity | reflexivity | exact H50 | exact H95 | exact Hin].
Defined.

Lemma X12_witness :
  rank_index 10 (3 # 2) = 9%nat
  ∧ pct (std_sort samples) (3 # 2) = 10%Q
  ∧ pct (std_sort samples) 0 = 1%Q
  ∧ Forall (λ x, (x <= pct (std_sort samples) (3 # 2))%Q) samples
  ∧ Forall (λ x, (pct (std_sort samples) 0 <= x)%Q) samples.
Proof.
  destruct (X12_rank_clamped_to_last_sample samples (3 # 2))
    as (_ & _ & _ & _ & Hlast & Hfirst);
    [discriminate | unfold Qle; simpl; lia | vm_compute; reflexivity |].
  destruct (Hlast ltac:(unfold Qle; simpl; lia)) as [Hidx Hmax].
  split_and!; [exact Hidx | reflexivity | reflexivity | |].
  - apply Forall_forall. exact Hmax.
  - apply Forall_forall. exact Hfirst.
Defined.

Lemma X13_witness :
  (st_p50 (print_stats 9 sampled)
   == st_p50 (print_stats 9 (set_latencies_ (reverse samples) sampled)))%Q
  ∧ (st_p99 (print_stats 9 sampled)
     == st_p99 (print_stats 9 (set_latencies_ (reverse samples) sampled)))%Q.
Proof.
  destruct (X13_report_independent_of_recording_order 9 sampled
              (set_latencies_ (reverse samples) sampled))
    as (H50 & _ & H99 & _).
  - simpl. by rewrite reverse_Permutation.
  - split; [exact H50 | exact H99].
Defined.

Lemma X14_witness :
  ∃ S, run demo_run (boot 2 2 0) = Some S
       ∧ pq_elements (queue_ (enqueue (now_ms S) (req 3 9 10) (sched S)))
         = [mkRequest 3 9 10 7]
       ∧ worker_step 0 (set_sched (enqueue (now_ms S) (req 3 9 10) (sched S)) S)
         = None
       ∧ (∀ S', run [Tick 100; Work 1; Tick 100]
                  (set_sched (enqueue (now_ms S) (req 3 9 10) (sched S)) S)
                = Some S' →
                sched S' = enqueue (now_ms S) (req 3 9 10) (sched S)).
Proof.
  pose proof demo_final_run as Hrun. unfold demo_final in Hrun.
  match type of Hrun with _ = Some ?S => exists S end.
  match type of Hrun with _ = Some ?S =>
    destruct (X14_enqueue_after_shutdown_is_never_processed S (req 3 9 10))
      as (_ & Hstep & Hstay)
  end.
  - repeat constructor.
  - split_and!; [exact Hrun | reflexivity | exact (Hstep 0%nat) |].
    intros S' Hrun'.
    exact (proj1 (Hstay [Tick 100; Work 1; Tick 100] S'
                    ltac:(repeat constructor) Hrun')).
Defined.

Lemma X16_witness :
  parse_args
    (command_line [(Workers, "2"); (Batch, "16"); (Workers, "3")]%string
     ++ ["--requests"]%string) default_options
  = mkOptions 3 16 200.
Proof.
  destruct (X16_flags_apply_left_to_right
              [(Workers, "2"); (Batch, "16"); (Workers, "3")]%string
              ["--requests"]%string default_options ltac:(simpl; lia))
    as (Hfold & _).
  rewrite Hfold. reflexivity.
Defined.

(** A run of [main] with one worker, batch size 2 and three requests. *)
Definition main_prio (i : nat) : Z := 1 + (7 * Z.of_nat i) mod 10.
Definition main_tok (i : nat) : Z := 50 + 100 * Z.of_nat i.

Definition main_run : list label :=
  (Enqueue <$> main_requests main_prio main_tok 3)
  ++ [Work 0; Work 0; Work 0; Work 0; Tick 5; Work 0; Work 0; Work 0; Work 0;
      Work 0; Work 0; Work 0; Tick 1; Work 0; Work 0; Work 0; Work 0;
      Shutdown; Work 0; Work 0; Join; Tick 2].

Definition main_final : option System :=
  Eval vm_compute in run main_run (boot 1 2 0).

Lemma main_final_run : run main_run (boot 1 2 0) = main_final.
Proof. vm_compute. reflexivity. Qed.

Lemma X19_witness :
  ∃ S, run main_run (boot 1 2 0) = Some S
       ∧ st_processed (print_stats (now_ms S) (sched S)) = 3
       ∧ length (latencies_ (sched S)) = 3%nat
       ∧ (0 <= st_p50 (print_stats (now_ms S) (sched S)))%Q
       ∧ (st_p50 (print_stats (now_ms S) (sched S))
          <= st_p99 (print_stats (now_ms S) (sched S)))%Q
       ∧ (st_p99 (print_stats (now_ms S) (sched S))
          <= st_elapsed (print_stats (now_ms S) (sched S)))%Q
       ∧ st_elapsed (print_stats (now_ms S) (sched S)) = 8%Q.
Proof.
  pose proof main_final_run as Hrun. unfold main_final in Hrun.
  match type of Hrun with _ = Some ?S => exists S end.
  destruct (X19_main_report 1 2 0 main_prio main_tok 3 main_run _
              ltac:(lia) ltac:(vm_compute; discriminate) Hrun eq_refl eq_refl)
    as (_ & _ & Hproc & Hlen & H0 & H1 & H2 & H3 & _).
  split_and!; [exact Hrun | exact Hproc | exact Hlen | exact H0
               | exact (Qle_trans _ _ _ H1 H2) | exact H3 | reflexivity].
Defined.

Lemma X25_witness :
  main_options ["prog"; "--workers"; "1"; "--batch"; "2"; "--requests"; "3"]%string
  = mkOptions 1 2 3
  ∧ ∃ S, run main_run (boot 1 2 0) = Some S
         ∧ st_workers (print_stats (now_ms S) (sched S)) = 1
         ∧ st_batch_size (print_stats (now_ms S) (sched S)) = 2
         ∧ st_processed (print_stats (now_ms S) (sched S)) = 3
         ∧ length (latencies_ (sched S)) = 3%nat.
Proof.
  split; [reflexivity |].
  pose proof main_final_run as Hrun. unfold main_final in Hrun.
  match type of Hrun with _ = Some ?S => exists S end.
  destruct (X25_main_end_to_end
              ["prog"; "--workers"; "1"; "--batch"; "2"; "--requests"; "3"]%string
              main_prio main_tok 0) as (_ & _ & Hreport).
  destruct (Hreport ltac:(vm_compute; discriminate) main_run _ Hrun
              eq_refl eq_refl)
    as (Hw & Hb & Hp & Hl).
  split_and!; [exact Hrun | exact Hw | exact Hb | exact Hp | exact Hl].
Defined.

Lemma X20_witness :
  ∃ S0, run demo_prefix (boot 2 2 0) = Some S0
        ∧ mu_ (sched S0) = Some 1%nat
        ∧ ∃ ls S, run (demo_prefix ++ ls) (boot 2 2 0) = Some S
                  ∧ main_pc S = Joined
                  ∧ enqueued ls = [req 3 2 20; req 4 6 30]
                  ∧ length (latencies_ (sched S)) = 5%nat.
Proof.
  pose proof demo_middle_run as Hrun. unfold demo_middle in Hrun.
  match type of Hrun with _ = Some ?S => exists S end.
  split_and!; [exact Hrun | reflexivity |].
  destruct (X20_main_thread_can_always_finish 2 2 0 demo_prefix _
              [req 3 2 20; req 4 6 30] ltac:(lia) ltac:(by intros w _)
              Hrun eq_refl)
    as (ls & S & Hrun' & Hm & Henq & Hlen).
  exists ls, S. split_and!; [exact Hrun' | exact Hm | exact Henq |].
  exact (Hlen ltac:(lia)).
Defined.

Lemma X21_witness :
  100 ≤ total_tokens [req 0 1 50; req 1 1 500]
  ∧ total_tokens [req 0 1 50; req 1 1 500] ≤ 1000
  ∧ (2 <= sim_ms [req 0 1 50; req 1 1 500])%Q
  ∧ (sim_ms [req 0 1 50; req 1 1 500] <= 20)%Q.
Proof.
  destruct (X21_batch_cost_bounds 50 500 [req 0 1 50; req 1 1 500])
    as (Hlo & Hhi & _ & _ & Hmain).
  - repeat constructor; simpl; lia.
  - vm_compute. split; discriminate.
  - vm_compute. split; discriminate.
  - destruct (Hmain eq_refl eq_refl) as [Hge Hle].
    split_and!; [exact Hlo | exact Hhi | exact Hge | exact Hle].
Defined.

Lemma X22_witness :
  ∃ S, run demo_prefix (boot 2 2 0) = Some S
       ∧ mu_ (sched S) = Some 1%nat
       ∧ lat_mu_ (sched S) ≠ Some 1%nat
       ∧ workers_ (sched S) !! 1%nat = Some Draining.
Proof.
  pose proof demo_middle_run as Hrun. unfold demo_middle in Hrun.
  match type of Hrun with _ = Some ?S => exists S end.
  destruct (X22_mutexes_never_nested 2 2 0 demo_prefix _ Hrun)
    as (_ & _ & Hboth & Hmu & _).
  split_and!; [exact Hrun | reflexivity | exact (Hboth 1%nat eq_refl) |].
  exact (proj1 (Hmu 1%nat) eq_refl).
Defined.


(** * Binary64 cross-check

    The model computes on [double] values exactly.  The source converts a
    [double] to an integer in two places, the index of a percentile (l.96)
    and the microseconds of a sleep (l.142); both are recomputed here in
    IEEE 754 binary64, the arithmetic of [double], and compared with the
    model where the properties above are used. *)

Module Binary64.

(** Truncation toward zero of a finite binary64 value. *)
Definition double_trunc (f : float) : Z :=
  match Prim2SF f with
  | S754_finite sign m e =>
    let magnitude :=
      match e with
      | Z0 => Z.pos m
      | Z.pos k => Z.shiftl (Z.pos m) (Z.pos k)
      | Z.neg k => Z.shiftr (Z.pos m) (Z.pos k)
      end in
    if sign then - magnitude else magnitude
  | _ => 0
  end.

(** The conversion of an integer below [2 ^ 53] in absolute value: exact. *)
Definition double_of_Z (n : Z) : float :=
  if bool_decide (n < 0)
  then PrimFloat.opp (PrimFloat.of_uint63 (Uint63.of_Z (- n)))
  else PrimFloat.of_uint63 (Uint63.of_Z n).

(** The literals of the source, as the binary64 values nearest to them. *)
Definition d_0_50 : float := 0x1p-1%float.
Definition d_0_95 : float := 0x1.e666666666666p-1%float.
Definition d_0_99 : float := 0x1.fae147ae147aep-1%float.
Definition d_0_02 : float := 0x1.47ae147ae147bp-6%float.

(** l.96-97: [idx = min(static_cast<size_t>(p * size), size - 1)]. *)
Definition pct_index (p : float) (size : Z) : Z :=
  Z.min (double_trunc (PrimFloat.mul p (double_of_Z size))) (size - 1).

(** The index the model uses. *)
Definition model_index (p : Q) (size : Z) : Z :=
  Z.min (static_cast_size_t (p * inject_Z size)%Q) (size - 1).

(** l.140-142: [static_cast<int>(total_tokens * 0.02 * 1000)]. *)
Definition sleep_us_of (total_tokens : Z) : Z :=
  double_trunc
    (PrimFloat.mul (PrimFloat.mul (double_of_Z total_tokens) d_0_02) 1000%float).

Definition model_sleep_us_of (total_tokens : Z) : Z :=
  static_cast_int (inject_Z total_tokens * 0.02 * 1000)%Q.

Definition sizes_upto (n : nat) : list Z := Z.of_nat <$> seq 1 n.

(** For the three ranks of [print_stats] and every sample count up to 1000
    the binary64 index is the index of the model. *)
Lemma pct_index_agrees :
  forallb (λ n, bool_decide (pct_index d_0_50 n = model_index 0.50 n)
                && bool_decide (pct_index d_0_95 n = model_index 0.95 n)
                && bool_decide (pct_index d_0_99 n = model_index 0.99 n))
    (sizes_upto 1000) = true.
Proof. vm_compute. reflexivity. Qed.

(** The sample set of the specification: indices 5, 9 and 9. *)
Lemma pct_index_ten :
  pct_index d_0_50 10 = 5 ∧ pct_index d_0_95 10 = 9 ∧ pct_index d_0_99 10 = 9.
Proof. vm_compute. done. Qed.

(** The sleeps of the runs and batches above are those of binary64. *)
Lemma sleep_us_agrees :
  Forall (λ n, sleep_us_of n = model_sleep_us_of n) [-50; 0; 50; 100; 150; 250].
Proof. repeat constructor. Qed.

(** Rounding can cost a microsecond: up to a total of 2000 tokens the
    binary64 value is the exact one or one below it, as for 803 tokens. *)
Lemma sleep_us_within_one :
  forallb (λ n, bool_decide (20 * n - 1 ≤ sleep_us_of n ≤ 20 * n))
    (sizes_upto 2000) = true
  ∧ sleep_us_of 803 = 16059
  ∧ model_sleep_us_of 803 = 16060.
Proof. vm_compute. done. Qed.

Lemma sizes_upto_elem (n : nat) (k : Z) : 1 ≤ k ≤ Z.of_nat n → k ∈ sizes_upto n.
Proof.
  intros Hk. unfold sizes_upto. apply list_elem_of_fmap.
  exists (Z.to_nat k). split; [lia |]. apply elem_of_seq. lia.
Qed.

Lemma forallb_elem (f : Z → bool) (l : list Z) (k : Z) :
  forallb f l = true → k ∈ l → f k = true.
Proof.
  intros Hall Hk. rewrite forallb_forall in Hall.
  by apply Hall, list_elem_of_In.
Qed.

Lemma rank_index_model (p : Q) (n : Z) :
  1 ≤ n → Z.of_nat (rank_index (Z.to_nat n) p) = model_index p n.
Proof.
  intros Hn. unfold rank_index, model_index, static_cast_size_t.
  rewrite (Z2Nat.id n) by lia.
  pose proof (Z.mod_pos_bound (Qtrunc (p * inject_Z n)) (2 ^ 64) ltac:(lia)).
  lia.
Qed.

(** X23. The index of a percentile in binary64.  For every sample count up
    to 5000 and the three ranks [print_stats] asks for, the index computed
    as the source computes it, in [double] (l.96-97), is the index the exact
    model of [pct] reads: the rounding of [p * size] never moves it. *)
Theorem X23_binary64_rank_index :
  ∀ n : Z,
    1 ≤ n ≤ 5000 →
    pct_index d_0_50 n = Z.of_nat (rank_index (Z.to_nat n) 0.50)
    ∧ pct_index d_0_95 n = Z.of_nat (rank_index (Z.to_nat n) 0.95)
    ∧ pct_index d_0_99 n = Z.of_nat (rank_index (Z.to_nat n) 0.99).
Proof.
  intros n Hn.
  assert (forallb (λ n, bool_decide (pct_index d_0_50 n = model_index 0.50 n)
                        && bool_decide (pct_index d_0_95 n = model_index 0.95 n)
                        && bool_decide (pct_index d_0_99 n = model_index 0.99 n))
            (sizes_upto 5000) = true) as Hall
    by (vm_compute; reflexivity).
  apply (forallb_elem _ _ n) in Hall; [| by apply sizes_upto_elem].
  apply andb_true_iff in Hall as [[H50 H95]%andb_true_iff H99].
  rewrite !rank_index_model by lia.
  split_and!; by eapply bool_decide_eq_true_1.
Qed.

Lemma X23_witness :
  pct_index d_0_50 10 = 5 ∧ pct_index d_0_95 10 = 9 ∧ pct_index d_0_99 10 = 9.
Proof.
  destruct (X23_binary64_rank_index 10 ltac:(lia)) as (H50 & H95 & H99).
  split_and!; [exact H50 | exact H95 | exact H99].
Defined.

(** X24. The sleep in binary64.  [sim_ms * 1000] is computed in [double]
    and truncated (l.140-142): for every token total from 1 to 4000, which
    covers the batches of [main] with its batch size of 8, the microseconds
    slept are the exact value, 20 for each token, or one microsecond less;
    803 tokens sleep 16059 microseconds. *)
Theorem X24_binary64_sleep_within_one :
  ∀ n : Z,
    1 ≤ n ≤ 4000 →
    20 * n - 1 ≤ sleep_us_of n ≤ 20 * n
    ∧ model_sleep_us_of n = 20 * n.
Proof.
  intros n Hn.
  assert (forallb (λ n, bool_decide (20 * n - 1 ≤ sleep_us_of n ≤ 20 * n)
                        && bool_decide (model_sleep_us_of n = 20 * n))
            (sizes_upto 4000) = true) as Hall
    by (vm_compute; reflexivity).
  apply (forallb_elem _ _ n) in Hall; [| by apply sizes_upto_elem].
  apply andb_true_iff in Hall as [Hb Hm].
  split; by eapply bool_decide_eq_true_1.
Qed.

Lemma X24_witness :
  sleep_us_of 803 = 16059 ∧ model_sleep_us_of 803 = 16060
  ∧ 20 * 803 - 1 ≤ sleep_us_of 803 ≤ 20 * 803.
Proof.
  destruct (X24_binary64_sleep_within_one 803 ltac:(lia)) as [Hb Hm].
  split_and!; [reflexivity | exact Hm | exact (proj1 Hb) | exact (proj2 Hb)].
Defined.


End Binary64.